(** * PanBinaural: a shallow embedding of [src/lib/interfaces/panbinaural.js]

    The widget keeps a list of source points around a listener, clamps the
    active point to a circular boundary, and reports distance and angle of
    the points through a [change] event.

    Conventions of the embedding.
    - A JavaScript number that holds a coordinate, a length or an angle is a
      real number ([R]): arithmetic is exact, there is no rounding, no NaN
      and no infinity.  [Math.sqrt], [Math.cos], [Math.sin] and [Math.PI]
      are [sqrt], [cos], [sin] and [PI]; [Math.atan2] is [atan2] below.
    - An array index is a [nat]; [undefined] where an index is expected is
      [None].  An index that comes from a caller is a [Z].
    - A method is a function from the widget ([this]) to a completion and
      the widget as the method left it: the methods mutate [this] in place,
      and a [TypeError] (a property read or written on [undefined]) leaves
      the mutations made before it.
    - An SVG element is a record of the attributes the widget sets on it,
      with a number [eid] that stands for the identity of the DOM node; the
      children of [this.element] are the list of those numbers. *)

From Stdlib Require Import Reals Lra Lia ZArith String DecimalString.
From stdpp Require Import base list.

Local Open Scope R_scope.

(** ** Numbers *)

(** [Math.atan2(y, x)] on real numbers: the angle in (-PI, PI] of the
    vector (x, y); 0 for the null vector. *)
Definition atan2 (y x : R) : R :=
  if Rlt_dec 0 x then atan (y / x)
  else if Rlt_dec x 0 then
    if Rle_dec 0 y then atan (y / x) + PI else atan (y / x) - PI
  else if Rlt_dec 0 y then PI / 2
  else if Rlt_dec y 0 then - (PI / 2)
  else 0.

(** ** Data *)

(** [class Point]. *)
Module Point.
Record t : Type := new {
  x : R;
  y : R;
  label : string;
  colorIndex : Z
}.
Definition set_x (v : R) (p : t) : t := new v (y p) (label p) (colorIndex p).
Definition set_y (v : R) (p : t) : t := new (x p) v (label p) (colorIndex p).
Definition set_colorIndex (c : Z) (p : t) : t := new (x p) (y p) (label p) c.
End Point.

(** An object literal [{x: .., y: ..}]: the pointer position [this.mouse]
    and the value of [polToCar]. *)
Module XY.
Record t : Type := new { x : R; y : R }.
End XY.

(** The [circle] element of a source, with the attributes [generateNewPoint]
    sets on it. *)
Module Circle.
Record t : Type := new {
  eid : nat;
  cx : R;
  cy : R;
  r : R;
  fill_opacity : string;
  fill : string;
  stroke : string
}.
Definition set_cx (v : R) (e : t) : t :=
  new (eid e) v (cy e) (r e) (fill_opacity e) (fill e) (stroke e).
Definition set_cy (v : R) (e : t) : t :=
  new (eid e) (cx e) v (r e) (fill_opacity e) (fill e) (stroke e).
Definition set_fill (v : string) (e : t) : t :=
  new (eid e) (cx e) (cy e) (r e) (fill_opacity e) v (stroke e).
Definition set_stroke (v : string) (e : t) : t :=
  new (eid e) (cx e) (cy e) (r e) (fill_opacity e) (fill e) v.
End Circle.

(** The [text] element of a source. *)
Module Text.
Record t : Type := new {
  eid : nat;
  x : R;
  y : R;
  fill : string;
  text_anchor : string;
  textContent : string
}.
Definition set_x (v : R) (e : t) : t :=
  new (eid e) v (y e) (fill e) (text_anchor e) (textContent e).
Definition set_y (v : R) (e : t) : t :=
  new (eid e) (x e) v (fill e) (text_anchor e) (textContent e).
End Text.

(** The data of a [change] event. *)
Inductive TransmitData : Type :=
  | AllPoints (angles distances : list R)
  | ActivePoint (pointIndex : nat) (angle distance : R)
  | Undefined.

(** The fields of [this].  [width], [height], [mouse], [clicked] and
    [element] are the ones of the [Interface] base class the widget reads;
    [emitted] lists the data of the [change] events emitted so far, the
    oldest first; [nextId] is the identity of the next element
    [svg.create] makes. *)
Record PanBinaural : Type := mkPanBinaural {
  width : R;
  height : R;
  mouse : XY.t;
  clicked : bool;
  element : list nat;
  emitted : list TransmitData;
  nextId : nat;
  activePoint : option nat;
  currentColorIndex : Z;
  meterScale : R;
  val : list Point.t;
  circleCenterX : R;
  circleCenterY : R;
  listenerPoint : Point.t;
  bgRadius : R;
  nodeSize : R;
  nodeSizeMain : R;
  activeBorderColor : string;
  customColors : list string;
  transmitMode : Z;
  headOrientation : R;
  angleRelativeToHead : bool;
  clickable : bool;
  newPointsGeneratable : bool;
  backgroundCircle : nat;
  listener : nat;
  sourceElements : list Circle.t;
  labelElements : list Text.t
}.

(** Assignments to the fields the methods write. *)
Definition set_element (v : list nat) (this : PanBinaural) : PanBinaural :=
  mkPanBinaural (width this) (height this) (mouse this) (clicked this)
    v (emitted this) (nextId this) (activePoint this)
    (currentColorIndex this) (meterScale this) (val this)
    (circleCenterX this) (circleCenterY this) (listenerPoint this)
    (bgRadius this) (nodeSize this) (nodeSizeMain this)
    (activeBorderColor this) (customColors this) (transmitMode this)
    (headOrientation this) (angleRelativeToHead this) (clickable this)
    (newPointsGeneratable this) (backgroundCircle this) (listener this)
    (sourceElements this) (labelElements this).

Definition set_emitted (v : list TransmitData) (this : PanBinaural) : PanBinaural :=
  mkPanBinaural (width this) (height this) (mouse this) (clicked this)
    (element this) v (nextId this) (activePoint this)
    (currentColorIndex this) (meterScale this) (val this)
    (circleCenterX this) (circleCenterY this) (listenerPoint this)
    (bgRadius this) (nodeSize this) (nodeSizeMain this)
    (activeBorderColor this) (customColors this) (transmitMode this)
    (headOrientation this) (angleRelativeToHead this) (clickable this)
    (newPointsGeneratable this) (backgroundCircle this) (listener this)
    (sourceElements this) (labelElements this).

Definition set_nextId (v : nat) (this : PanBinaural) : PanBinaural :=
  mkPanBinaural (width this) (height this) (mouse this) (clicked this)
    (element this) (emitted this) v (activePoint this)
    (currentColorIndex this) (meterScale this) (val this)
    (circleCenterX this) (circleCenterY this) (listenerPoint this)
    (bgRadius this) (nodeSize this) (nodeSizeMain this)
    (activeBorderColor this) (customColors this) (transmitMode this)
    (headOrientation this) (angleRelativeToHead this) (clickable this)
    (newPointsGeneratable this) (backgroundCircle this) (listener this)
    (sourceElements this) (labelElements this).

Definition set_activePoint (v : option nat) (this : PanBinaural) : PanBinaural :=
  mkPanBinaural (width this) (height this) (mouse this) (clicked this)
    (element this) (emitted this) (nextId this) v
    (currentColorIndex this) (meterScale this) (val this)
    (circleCenterX this) (circleCenterY this) (listenerPoint this)
    (bgRadius this) (nodeSize this) (nodeSizeMain this)
    (activeBorderColor this) (customColors this) (transmitMode this)
    (headOrientation this) (angleRelativeToHead this) (clickable this)
    (newPointsGeneratable this) (backgroundCircle this) (listener this)
    (sourceElements this) (labelElements this).

Definition set_val (v : list Point.t) (this : PanBinaural) : PanBinaural :=
  mkPanBinaural (width this) (height this) (mouse this) (clicked this)
    (element this) (emitted this) (nextId this) (activePoint this)
    (currentColorIndex this) (meterScale this) v
    (circleCenterX this) (circleCenterY this) (listenerPoint this)
    (bgRadius this) (nodeSize this) (nodeSizeMain this)
    (activeBorderColor this) (customColors this) (transmitMode this)
    (headOrientation this) (angleRelativeToHead this) (clickable this)
    (newPointsGeneratable this) (backgroundCircle this) (listener this)
    (sourceElements this) (labelElements this).

Definition set_sourceElements (v : list Circle.t) (this : PanBinaural) : PanBinaural :=
  mkPanBinaural (width this) (height this) (mouse this) (clicked this)
    (element this) (emitted this) (nextId this) (activePoint this)
    (currentColorIndex this) (meterScale this) (val this)
    (circleCenterX this) (circleCenterY this) (listenerPoint this)
    (bgRadius this) (nodeSize this) (nodeSizeMain this)
    (activeBorderColor this) (customColors this) (transmitMode this)
    (headOrientation this) (angleRelativeToHead this) (clickable this)
    (newPointsGeneratable this) (backgroundCircle this) (listener this)
    v (labelElements this).

Definition set_labelElements (v : list Text.t) (this : PanBinaural) : PanBinaural :=
  mkPanBinaural (width this) (height this) (mouse this) (clicked this)
    (element this) (emitted this) (nextId this) (activePoint this)
    (currentColorIndex this) (meterScale this) (val this)
    (circleCenterX this) (circleCenterY this) (listenerPoint this)
    (bgRadius this) (nodeSize this) (nodeSizeMain this)
    (activeBorderColor this) (customColors this) (transmitMode this)
    (headOrientation this) (angleRelativeToHead this) (clickable this)
    (newPointsGeneratable this) (backgroundCircle this) (listener this)
    (sourceElements this) v.

(** ** Methods as state transformers that may throw *)

Inductive completion (A : Type) : Type :=
  | Normal (a : A)
  | TypeError.
Arguments Normal {A} a.
Arguments TypeError {A}.

Definition Method (A : Type) : Type := PanBinaural -> completion A * PanBinaural.

Definition ret {A} (a : A) : Method A := fun this => (Normal a, this).

Definition bind {A B} (m : Method A) (k : A -> Method B) : Method B :=
  fun this =>
    match m this with
    | (Normal a, this') => k a this'
    | (TypeError, this') => (TypeError, this')
    end.

Definition throw {A} : Method A := fun this => (TypeError, this).

Definition get : Method PanBinaural := fun this => (Normal this, this).

Definition modify (f : PanBinaural -> PanBinaural) : Method unit :=
  fun this => (Normal tt, f this).

Declare Scope method_scope.
Delimit Scope method_scope with method.
Notation "x <- m ;; k" := (bind m (fun x => k))
  (at level 100, m at next level, right associativity) : method_scope.
Notation "m ;; k" := (bind m (fun _ => k))
  (at level 100, right associativity) : method_scope.
Local Open Scope method_scope.

(** [o.prop] for an [o] that is the value of [a[i]]: a [TypeError] when
    [a[i]] is [undefined]. *)
Definition defined {A} (o : option A) : Method A :=
  match o with
  | Some a => ret a
  | None => throw
  end.

(** [a[i]] for an [i] that holds an index or [undefined]. *)
Definition at_index {A} (a : list A) (i : option nat) : option A :=
  match i with
  | Some n => a !! n
  | None => None
  end.

(** [a[i]] for an [i] a caller passes: an integer out of the range of [a]
    reads [undefined]. *)
Definition at_Z {A} (a : list A) (i : Z) : option A :=
  if (0 <=? i)%Z then a !! Z.to_nat i else None.

(** The comparisons of the source, as booleans. *)
#[local] Instance Rle_decision (a b : R) : Decision (a <= b) := Rle_dec a b.
#[local] Instance Rge_decision (a b : R) : Decision (a >= b) := Rge_dec a b.
#[local] Instance Rlt_decision (a b : R) : Decision (a < b) := Rlt_dec a b.
#[local] Instance Rgt_decision (a b : R) : Decision (a > b) := Rgt_dec a b.

(** ** Geometry: [convertToMeters] ... [calculateAngle] *)

Definition convertToMeters (this : PanBinaural) (pixels : R) : R :=
  let meters := pixels / meterScale this in
  meters.

Definition convertToPixels (this : PanBinaural) (meters : R) : R :=
  let pixels := meters * meterScale this in
  pixels.

Definition polToCar (distance angleDeg : R) : XY.t :=
  let angleRad := angleDeg / 180 * PI in
  let newX := distance * cos angleRad in
  let newY := distance * sin angleRad in
  XY.new newX newY.

Definition calculateDistance (this : PanBinaural) (pointA pointB : Point.t) : R :=
  let distX := Point.x pointB - Point.x pointA in
  let distY := Point.y pointB - Point.y pointA in
  let lengthInPx := sqrt (distX * distX + distY * distY) in
  let lengthInM := convertToMeters this lengthInPx in
  lengthInM.

Definition calculateAngle (this : PanBinaural) (pointXY : Point.t) : R :=
  let realX := Point.x pointXY - circleCenterX this in
  let realY := Point.y pointXY - circleCenterY this in
  let angle := atan2 realY realX * 180 / PI in
  let angle := if bool_decide (angle < 0) then angle + 360 else angle in
  let angle := angle + 90 in
  let angle := if bool_decide (angle >= 360) then angle - 360 else angle in
  if angleRelativeToHead this then
    let angle := angle - headOrientation this in
    if bool_decide (angle < 0) then angle + 360 else angle
  else angle.

(** The adjustment [addNewPoint] and [moveExistingPoint] both start with:
    the angle turned by -90 degrees, converted, scaled to pixels and
    translated to the panel center. *)
Definition panelCoordinates (this : PanBinaural) (distance angle : R) : XY.t :=
  let angle := angle - 90 in
  let angle := if bool_decide (angle >= 360) then angle - 360 else angle in
  let tempPoint := polToCar distance angle in
  let x := convertToPixels this (XY.x tempPoint) in
  let y := convertToPixels this (XY.y tempPoint) in
  XY.new (x + circleCenterX this) (y + circleCenterY this).

(** ** The point store *)

(** [this.emit('change', transmitData)]. *)
Definition transmit (transmitData : TransmitData) : Method unit :=
  modify (fun this => set_emitted (emitted this ++ [transmitData]) this).

(** The test of the loop of [setActivePoint]. *)
Definition inBox (this : PanBinaural) (x y : R) (p : Point.t) : bool :=
  let maxX := Point.x p + nodeSize this in
  let minX := Point.x p - nodeSize this in
  let maxY := Point.y p + nodeSize this in
  let minY := Point.y p - nodeSize this in
  bool_decide (x <= maxX) && bool_decide (x >= minX)
  && bool_decide (y <= maxY) && bool_decide (y >= minY).

(** The loop of [setActivePoint] from index [i] on, [rest] being the points
    from [i] on and [temp] the variable of that name. *)
Fixpoint setActivePoint_loop (this : PanBinaural) (x y : R)
    (i : nat) (rest : list Point.t) (temp : option nat) : option nat :=
  match rest with
  | [] => temp
  | p :: rest' =>
      let temp := if inBox this x y p then Some i else temp in
      setActivePoint_loop this x y (S i) rest' temp
  end.

(** The index [setActivePoint] stores. *)
Definition hitTest (this : PanBinaural) (x y : R) : option nat :=
  setActivePoint_loop this x y 0%nat (val this) None.

Definition setActivePoint (x y : R) : Method unit :=
  modify (fun this => set_activePoint (hitTest this x y) this).

(** The coordinates [scaleNode] stores for a point at [(px, py)]. *)
Definition clipped (this : PanBinaural) (px py : R) : XY.t :=
  let clippedX := px in
  let clippedY := py in
  let distquad :=
    (clippedX - circleCenterX this) * (clippedX - circleCenterX this)
    + (clippedY - circleCenterY this) * (clippedY - circleCenterY this) in
  if bool_decide (distquad > bgRadius this * bgRadius this) then
    let realX := px - circleCenterX this in
    let realY := py - circleCenterY this in
    let angle := atan2 realY realX in
    let clippedX := bgRadius this * cos angle in
    let clippedY := bgRadius this * sin angle in
    XY.new (clippedX + circleCenterX this) (clippedY + circleCenterY this)
  else XY.new clippedX clippedY.

(** [this.val[i].x = vx; this.val[i].y = vy]. *)
Definition write_xy (i : option nat) (vx vy : R) : Method unit :=
  this <- get ;;
  p <- defined (at_index (val this) i) ;;
  match i with
  | Some n =>
      modify (set_val (<[n := Point.set_y vy (Point.set_x vx p)]> (val this)))
  | None => throw
  end.

Definition scaleNode : Method unit :=
  this <- get ;;
  match activePoint this with
  | Some i =>
      p <- defined (val this !! i) ;;
      let c := clipped this (Point.x p) (Point.y p) in
      write_xy (Some i) (XY.x c) (XY.y c)
  | None => ret tt
  end.

(** The loop of [processToTransmit] in mode 0 over the points [rest] still
    to visit, with the arrays [distances] and [angles] as filled so far. *)
Fixpoint processToTransmit_loop (this : PanBinaural) (rest : list Point.t)
    (distances angles : list R) : list R * list R :=
  match rest with
  | [] => (distances, angles)
  | p :: rest' =>
      let distances := distances ++ [calculateDistance this (listenerPoint this) p] in
      let angles := angles ++ [calculateAngle this p] in
      processToTransmit_loop this rest' distances angles
  end.

Definition processToTransmit : Method unit :=
  this <- get ;;
  if (transmitMode this =? 0)%Z then
    let '(distances, angles) := processToTransmit_loop this (val this) [] [] in
    transmit (AllPoints angles distances)
  else if (transmitMode this =? 1)%Z then
    match activePoint this with
    | Some i =>
        p <- defined (val this !! i) ;;
        let distance := calculateDistance this (listenerPoint this) p in
        let angle := calculateAngle this p in
        transmit (ActivePoint i angle distance)
    | None => ret tt
    end
  else transmit Undefined.

(** ** The visual primitives *)

(** [svg.create(..)]: a new element, not yet in the document. *)
Definition svg_create : Method nat :=
  this <- get ;;
  modify (set_nextId (S (nextId this))) ;;
  ret (nextId this).

(** [this.element.appendChild(e)]. *)
Definition appendChild (e : nat) : Method unit :=
  modify (fun this => set_element (element this ++ [e]) this).

(** [e.remove()]. *)
Definition remove (e : nat) : Method unit :=
  modify (fun this => set_element (filter (fun c => c <> e) (element this)) this).

(** [this.sourceElements[i].setAttribute(..)], the attribute and its value
    being given by [f]. *)
Definition source_setAttribute (i : option nat) (f : Circle.t -> Circle.t) : Method unit :=
  this <- get ;;
  e <- defined (at_index (sourceElements this) i) ;;
  match i with
  | Some n => modify (set_sourceElements (<[n := f e]> (sourceElements this)))
  | None => throw
  end.

Definition label_setAttribute (i : option nat) (f : Text.t -> Text.t) : Method unit :=
  this <- get ;;
  e <- defined (at_index (labelElements this) i) ;;
  match i with
  | Some n => modify (set_labelElements (<[n := f e]> (labelElements this)))
  | None => throw
  end.

(** [this.customColors[colorIndex]] as [setAttribute] writes it. *)
Definition customColor (this : PanBinaural) (colorIndex : Z) : string :=
  default "undefined"%string (at_Z (customColors this) colorIndex).

Definition drawEmphasisCircle : Method unit :=
  this <- get ;;
  source_setAttribute (activePoint this) (Circle.set_stroke (activeBorderColor this)) ;;
  modify (fun this =>
    set_sourceElements
      (imap (fun i e =>
               if bool_decide (Some i <> activePoint this)
               then Circle.set_stroke "none" e else e)
         (sourceElements this)) this).

Definition generateNewPoint (x y : R) (label : string) (colorIndex : Z) : Method unit :=
  modify (fun this => set_val (val this ++ [Point.new x y label colorIndex]) this) ;;
  setActivePoint x y ;;
  scaleNode ;;
  sourceElement <- svg_create ;;
  this <- get ;;
  p <- defined (at_index (val this) (activePoint this)) ;;
  let sourceElement :=
    Circle.new sourceElement (Point.x p) (Point.y p) (nodeSize this)
      "0.5" (customColor this colorIndex) "none" in
  labelElement <- svg_create ;;
  let labelElement :=
    Text.new labelElement (Point.x p) (Point.y p + nodeSize this + 20)
      "black" "middle" (Point.label p) in
  appendChild (Circle.eid sourceElement) ;;
  appendChild (Text.eid labelElement) ;;
  modify (fun this => set_sourceElements (sourceElements this ++ [sourceElement]) this) ;;
  modify (fun this => set_labelElements (labelElements this ++ [labelElement]) this).

(** ** Interaction: [click], [move], [release] *)

Definition render : Method unit := ret tt.

Definition move : Method unit :=
  this <- get ;;
  if clickable this then
    if clicked this then
      match activePoint this with
      | Some i =>
          write_xy (Some i) (XY.x (mouse this)) (XY.y (mouse this)) ;;
          scaleNode ;;
          drawEmphasisCircle ;;
          this <- get ;;
          p <- defined (val this !! i) ;;
          source_setAttribute (Some i) (Circle.set_cx (Point.x p)) ;;
          source_setAttribute (Some i) (Circle.set_cy (Point.y p)) ;;
          label_setAttribute (Some i) (Text.set_x (Point.x p)) ;;
          label_setAttribute (Some i) (Text.set_y (Point.y p + nodeSize this + 20))
      | None => ret tt
      end ;;
      processToTransmit ;;
      render
    else ret tt
  else ret tt.

(** ["Point " + n] for an array length [n]. *)
Definition pointLabel (n : nat) : string :=
  ("Point " ++ NilEmpty.string_of_uint (Nat.to_uint n))%string.

Definition click : Method unit :=
  this <- get ;;
  if clickable this then
    setActivePoint (XY.x (mouse this)) (XY.y (mouse this)) ;;
    this <- get ;;
    (if newPointsGeneratable this then
       match activePoint this with
       | None =>
           generateNewPoint (XY.x (mouse this)) (XY.y (mouse this))
             (pointLabel (length (val this) + 1)) (currentColorIndex this)
       | Some _ => ret tt
       end
     else ret tt) ;;
    scaleNode ;;
    processToTransmit ;;
    move
  else ret tt.

Definition release : Method unit :=
  this <- get ;;
  if clickable this then
    scaleNode ;;
    processToTransmit ;;
    render
  else ret tt.

(** ** The programmatic interface *)

Definition addNewPoint (distance angle : R) (label : string) (colorIndex : Z) : Method unit :=
  this <- get ;;
  let tempPoint := panelCoordinates this distance angle in
  generateNewPoint (XY.x tempPoint) (XY.y tempPoint) label colorIndex ;;
  drawEmphasisCircle.

Definition moveExistingPoint (pointIndex : Z) (distance angle : R) : Method unit :=
  this <- get ;;
  let newCoordinates := panelCoordinates this distance angle in
  p <- defined (at_Z (val this) pointIndex) ;;
  let i := Z.to_nat pointIndex in
  write_xy (Some i) (XY.x newCoordinates) (XY.y newCoordinates) ;;
  this <- get ;;
  p <- defined (val this !! i) ;;
  source_setAttribute (Some i) (Circle.set_cx (Point.x p)) ;;
  source_setAttribute (Some i) (Circle.set_cy (Point.y p)) ;;
  label_setAttribute (Some i) (Text.set_x (Point.x p)) ;;
  label_setAttribute (Some i) (Text.set_y (Point.y p + nodeSize this + 20)) ;;
  scaleNode.

Definition changeColorIndexOfActivePoint (colorIndex : Z) : Method unit :=
  this <- get ;;
  match activePoint this with
  | Some i =>
      p <- defined (val this !! i) ;;
      modify (set_val (<[i := Point.set_colorIndex colorIndex p]> (val this))) ;;
      source_setAttribute (Some i) (Circle.set_fill (customColor this colorIndex))
  | None => ret tt
  end.

Definition removeActivePoint : Method unit :=
  this <- get ;;
  match activePoint this with
  | Some i =>
      s <- defined (sourceElements this !! i) ;;
      remove (Circle.eid s) ;;
      modify (fun this => set_sourceElements (delete i (sourceElements this)) this) ;;
      l <- defined (labelElements this !! i) ;;
      remove (Text.eid l) ;;
      modify (fun this => set_labelElements (delete i (labelElements this)) this) ;;
      modify (fun this => set_val (delete i (val this)) this) ;;
      modify (set_activePoint None)
  | None => ret tt
  end.

(** The loop of [removeAllPoints] with [n] rounds left. *)
Fixpoint removeAllPoints_loop (n : nat) : Method unit :=
  match n with
  | O => ret tt
  | S n' =>
      modify (fun this => set_val (delete 0%nat (val this)) this) ;;
      this <- get ;;
      s <- defined (sourceElements this !! 0%nat) ;;
      remove (Circle.eid s) ;;
      modify (fun this => set_sourceElements (delete 0%nat (sourceElements this)) this) ;;
      this <- get ;;
      l <- defined (labelElements this !! 0%nat) ;;
      remove (Text.eid l) ;;
      modify (fun this => set_labelElements (delete 0%nat (labelElements this)) this) ;;
      removeAllPoints_loop n'
  end.

Definition removeAllPoints : Method unit :=
  this <- get ;;
  let numberOfPoints := length (val this) in
  removeAllPoints_loop numberOfPoints ;;
  modify (set_activePoint None).

(** ** Construction *)

(** [new PanBinaural(target, {size: [width, height]})], after [init] has run
    [buildInterface]: the two fixed circles are the first children of
    [this.element]. *)
Definition constructor (size : R * R) : PanBinaural :=
  let width := fst size in
  let height := snd size in
  let circleCenterX := width / 2 in
  let circleCenterY := height / 2 in
  let nodeSize := 30 in
  {| width := width;
     height := height;
     mouse := XY.new 0 0;
     clicked := false;
     element := [0%nat; 1%nat];
     emitted := [];
     nextId := 2%nat;
     activePoint := None;
     currentColorIndex := 0%Z;
     meterScale := 100;
     val := [];
     circleCenterX := circleCenterX;
     circleCenterY := circleCenterY;
     listenerPoint := Point.new circleCenterX circleCenterY "Listener" 0%Z;
     bgRadius := Rmin circleCenterX circleCenterY - 50;
     nodeSize := nodeSize;
     nodeSizeMain := nodeSize * (3 / 2);
     activeBorderColor := "#000";
     customColors := [ "#845ec2"; "#d65db1"; "#ff6f91"; "#ff9671";
                       "#ffc75f"; "#f9f871"; "#2f4858"; "#2e6775" ]%string;
     transmitMode := 1%Z;
     headOrientation := 0;
     angleRelativeToHead := false;
     clickable := true;
     newPointsGeneratable := true;
     backgroundCircle := 0%nat;
     listener := 1%nat;
     sourceElements := [];
     labelElements := [] |}.

(** The [defaults] of the constructor. *)
Definition defaults_size : R * R := (700, 700).

(** What the pointer events of the host do before they call [click] and
    [move]: store the pointer position, and whether the pointer is down. *)
Definition set_mouse (m : XY.t) (down : bool) (this : PanBinaural) : PanBinaural :=
  mkPanBinaural (width this) (height this) m down
    (element this) (emitted this) (nextId this) (activePoint this)
    (currentColorIndex this) (meterScale this) (val this)
    (circleCenterX this) (circleCenterY this) (listenerPoint this)
    (bgRadius this) (nodeSize this) (nodeSizeMain this)
    (activeBorderColor this) (customColors this) (transmitMode this)
    (headOrientation this) (angleRelativeToHead this) (clickable this)
    (newPointsGeneratable this) (backgroundCircle this) (listener this)
    (sourceElements this) (labelElements this).

(** Assignments a caller makes to the public settings. *)
Definition set_head (orientation : R) (relative : bool) (this : PanBinaural) : PanBinaural :=
  mkPanBinaural (width this) (height this) (mouse this) (clicked this)
    (element this) (emitted this) (nextId this) (activePoint this)
    (currentColorIndex this) (meterScale this) (val this)
    (circleCenterX this) (circleCenterY this) (listenerPoint this)
    (bgRadius this) (nodeSize this) (nodeSizeMain this)
    (activeBorderColor this) (customColors this) (transmitMode this)
    orientation relative (clickable this)
    (newPointsGeneratable this) (backgroundCircle this) (listener this)
    (sourceElements this) (labelElements this).

Definition set_transmitMode (mode : Z) (this : PanBinaural) : PanBinaural :=
  mkPanBinaural (width this) (height this) (mouse this) (clicked this)
    (element this) (emitted this) (nextId this) (activePoint this)
    (currentColorIndex this) (meterScale this) (val this)
    (circleCenterX this) (circleCenterY this) (listenerPoint this)
    (bgRadius this) (nodeSize this) (nodeSizeMain this)
    (activeBorderColor this) (customColors this) mode
    (headOrientation this) (angleRelativeToHead this) (clickable this)
    (newPointsGeneratable this) (backgroundCircle this) (listener this)
    (sourceElements this) (labelElements this).

(** The angle of a point before the head orientation is taken off: the
    [atan2] angle in degrees, turned by 90 degrees. *)
Definition screenAngle (this : PanBinaural) (pointXY : Point.t) : R :=
  atan2 (Point.y pointXY - circleCenterY this)
        (Point.x pointXY - circleCenterX this) * 180 / PI + 90.

(** ** Vocabulary of the properties *)

(** [(x, y)] lies in the square of half-width [nodeSize] centered on [p]. *)
Definition inSquare (this : PanBinaural) (x y : R) (p : Point.t) : Prop :=
  Rabs (x - Point.x p) <= nodeSize this /\ Rabs (y - Point.y p) <= nodeSize this.

(** The distance in pixels of [(px, py)] from the panel center. *)
Definition centerDistance (this : PanBinaural) (px py : R) : R :=
  sqrt ((px - circleCenterX this) * (px - circleCenterX this)
        + (py - circleCenterY this) * (py - circleCenterY this)).

(** The marker [s] and the label [l] are the ones of the point [p]: the
    label shows the name of the point and the marker has its color. *)
Definition paired (this : PanBinaural) (p : Point.t) (s : Circle.t) (l : Text.t) : Prop :=
  Text.textContent l = Point.label p
  /\ Circle.fill s = customColor this (Point.colorIndex p).

(** The points and their elements are kept in lockstep: the three arrays
    have one length, the elements at an index are the ones of the point at
    that index, and [this.element] has no child but the two fixed circles
    and the elements of the arrays. *)
Record lockstep (this : PanBinaural) : Prop := mkLockstep {
  lockstep_sources : length (sourceElements this) = length (val this);
  lockstep_labels : length (labelElements this) = length (val this);
  lockstep_paired :
    forall i p s l,
      val this !! i = Some p ->
      sourceElements this !! i = Some s ->
      labelElements this !! i = Some l ->
      paired this p s l;
  lockstep_children :
    forall e,
      e ∈ element this ->
      e = backgroundCircle this \/ e = listener this
      \/ e ∈ (Circle.eid <$> sourceElements this)
      \/ e ∈ (Text.eid <$> labelElements this)
}.

(** The active index, when there is one, is an index of [val]. *)
Definition activeInRange (this : PanBinaural) : Prop :=
  forall i, activePoint this = Some i -> (i < length (val this))%nat.

(** ** The widgets the methods leave *)

(** The data [processToTransmit] hands to [transmit], for a widget whose
    active point, if any, is a point of [val]. *)
Definition eventData (this : PanBinaural) : TransmitData :=
  if (transmitMode this =? 0)%Z then
    AllPoints (map (calculateAngle this) (val this))
      (map (calculateDistance this (listenerPoint this)) (val this))
  else if (transmitMode this =? 1)%Z then
    match at_index (val this) (activePoint this) with
    | Some p =>
        ActivePoint (default 0%nat (activePoint this)) (calculateAngle this p)
          (calculateDistance this (listenerPoint this) p)
    | None => Undefined
    end
  else Undefined.

(** The widget after one more [change] event. *)
Definition transmitted (this : PanBinaural) : PanBinaural :=
  set_emitted (emitted this ++ [eventData this]) this.

(** The widget [generateNewPoint (x, y, label, colorIndex)] leaves when the
    new point is the one hit at [(x, y)]: the point is stored clipped and
    active, and its two elements are the last children of [this.element]. *)
Definition generated (this : PanBinaural) (x y : R) (label : string)
    (colorIndex : Z) : PanBinaural :=
  let c := clipped this x y in
  let id := nextId this in
  set_labelElements
    (labelElements this ++
     [Text.new (S id) (XY.x c) (XY.y c + nodeSize this + 20) "black" "middle" label])
    (set_sourceElements
       (sourceElements this ++
        [Circle.new id (XY.x c) (XY.y c) (nodeSize this) "0.5"
           (customColor this colorIndex) "none"])
       (set_element (element this ++ [id; S id])
          (set_nextId (S (S id))
             (set_val (val this ++ [Point.new (XY.x c) (XY.y c) label colorIndex])
                (set_activePoint (Some (length (val this))) this))))).

(** The strokes [drawEmphasisCircle] leaves: the border color on the marker
    at [a], none on the others. *)
Definition emphasis (a : nat) (j : nat) (e : Circle.t) : Circle.t :=
  if bool_decide (Some j <> Some a) then Circle.set_stroke "none" e else e.

Definition emphasized (this : PanBinaural) (a : nat) (e : Circle.t) : PanBinaural :=
  set_sourceElements
    (imap (emphasis a)
       (<[a := Circle.set_stroke (activeBorderColor this) e]> (sourceElements this)))
    this.

(** The widget [addNewPoint] leaves, in a widget whose markers are as many
    as its points and whose [nodeSize] is not negative. *)
Definition added (this : PanBinaural) (distance angle : R) (label : string)
    (colorIndex : Z) : PanBinaural :=
  let xy := panelCoordinates this distance angle in
  let c := clipped this (XY.x xy) (XY.y xy) in
  emphasized (generated this (XY.x xy) (XY.y xy) label colorIndex)
    (length (val this))
    (Circle.new (nextId this) (XY.x c) (XY.y c) (nodeSize this) "0.5"
       (customColor this colorIndex) "none").

(** The widget after the statements of [move] on the active point at [i],
    [p], [s] and [l] being the point and its elements: the point is at the
    clipped pointer position, and its elements are moved there. *)
Definition moved (this : PanBinaural) (i : nat) (p : Point.t) (s : Circle.t)
    (l : Text.t) : PanBinaural :=
  let c := clipped this (XY.x (mouse this)) (XY.y (mouse this)) in
  let p' := Point.new (XY.x c) (XY.y c) (Point.label p) (Point.colorIndex p) in
  let s' :=
    Circle.set_cy (XY.y c)
      (Circle.set_cx (XY.x c) (Circle.set_stroke (activeBorderColor this) s)) in
  let l' := Text.set_y (XY.y c + nodeSize this + 20) (Text.set_x (XY.x c) l) in
  set_labelElements (<[i := l']> (labelElements this))
    (set_sourceElements (<[i := s']> (imap (emphasis i) (sourceElements this)))
       (set_val (<[i := p']> (val this)) this)).

(** The widget [moveExistingPoint] hands to its final [scaleNode]: the point
    at [i] and its elements are at the panel coordinates of the given
    distance and angle. *)
Definition movedTo (this : PanBinaural) (i : nat) (p : Point.t) (s : Circle.t)
    (l : Text.t) (distance angle : R) : PanBinaural :=
  let c := panelCoordinates this distance angle in
  let p' := Point.new (XY.x c) (XY.y c) (Point.label p) (Point.colorIndex p) in
  let s' := Circle.set_cy (XY.y c) (Circle.set_cx (XY.x c) s) in
  let l' := Text.set_y (XY.y c + nodeSize this + 20) (Text.set_x (XY.x c) l) in
  set_labelElements (<[i := l']> (labelElements this))
    (set_sourceElements (<[i := s']> (sourceElements this))
       (set_val (<[i := p']> (val this)) this)).

(** The widget [click] leaves when the pointer is down on the point [p] at
    [i], whose elements are [s] and [l]: the point is clipped and reported
    where it was, then moved to the pointer, clipped and reported again. *)
Definition clickedOn (this : PanBinaural) (i : nat) (p : Point.t) (s : Circle.t)
    (l : Text.t) : PanBinaural :=
  let c := clipped this (Point.x p) (Point.y p) in
  let p' := Point.new (XY.x c) (XY.y c) (Point.label p) (Point.colorIndex p) in
  let this' :=
    transmitted (set_val (<[i := p']> (val this)) (set_activePoint (Some i) this)) in
  transmitted (moved this' i p' s l).

(** The widget [removeActivePoint] leaves when the point at [i] is active
    and [s] and [l] are its elements. *)
Definition removed (this : PanBinaural) (i : nat) (s : Circle.t) (l : Text.t) : PanBinaural :=
  set_activePoint None
    (set_val (delete i (val this))
       (set_labelElements (delete i (labelElements this))
          (set_element
             (filter (fun c => c <> Text.eid l)
                (filter (fun c => c <> Circle.eid s) (element this)))
             (set_sourceElements (delete i (sourceElements this)) this)))).

(** ** The widgets a program can reach *)

(** Assignments a caller makes to the settings of the interaction. *)
Definition set_interaction (editable generatable : bool) (color : Z)
    (this : PanBinaural) : PanBinaural :=
  mkPanBinaural (width this) (height this) (mouse this) (clicked this)
    (element this) (emitted this) (nextId this) (activePoint this)
    color (meterScale this) (val this)
    (circleCenterX this) (circleCenterY this) (listenerPoint this)
    (bgRadius this) (nodeSize this) (nodeSizeMain this)
    (activeBorderColor this) (customColors this) (transmitMode this)
    (headOrientation this) (angleRelativeToHead this) editable
    generatable (backgroundCircle this) (listener this)
    (sourceElements this) (labelElements this).

(** The calls of the methods of the interface. *)
Inductive call : Type :=
  | Click
  | Move
  | Release
  | AddNewPoint (distance angle : R) (label : string) (colorIndex : Z)
  | MoveExistingPoint (pointIndex : Z) (distance angle : R)
  | ChangeColorIndexOfActivePoint (colorIndex : Z)
  | RemoveActivePoint
  | RemoveAllPoints.

Definition run (c : call) : Method unit :=
  match c with
  | Click => click
  | Move => move
  | Release => release
  | AddNewPoint distance angle label colorIndex =>
      addNewPoint distance angle label colorIndex
  | MoveExistingPoint pointIndex distance angle =>
      moveExistingPoint pointIndex distance angle
  | ChangeColorIndexOfActivePoint colorIndex =>
      changeColorIndexOfActivePoint colorIndex
  | RemoveActivePoint => removeActivePoint
  | RemoveAllPoints => removeAllPoints
  end.

(** The widget a sequence of calls leaves. *)
Definition run_all (calls : list call) (this : PanBinaural) : PanBinaural :=
  fold_left (fun this c => snd (run c this)) calls this.

(** The widgets reached from a new widget by pointer events, assignments to
    the settings and calls of the methods, whether the calls return or
    throw. *)
Inductive reachable : PanBinaural -> Prop :=
  | reach_new size : reachable (constructor size)
  | reach_mouse m down this :
      reachable this -> reachable (set_mouse m down this)
  | reach_head orientation relative this :
      reachable this -> reachable (set_head orientation relative this)
  | reach_transmitMode mode this :
      reachable this -> reachable (set_transmitMode mode this)
  | reach_interaction editable generatable color this :
      reachable this ->
      reachable (set_interaction editable generatable color this)
  | reach_call c this :
      reachable this -> reachable (snd (run c this)).

(** What the widget never changes after the construction, and what of the
    points and their elements only creation, removal and recoloring change. *)
Definition pointTag (p : Point.t) : string * Z := (Point.label p, Point.colorIndex p).
Definition circleTag (s : Circle.t) : nat * string := (Circle.eid s, Circle.fill s).
Definition textTag (l : Text.t) : nat * string := (Text.eid l, Text.textContent l).

Definition constants (this : PanBinaural) : R * R * Point.t * (R * R) * list string * (nat * nat) :=
  (nodeSize this, meterScale this, listenerPoint this,
   (circleCenterX this, circleCenterY this), customColors this,
   (backgroundCircle this, listener this)).

Definition skeleton (this : PanBinaural) :=
  (constants this, element this, pointTag <$> val this,
   circleTag <$> sourceElements this, textTag <$> labelElements this).

(** The invariant of the reachable widgets. *)
Record invariant (this : PanBinaural) : Prop := mkInvariant {
  inv_nodeSize : nodeSize this = 30;
  inv_meterScale : meterScale this = 100;
  inv_listener :
    Point.x (listenerPoint this) = circleCenterX this
    /\ Point.y (listenerPoint this) = circleCenterY this;
  inv_lockstep : lockstep this;
  inv_active : activeInRange this
}.

(** [m], run in a widget that satisfies [P], returns, and leaves a value and
    a widget that satisfy [Q]. *)
Definition returns {A} (P : PanBinaural -> Prop) (m : Method A)
    (Q : A -> PanBinaural -> Prop) : Prop :=
  forall this, P this -> exists a this', m this = (Normal a, this') /\ Q a this'.

(** The invariant holds, [a] is the active index and the skeleton is the one
    of [this0]. *)
Definition stable (a : option nat) (this0 this : PanBinaural) : Prop :=
  invariant this /\ activePoint this = a /\ skeleton this = skeleton this0.

(** ** Widgets the examples run on *)

(** The default panel after [addNewPoint(3, 90, "S1", 0)], which puts a
    point on the boundary circle, 300 pixels right of the center, with the
    pointer down 20 pixels further right. *)
Definition boundary_panel : PanBinaural :=
  set_mouse (XY.new 670 350) true
    (snd (run (AddNewPoint 3 90 "S1" 0) (constructor defaults_size))).


(** ** Vocabulary of the further properties *)

(** The settings and the geometry of the panel, with the pointer state the
    host keeps: the fields that no method assigns. *)
Definition settings (this : PanBinaural) :=
  (width this, height this, mouse this, clicked this, currentColorIndex this,
   meterScale this, (circleCenterX this, circleCenterY this),
   listenerPoint this, bgRadius this, (nodeSize this, nodeSizeMain this),
   activeBorderColor this, customColors this, transmitMode this,
   (headOrientation this, angleRelativeToHead this),
   (clickable this, newPointsGeneratable this),
   (backgroundCircle this, listener this)).

(** [m] leaves [f this] as it is, whether it returns or throws. *)
Definition keeps {T A} (f : PanBinaural -> T) (m : Method A) : Prop :=
  forall this, f (snd (m this)) = f this.

(** [m] emits at most [n] [change] events after the ones emitted before,
    whether it returns or throws. *)
Definition emits {A} (n : nat) (m : Method A) : Prop :=
  forall this, exists events,
    emitted (snd (m this)) = emitted this ++ events /\ (length events <= n)%nat.

(** The greatest number of [change] events a call emits. *)
Definition events_of (c : call) : nat :=
  match c with
  | Click => 2
  | Move | Release => 1
  | _ => 0
  end.


(** The active point, in a panel whose boundary radius is not negative, is
    not farther from the center than the boundary. *)
Definition activeClamped (this : PanBinaural) : Prop :=
  forall i p,
    activePoint this = Some i ->
    val this !! i = Some p ->
    0 <= bgRadius this ->
    centerDistance this (Point.x p) (Point.y p) <= bgRadius this.

(** What [activeClamped] depends on. *)
Definition placement (this : PanBinaural) :=
  (val this, activePoint this, (circleCenterX this, circleCenterY this),
   bgRadius this).

(** [stable], with the active point within the boundary. *)
Definition settled (a : option nat) (this0 this : PanBinaural) : Prop :=
  stable a this0 this /\ activeClamped this.


(** The elements of the widget: the two fixed circles, the markers and the
    labels. *)
Definition nodes (this : PanBinaural) : list nat :=
  [backgroundCircle this; listener this]
  ++ (Circle.eid <$> sourceElements this) ++ (Text.eid <$> labelElements this).

(** The elements of the widget are distinct, they are the children of
    [this.element], each one once, and [svg.create] has made all of them. *)
Record attached (this : PanBinaural) : Prop := mkAttached {
  attached_distinct : NoDup (nodes this);
  attached_children : element this ≡ₚ nodes this;
  attached_created : Forall (fun e => (e < nextId this)%nat) (nodes this)
}.

(** What [attached] depends on, besides [nextId]. *)
Definition family (this : PanBinaural) :=
  (element this, backgroundCircle this, listener this,
   Circle.eid <$> sourceElements this, Text.eid <$> labelElements this).

(** * Properties *)

(** ** [atan2] *)

Section Atan2.

Lemma atan_nonpos t : t <= 0 -> atan t <= 0.
Proof.
  intros [Hlt | ->].
  - left. rewrite <- atan_0. now apply atan_increasing.
  - rewrite atan_0. lra.
Qed.

Lemma atan_pos t : 0 < t -> 0 < atan t.
Proof. intros Ht. rewrite <- atan_0. now apply atan_increasing. Qed.

Lemma div_neg_nonneg y x : x < 0 -> 0 <= y -> y / x <= 0.
Proof.
  intros Hx Hy. unfold Rdiv.
  assert (/ x < 0) by now apply Rinv_lt_0_compat. nra.
Qed.

Lemma div_neg_neg y x : x < 0 -> y < 0 -> 0 < y / x.
Proof.
  intros Hx Hy. unfold Rdiv.
  assert (/ x < 0) by now apply Rinv_lt_0_compat. nra.
Qed.

(** The value of [atan2] is an angle in (-PI, PI]. *)
Lemma atan2_bound y x : - PI < atan2 y x <= PI.
Proof.
  pose proof PI_RGT_0 as HPI. unfold atan2.
  destruct (Rlt_dec 0 x) as [Hx | Hx].
  { pose proof (atan_bound (y / x)). lra. }
  destruct (Rlt_dec x 0) as [Hx' | Hx'].
  { pose proof (atan_bound (y / x)) as Hb.
    destruct (Rle_dec 0 y) as [Hy | Hy].
    - pose proof (atan_nonpos _ (div_neg_nonneg y x Hx' Hy)). lra.
    - assert (0 < y / x) as Hq by (apply div_neg_neg; lra).
      pose proof (atan_pos _ Hq). lra. }
  destruct (Rlt_dec 0 y); [lra |].
  destruct (Rlt_dec y 0); lra.
Qed.

(** [atan2] only depends on the direction of the vector. *)
Lemma atan2_scale k y x : 0 < k -> atan2 (k * y) (k * x) = atan2 y x.
Proof.
  intros Hk. unfold atan2.
  destruct (Rlt_dec 0 x) as [Hx | Hx].
  { destruct (Rlt_dec 0 (k * x)) as [_ | Hn]; [| exfalso; nra].
    f_equal. field. lra. }
  destruct (Rlt_dec 0 (k * x)) as [Hp | _]; [exfalso; nra |].
  destruct (Rlt_dec x 0) as [Hx' | Hx'].
  { destruct (Rlt_dec (k * x) 0) as [_ | Hn]; [| exfalso; nra].
    assert (k * y / (k * x) = y / x) as -> by (field; lra).
    destruct (Rle_dec 0 y), (Rle_dec 0 (k * y)); try reflexivity; exfalso; nra. }
  destruct (Rlt_dec (k * x) 0) as [Hp | _]; [exfalso; nra |].
  destruct (Rlt_dec 0 y), (Rlt_dec 0 (k * y)); try reflexivity; try (exfalso; nra).
  destruct (Rlt_dec y 0), (Rlt_dec (k * y) 0); try reflexivity; exfalso; nra.
Qed.

Lemma atan2_0_0 : atan2 0 0 = 0.
Proof.
  unfold atan2.
  destruct (Rlt_dec 0 0); [lra |]. reflexivity.
Qed.

(** On the positive x axis the angle is 0. *)
Lemma atan2_0_pos x : 0 < x -> atan2 0 x = 0.
Proof.
  intros Hx. unfold atan2.
  destruct (Rlt_dec 0 x); [| lra].
  unfold Rdiv. rewrite Rmult_0_l. apply atan_0.
Qed.

(** On the negative y axis (up on the screen) the angle is -PI/2. *)
Lemma atan2_neg_0 y : y < 0 -> atan2 y 0 = - (PI / 2).
Proof.
  intros Hy. unfold atan2.
  destruct (Rlt_dec 0 0); [lra |].
  destruct (Rlt_dec 0 y); [lra |].
  destruct (Rlt_dec y 0); [reflexivity | lra].
Qed.

Lemma norm_pos x y : x <> 0 \/ y <> 0 -> 0 < sqrt (x * x + y * y).
Proof. intros H. apply sqrt_lt_R0. destruct H; nra. Qed.

Lemma sqrt_atan_arg x y :
  x <> 0 -> sqrt (1 + (y / x)²) = sqrt (x * x + y * y) / Rabs x.
Proof.
  intros Hx.
  assert (0 < Rabs x) as Ha by now apply Rabs_pos_lt.
  assert (0 < sqrt (x * x + y * y)) as Hr by (apply norm_pos; now left).
  apply sqrt_lem_1.
  - unfold Rsqr. nra.
  - apply Rlt_le, Rdiv_lt_0_compat; assumption.
  - assert (sqrt (x * x + y * y) * sqrt (x * x + y * y) = x * x + y * y) as Hs
      by (apply sqrt_sqrt; nra).
    assert (Rabs x * Rabs x = x * x) as Hq
      by (unfold Rabs; destruct (Rcase_abs x); ring).
    unfold Rsqr.
    transitivity ((sqrt (x * x + y * y) * sqrt (x * x + y * y)) / (Rabs x * Rabs x)).
    + field. lra.
    + rewrite Hs, Hq. field. exact Hx.
Qed.

(** The unit vector of the angle [atan2 y x] is the vector (x, y) scaled to
    length 1. *)
Lemma cos_sin_atan2 x y :
  x <> 0 \/ y <> 0 ->
  cos (atan2 y x) = x / sqrt (x * x + y * y)
  /\ sin (atan2 y x) = y / sqrt (x * x + y * y).
Proof.
  intros Hxy.
  pose proof (norm_pos x y Hxy) as Hr.
  set (n := sqrt (x * x + y * y)) in *.
  unfold atan2.
  destruct (Rlt_dec 0 x) as [Hx | Hx].
  { rewrite cos_atan, sin_atan, sqrt_atan_arg by lra. fold n.
    rewrite Rabs_pos_eq by lra. split; field; lra. }
  destruct (Rlt_dec x 0) as [Hx' | Hx'].
  { assert (Rabs x = - x) as Ha by (apply Rabs_left; lra).
    destruct (Rle_dec 0 y) as [Hy | Hy].
    - rewrite neg_cos, neg_sin, cos_atan, sin_atan, sqrt_atan_arg by lra.
      fold n. rewrite Ha. split; field; lra.
    - replace (atan (y / x) - PI) with (- (- atan (y / x) + PI)) by ring.
      rewrite cos_neg, sin_neg, neg_cos, neg_sin, cos_neg, sin_neg.
      rewrite cos_atan, sin_atan, sqrt_atan_arg by lra.
      fold n. rewrite Ha. split; field; lra. }
  assert (x = 0) as -> by lra.
  assert (forall v, 0 < v -> sqrt (0 * 0 + v * v) = v) as Hsq.
  { intros v Hv. replace (0 * 0 + v * v) with (v * v) by ring.
    apply sqrt_square. lra. }
  destruct (Rlt_dec 0 y) as [Hy | Hy].
  { unfold n. rewrite cos_PI2, sin_PI2, Hsq by lra. split; field; lra. }
  destruct (Rlt_dec y 0) as [Hy' | Hy'].
  { rewrite cos_neg, sin_neg, cos_PI2, sin_PI2. unfold n.
    replace (0 * 0 + y * y) with (0 * 0 + (- y) * (- y)) by ring.
    rewrite Hsq by lra. split; field; lra. }
  exfalso. destruct Hxy as [H | H]; [now apply H | apply H; lra].
Qed.

Lemma tan_shift t : cos t <> 0 -> tan (t + PI) = tan t.
Proof.
  intros Hc. unfold tan. rewrite neg_sin, neg_cos. field. exact Hc.
Qed.

(** [atan2] recovers an angle of (-PI, PI] from its unit vector. *)
Lemma atan2_sin_cos t : - PI < t <= PI -> atan2 (sin t) (cos t) = t.
Proof.
  intros [Hlo Hhi]. pose proof PI_RGT_0 as HPI. unfold atan2.
  destruct (Rlt_dec t (- (PI / 2))) as [Hq3 | Hq3].
  { (* -PI < t < -PI/2 *)
    assert (cos t < 0) as Hc
      by (rewrite <- cos_neg; apply cos_lt_0; lra).
    assert (sin t < 0) as Hs by (apply sin_lt_0_var; lra).
    destruct (Rlt_dec 0 (cos t)); [lra |].
    destruct (Rlt_dec (cos t) 0); [| lra].
    destruct (Rle_dec 0 (sin t)); [lra |].
    change (sin t / cos t) with (tan t).
    rewrite <- tan_shift by lra. rewrite atan_tan by lra. ring. }
  destruct (Req_dec t (- (PI / 2))) as [-> | Hne].
  { rewrite cos_neg, sin_neg, cos_PI2, sin_PI2.
    repeat match goal with
           | |- context [Rlt_dec ?a ?b] => destruct (Rlt_dec a b); try lra
           end. }
  destruct (Rlt_dec t (PI / 2)) as [Hq1 | Hq1].
  { (* -PI/2 < t < PI/2 *)
    assert (0 < cos t) as Hc by (apply cos_gt_0; lra).
    destruct (Rlt_dec 0 (cos t)); [| lra].
    change (sin t / cos t) with (tan t). apply atan_tan. lra. }
  destruct (Req_dec t (PI / 2)) as [-> | Hne'].
  { rewrite cos_PI2, sin_PI2.
    destruct (Rlt_dec 0 0); [lra |].
    destruct (Rlt_dec 0 1); [reflexivity | lra]. }
  (* PI/2 < t <= PI *)
  assert (cos t < 0) as Hc by (apply cos_lt_0; lra).
  assert (0 <= sin t) as Hs by (apply sin_ge_0; lra).
  destruct (Rlt_dec 0 (cos t)); [lra |].
  destruct (Rlt_dec (cos t) 0); [| lra].
  destruct (Rle_dec 0 (sin t)); [| lra].
  change (sin t / cos t) with (tan t).
  replace t with ((t - PI) + PI) at 1 by ring.
  rewrite tan_shift.
  - rewrite atan_tan by lra. ring.
  - replace (t - PI) with (- (- t + PI)) by ring.
    rewrite cos_neg, neg_cos, cos_neg. lra.
Qed.

Lemma atan2_polar r t :
  0 < r -> - PI < t <= PI -> atan2 (r * sin t) (r * cos t) = t.
Proof.
  intros Hr Ht. rewrite atan2_scale by assumption. now apply atan2_sin_cos.
Qed.

(** The angle in degrees lies in (-180, 180]. *)
Lemma atan2_degrees y x : - 180 < atan2 y x * 180 / PI <= 180.
Proof.
  pose proof PI_RGT_0 as HPI. pose proof (atan2_bound y x) as [Hlo Hhi].
  assert (0 < / PI) as Hi by now apply Rinv_0_lt_compat.
  assert (PI * / PI = 1) as H1 by (apply Rinv_r; lra).
  unfold Rdiv. split; nra.
Qed.

End Atan2.

(** ** [calculateAngle] *)

Lemma atan2_0_neg x : x < 0 -> atan2 0 x = PI.
Proof.
  intros Hx. unfold atan2.
  destruct (Rlt_dec 0 x); [lra |].
  destruct (Rlt_dec x 0); [| lra].
  destruct (Rle_dec 0 0); [| lra].
  unfold Rdiv. rewrite Rmult_0_l, atan_0. ring.
Qed.

Lemma PI_degrees : PI * 180 / PI = 180.
Proof. pose proof PI_RGT_0. field. lra. Qed.




(** ** [processToTransmit] *)

Lemma processToTransmit_loop_map this rest distances angles :
  processToTransmit_loop this rest distances angles =
  (distances ++ map (calculateDistance this (listenerPoint this)) rest,
   angles ++ map (calculateAngle this) rest).
Proof.
  revert distances angles.
  induction rest as [| p rest IH]; intros distances angles; simpl.
  - now rewrite !app_nil_r.
  - rewrite IH, <- !app_assoc. reflexivity.
Qed.



(** In transmit mode 1 nothing is emitted when no point is active, and
    otherwise the data of the active point. *)
Lemma processToTransmit_mode1 this :
  transmitMode this = 1%Z ->
  match activePoint this with
  | None => processToTransmit this = (Normal tt, this)
  | Some i =>
      forall p,
        val this !! i = Some p ->
        processToTransmit this =
        (Normal tt,
         set_emitted
           (emitted this ++
            [ActivePoint i (calculateAngle this p)
               (calculateDistance this (listenerPoint this) p)]) this)
  end.
Proof.
  intros Hmode. unfold processToTransmit, bind, get. rewrite Hmode. simpl.
  destruct (activePoint this) as [i |]; [| reflexivity].
  intros p Hp. rewrite Hp. reflexivity.
Qed.

(** ** [setActivePoint] *)

Lemma inBox_inSquare this x y p :
  inBox this x y p = true <-> inSquare this x y p.
Proof.
  unfold inBox, inSquare.
  rewrite !andb_true_iff, !bool_decide_eq_true.
  split.
  - intros [[[H1 H2] H3] H4]. split; apply Rabs_le; lra.
  - intros [H1 H2]. revert H1 H2. unfold Rabs.
    destruct (Rcase_abs (x - Point.x p)), (Rcase_abs (y - Point.y p));
      intros H1 H2; repeat split; lra.
Qed.

(** What the loop leaves in [temp]: the value it started with when no point
    of [rest] is hit, and otherwise the index of the last point hit. *)
Lemma setActivePoint_loop_spec this x y rest :
  forall i temp,
    (setActivePoint_loop this x y i rest temp = temp
     /\ forall n q, rest !! n = Some q -> inBox this x y q = false)
    \/ exists n p,
         setActivePoint_loop this x y i rest temp = Some (i + n)%nat
         /\ rest !! n = Some p
         /\ inBox this x y p = true
         /\ forall m q, (n < m)%nat -> rest !! m = Some q -> inBox this x y q = false.
Proof.
  induction rest as [| p rest IH]; intros i temp; simpl.
  - left. split; [reflexivity |]. intros n q Hq. discriminate.
  - destruct (IH (S i) (if inBox this x y p then Some i else temp))
      as [[Heq Hnone] | (n & q & Heq & Hq & Hin & Hafter)].
    + destruct (inBox this x y p) eqn:Hp.
      * right. exists 0%nat, p. rewrite Heq, Nat.add_0_r.
        repeat split; [assumption |].
        intros [| m] q' Hm Hq'; [lia |]. now apply (Hnone m).
      * left. split; [exact Heq |].
        intros [| n] q Hq; simpl in Hq; [| now apply (Hnone n)].
        now inversion Hq; subst.
    + right. exists (S n), q. rewrite Heq.
      replace (S i + n)%nat with (i + S n)%nat by lia.
      repeat split; try assumption.
      intros [| m] q' Hm Hq'; [lia |]. apply (Hafter m); [lia | exact Hq'].
Qed.

Lemma hitTest_cases this x y :
  (hitTest this x y = None
   /\ forall n q, val this !! n = Some q -> inBox this x y q = false)
  \/ exists n p,
       hitTest this x y = Some n
       /\ val this !! n = Some p
       /\ inBox this x y p = true
       /\ forall m q, (n < m)%nat -> val this !! m = Some q -> inBox this x y q = false.
Proof.
  unfold hitTest.
  destruct (setActivePoint_loop_spec this x y (val this) 0%nat None)
    as [H | (n & p & H)]; [now left | right].
  exists n, p. exact H.
Qed.

(** The loop reads [this] for [nodeSize] only. *)
Lemma setActivePoint_loop_ext this this' x y rest :
  nodeSize this' = nodeSize this ->
  forall i temp,
    setActivePoint_loop this' x y i rest temp =
    setActivePoint_loop this x y i rest temp.
Proof.
  intros Hn. induction rest as [| p rest IH]; intros i temp; simpl.
  - reflexivity.
  - assert (inBox this' x y p = inBox this x y p) as ->
      by (unfold inBox; now rewrite Hn).
    apply IH.
Qed.

Lemma hitTest_ext this this' x y :
  nodeSize this' = nodeSize this -> val this' = val this ->
  hitTest this' x y = hitTest this x y.
Proof.
  intros Hn Hv. unfold hitTest. rewrite Hv. now apply setActivePoint_loop_ext.
Qed.

(** C6: [setActivePoint] stores the highest index whose point has [(x, y)]
    in its square of half-width [nodeSize], and [undefined] when there is no
    such point; calling it again on the state it left stores the same
    index. *)
Theorem setActivePoint_highest_hit this x y :
  setActivePoint x y this = (Normal tt, set_activePoint (hitTest this x y) this)
  /\ (forall i,
        hitTest this x y = Some i <->
        (exists p, val this !! i = Some p /\ inSquare this x y p)
        /\ forall j q, (i < j)%nat -> val this !! j = Some q -> ~ inSquare this x y q)
  /\ (hitTest this x y = None <->
      forall j q, val this !! j = Some q -> ~ inSquare this x y q)
  /\ (setActivePoint x y ;; setActivePoint x y) this = setActivePoint x y this.
Proof.
  split; [reflexivity |].
  assert (forall q, inBox this x y q = false <-> ~ inSquare this x y q) as Hneg.
  { intros q. rewrite <- inBox_inSquare. destruct (inBox this x y q); split; intros H;
      try reflexivity; try discriminate.
    - now exfalso; apply H. }
  split; [| split].
  - intros i. split.
    + intros Hi.
      destruct (hitTest_cases this x y) as [[Hn _] | (n & p & Hn & Hp & Hin & Hafter)];
        [congruence |].
      assert (n = i) as -> by congruence.
      split.
      * exists p. split; [exact Hp | now apply inBox_inSquare].
      * intros j q Hj Hq. apply Hneg. now apply (Hafter j).
    + intros [(p & Hp & Hin) Hafter].
      apply inBox_inSquare in Hin.
      destruct (hitTest_cases this x y) as [[Hn Hnone] | (n & q & Hn & Hq & Hqin & Hqafter)].
      * rewrite (Hnone i p Hp) in Hin. discriminate.
      * rewrite Hn. f_equal.
        destruct (Nat.lt_trichotomy n i) as [Hlt | [Heq | Hgt]]; [| exact Heq |].
        -- rewrite (Hqafter i p Hlt Hp) in Hin. discriminate.
        -- exfalso. apply (Hafter n q Hgt Hq). now apply inBox_inSquare.
  - split.
    + intros Hnone j q Hq.
      destruct (hitTest_cases this x y) as [[_ Hall] | (n & p & Hn & _)]; [| congruence].
      apply Hneg. now apply (Hall j).
    + intros Hall.
      destruct (hitTest_cases this x y) as [[Hn _] | (n & p & Hn & Hp & Hin & _)];
        [exact Hn |].
      exfalso. apply (Hall n p Hp). now apply inBox_inSquare.
  - unfold setActivePoint, bind, modify.
    rewrite (hitTest_ext this (set_activePoint (hitTest this x y) this)) by reflexivity.
    reflexivity.
Qed.

(** ** Running the methods *)

Lemma bind_normal {A B} (m : Method A) (k : A -> Method B) this a this' :
  m this = (Normal a, this') -> bind m k this = k a this'.
Proof. intros H. unfold bind. now rewrite H. Qed.

Lemma bind_throw {A B} (m : Method A) (k : A -> Method B) this this' :
  m this = (TypeError, this') -> bind m k this = (TypeError, this').
Proof. intros H. unfold bind. now rewrite H. Qed.

Lemma write_xy_run this i p vx vy :
  val this !! i = Some p ->
  write_xy (Some i) vx vy this =
  (Normal tt, set_val (<[i := Point.set_y vy (Point.set_x vx p)]> (val this)) this).
Proof.
  intros Hp. unfold write_xy, bind, get, at_index. rewrite Hp. reflexivity.
Qed.

Lemma scaleNode_none this :
  activePoint this = None -> scaleNode this = (Normal tt, this).
Proof. intros Ha. unfold scaleNode, bind, get. now rewrite Ha. Qed.

(** The point [scaleNode] stores in place of [p]. *)
Lemma scaleNode_run this i p :
  activePoint this = Some i ->
  val this !! i = Some p ->
  scaleNode this =
  (Normal tt,
   set_val
     (<[i := Point.new (XY.x (clipped this (Point.x p) (Point.y p)))
                       (XY.y (clipped this (Point.x p) (Point.y p)))
                       (Point.label p) (Point.colorIndex p)]> (val this)) this).
Proof.
  intros Ha Hp. unfold scaleNode.
  rewrite (bind_normal get _ this this this) by reflexivity.
  rewrite Ha.
  rewrite (bind_normal _ _ this p this) by (now rewrite Hp).
  now rewrite (write_xy_run this i p).
Qed.

(** ** [scaleNode] *)

Lemma clipped_inside this px py :
  ~ (px - circleCenterX this) * (px - circleCenterX this)
    + (py - circleCenterY this) * (py - circleCenterY this)
    > bgRadius this * bgRadius this ->
  clipped this px py = XY.new px py.
Proof.
  intros H. unfold clipped. now rewrite bool_decide_eq_false_2.
Qed.

Lemma clipped_outside this px py :
  (px - circleCenterX this) * (px - circleCenterX this)
  + (py - circleCenterY this) * (py - circleCenterY this)
  > bgRadius this * bgRadius this ->
  clipped this px py =
  XY.new
    (bgRadius this * cos (atan2 (py - circleCenterY this) (px - circleCenterX this))
     + circleCenterX this)
    (bgRadius this * sin (atan2 (py - circleCenterY this) (px - circleCenterX this))
     + circleCenterY this).
Proof.
  intros H. unfold clipped. now rewrite bool_decide_eq_true_2.
Qed.

(** A clipped point is within the boundary radius of the center, when that
    radius is not negative. *)
Lemma clipped_distance this px py :
  0 <= bgRadius this ->
  centerDistance this (XY.x (clipped this px py)) (XY.y (clipped this px py))
  <= bgRadius this.
Proof.
  intros Hr. unfold centerDistance.
  destruct (Rgt_dec ((px - circleCenterX this) * (px - circleCenterX this)
                     + (py - circleCenterY this) * (py - circleCenterY this))
                    (bgRadius this * bgRadius this)) as [Hout | Hin].
  - rewrite clipped_outside by exact Hout. simpl.
    set (a := atan2 _ _).
    pose proof (sin2_cos2 a) as Hsc. unfold Rsqr in Hsc.
    match goal with
    | |- sqrt ?e <= _ =>
        replace e with (bgRadius this * bgRadius this)
    end.
    + rewrite sqrt_square by exact Hr. lra.
    + transitivity (bgRadius this * bgRadius this * (sin a * sin a + cos a * cos a)).
      * rewrite Hsc. ring.
      * ring.
  - rewrite clipped_inside by exact Hin. simpl.
    apply Rnot_gt_le in Hin.
    apply Rle_trans with (sqrt (bgRadius this * bgRadius this)).
    + apply sqrt_le_1; [| apply Rle_0_sqr | exact Hin].
      apply Rplus_le_le_0_compat; apply Rle_0_sqr.
    + rewrite sqrt_square by exact Hr. lra.
Qed.


(** A point that is clipped moves along its direction from the center. *)
Lemma clipped_direction this px py :
  0 <= bgRadius this ->
  (px - circleCenterX this) * (px - circleCenterX this)
  + (py - circleCenterY this) * (py - circleCenterY this)
  > bgRadius this * bgRadius this ->
  let k := bgRadius this / centerDistance this px py in
  0 < centerDistance this px py
  /\ bgRadius this < centerDistance this px py
  /\ XY.x (clipped this px py) - circleCenterX this = k * (px - circleCenterX this)
  /\ XY.y (clipped this px py) - circleCenterY this = k * (py - circleCenterY this).
Proof.
  intros Hr Hout k.
  assert (px - circleCenterX this <> 0 \/ py - circleCenterY this <> 0) as Hnz.
  { destruct (Req_dec (px - circleCenterX this) 0) as [Hx | Hx]; [| now left].
    right. intros Hy. rewrite Hx, Hy in Hout. nra. }
  pose proof (norm_pos _ _ Hnz) as Hn.
  destruct (cos_sin_atan2 _ _ Hnz) as [Hcos Hsin].
  rewrite clipped_outside by exact Hout. simpl.
  rewrite Hcos, Hsin. subst k. unfold centerDistance.
  split; [exact Hn |]. split.
  - rewrite <- (sqrt_square (bgRadius this)) by exact Hr.
    apply sqrt_lt_1; nra.
  - split; field; lra.
Qed.

(** The angle of a point that is clipped to a positive radius is the angle
    it had. *)
Lemma clipped_angle this px py l c l' c' :
  0 < bgRadius this ->
  calculateAngle this
    (Point.new (XY.x (clipped this px py)) (XY.y (clipped this px py)) l c)
  = calculateAngle this (Point.new px py l' c').
Proof.
  intros Hr.
  destruct (Rgt_dec ((px - circleCenterX this) * (px - circleCenterX this)
                     + (py - circleCenterY this) * (py - circleCenterY this))
                    (bgRadius this * bgRadius this)) as [Hout | Hin];
    [| now rewrite clipped_inside by exact Hin].
  destruct (clipped_direction this px py (Rlt_le _ _ Hr) Hout) as (Hd & _ & Hx & Hy).
  unfold calculateAngle. simpl. rewrite Hx, Hy.
  rewrite atan2_scale; [reflexivity |].
  now apply Rdiv_lt_0_compat.
Qed.

(** With a boundary radius of 0 every point is clipped to the center, and
    the angle of the center is read as 90 degrees. *)
Lemma clipped_zero_radius this px py :
  bgRadius this = 0 ->
  clipped this px py = XY.new (circleCenterX this) (circleCenterY this).
Proof.
  intros Hr.
  destruct (Rgt_dec ((px - circleCenterX this) * (px - circleCenterX this)
                     + (py - circleCenterY this) * (py - circleCenterY this))
                    (bgRadius this * bgRadius this)) as [Hout | Hin].
  - rewrite clipped_outside by exact Hout. rewrite Hr. f_equal; ring.
  - rewrite clipped_inside by exact Hin. apply Rnot_gt_le in Hin.
    rewrite Hr, Rmult_0_l in Hin.
    pose proof (Rle_0_sqr (px - circleCenterX this)) as Hx.
    pose proof (Rle_0_sqr (py - circleCenterY this)) as Hy.
    unfold Rsqr in Hx, Hy.
    assert ((px - circleCenterX this) * (px - circleCenterX this) = 0) as Hx0 by lra.
    assert ((py - circleCenterY this) * (py - circleCenterY this) = 0) as Hy0 by lra.
    apply Rmult_integral in Hx0, Hy0.
    f_equal; [destruct Hx0 | destruct Hy0]; lra.
Qed.

Lemma calculateAngle_center this label colorIndex :
  angleRelativeToHead this = false ->
  calculateAngle this
    (Point.new (circleCenterX this) (circleCenterY this) label colorIndex) = 90.
Proof.
  intros Hrel. unfold calculateAngle. cbn [Point.x Point.y]. rewrite Hrel.
  unfold Rminus. rewrite !Rplus_opp_r, atan2_0_0.
  replace (0 * 180 / PI) with 0 by (unfold Rdiv; ring).
  repeat case_bool_decide; lra.
Qed.


Lemma bgRadius_default : bgRadius (constructor defaults_size) = 300.
Proof.
  unfold constructor, defaults_size. simpl.
  unfold Rmin. destruct (Rle_dec (700 / 2) (700 / 2)); lra.
Qed.

(** ** [generateNewPoint] *)

Lemma hitTest_highest this x y i p :
  val this !! i = Some p ->
  inBox this x y p = true ->
  (forall j q, (i < j)%nat -> val this !! j = Some q -> inBox this x y q = false) ->
  hitTest this x y = Some i.
Proof.
  intros Hp Hin Hafter.
  destruct (hitTest_cases this x y) as [[Hn Hnone] | (n & q & Hn & Hq & Hqin & Hqafter)].
  - rewrite (Hnone i p Hp) in Hin. discriminate.
  - rewrite Hn. f_equal.
    destruct (Nat.lt_trichotomy n i) as [Hlt | [Heq | Hgt]]; [| exact Heq |].
    + rewrite (Hqafter i p Hlt Hp) in Hin. discriminate.
    + rewrite (Hafter n q Hgt Hq) in Hqin. discriminate.
Qed.

(** A point is in its own box when [nodeSize] is not negative. *)
Lemma inBox_self this p :
  0 <= nodeSize this -> inBox this (Point.x p) (Point.y p) p = true.
Proof.
  intros Hn. unfold inBox.
  rewrite !andb_true_iff, !bool_decide_eq_true. repeat split; lra.
Qed.

(** The point just pushed is the one [setActivePoint] finds at its place. *)
Lemma hitTest_pushed this x y label colorIndex :
  0 <= nodeSize this ->
  hitTest (set_val (val this ++ [Point.new x y label colorIndex]) this) x y
  = Some (length (val this)).
Proof.
  intros Hn.
  apply (hitTest_highest _ x y _ (Point.new x y label colorIndex)).
  - simpl. apply list_lookup_middle. reflexivity.
  - apply (inBox_self _ (Point.new x y label colorIndex)). exact Hn.
  - intros j q Hj Hq. simpl in Hq.
    apply lookup_lt_Some in Hq. rewrite length_app in Hq. simpl in Hq. lia.
Qed.

Lemma insert_last {A} (l : list A) (a b : A) :
  <[length l := b]> (l ++ [a]) = l ++ [b].
Proof.
  rewrite insert_app_r_alt by lia. now rewrite Nat.sub_diag.
Qed.

Lemma generateNewPoint_run this x y label colorIndex :
  0 <= nodeSize this ->
  generateNewPoint x y label colorIndex this =
  (Normal tt, generated this x y label colorIndex).
Proof.
  intros Hn. unfold generateNewPoint.
  erewrite bind_normal by reflexivity.
  erewrite bind_normal by reflexivity.
  rewrite (hitTest_pushed this x y label colorIndex Hn).
  erewrite bind_normal.
  2:{ apply (scaleNode_run _ (length (val this)) (Point.new x y label colorIndex)).
      - reflexivity.
      - simpl. apply list_lookup_middle. reflexivity. }
  simpl.
  rewrite insert_last.
  change (clipped (set_activePoint _ _) x y) with (clipped this x y).
  unfold bind, svg_create, get, modify, ret, appendChild, defined, at_index. simpl.
  rewrite list_lookup_middle by reflexivity. simpl.
  unfold generated. simpl.
  rewrite <- app_assoc. reflexivity.
Qed.

(** ** The lockstep of points and elements *)

Lemma lockstep_constructor size : lockstep (constructor size).
Proof.
  split; simpl; try reflexivity.
  - intros i p s l Hp. discriminate.
  - intros e He. apply elem_of_cons in He as [-> | He]; [now left |].
    apply elem_of_cons in He as [-> | He]; [now right; left |].
    now apply elem_of_nil in He.
Qed.

Lemma lookup_snoc_Some {A} (l : list A) (a b : A) i :
  (l ++ [a]) !! i = Some b ->
  l !! i = Some b \/ (i = length l /\ b = a).
Proof.
  intros H. apply lookup_app_Some in H as [H | [Hi H]]; [now left | right].
  destruct (i - length l)%nat as [| k] eqn:Hk; simpl in H; [| discriminate].
  split; [lia | congruence].
Qed.

Lemma generated_lockstep this x y label colorIndex :
  lockstep this -> lockstep (generated this x y label colorIndex).
Proof.
  intros [Hs Hl Hp Hc]. split; simpl.
  - rewrite !length_app, Hs. reflexivity.
  - rewrite !length_app, Hl. reflexivity.
  - intros i p s l Hpi Hsi Hli.
    apply lookup_snoc_Some in Hpi as [Hpi | [Hi ->]].
    + pose proof (lookup_lt_Some _ _ _ Hpi) as Hlt.
      rewrite lookup_app_l in Hsi by lia.
      rewrite lookup_app_l in Hli by lia.
      apply (Hp i p s l Hpi Hsi Hli).
    + subst i.
      rewrite <- Hs in Hsi at 1. rewrite list_lookup_middle in Hsi by reflexivity.
      rewrite <- Hl in Hli at 1. rewrite list_lookup_middle in Hli by reflexivity.
      inversion Hsi; inversion Hli; subst. split; reflexivity.
  - intros e He. rewrite !fmap_app, !elem_of_app.
    apply elem_of_app in He as [He | He].
    + destruct (Hc e He) as [H | [H | [H | H]]]; tauto.
    + apply elem_of_cons in He as [-> | He].
      * right; right; left; right. simpl. apply list_elem_of_here.
      * apply elem_of_cons in He as [-> | He]; [| now apply elem_of_nil in He].
        right; right; right; right. simpl. apply list_elem_of_here.
Qed.

Lemma elem_of_fmap_delete {A B} (f : A -> B) (l : list A) i a e :
  l !! i = Some a -> e ∈ f <$> l -> e <> f a -> e ∈ f <$> delete i l.
Proof.
  intros Ha He Hne.
  apply list_elem_of_fmap in He as (x & -> & Hx).
  apply list_elem_of_lookup in Hx as (j & Hj).
  apply list_elem_of_fmap_2, list_elem_of_lookup.
  destruct (Nat.lt_trichotomy j i) as [Hlt | [-> | Hgt]].
  - exists j. now rewrite list_lookup_delete_lt.
  - congruence.
  - exists (j - 1)%nat. rewrite list_lookup_delete_ge by lia.
    now replace (S (j - 1)) with j by lia.
Qed.

Lemma removeActivePoint_none this :
  activePoint this = None -> removeActivePoint this = (Normal tt, this).
Proof. intros Ha. unfold removeActivePoint, bind, get. now rewrite Ha. Qed.

Lemma removeActivePoint_run this i s l :
  activePoint this = Some i ->
  sourceElements this !! i = Some s ->
  labelElements this !! i = Some l ->
  removeActivePoint this = (Normal tt, removed this i s l).
Proof.
  intros Ha Hs Hl.
  unfold removeActivePoint, bind, get, modify, remove, defined, ret.
  rewrite Ha, Hs. simpl. rewrite Hl. reflexivity.
Qed.

(** With no element at the active index, [removeActivePoint] throws at its
    first statement. *)
Lemma removeActivePoint_throws this i :
  activePoint this = Some i ->
  sourceElements this !! i = None ->
  removeActivePoint this = (TypeError, this).
Proof.
  intros Ha Hs. unfold removeActivePoint, bind, get, defined, throw.
  now rewrite Ha, Hs.
Qed.

Lemma removed_lockstep this i s l :
  lockstep this ->
  sourceElements this !! i = Some s ->
  labelElements this !! i = Some l ->
  lockstep (removed this i s l).
Proof.
  intros [Hs Hl Hp Hc] Hsi Hli.
  assert (is_Some (val this !! i)) as Hvi.
  { apply lookup_lt_is_Some. rewrite <- Hs. now apply lookup_lt_Some in Hsi. }
  split; simpl.
  - rewrite !length_delete by eauto. now rewrite Hs.
  - rewrite !length_delete by eauto. now rewrite Hl.
  - intros j p s' l'. rewrite !list_lookup_delete. apply Hp.
  - intros e He.
    apply list_elem_of_filter in He as [Hnl He].
    apply list_elem_of_filter in He as [Hns He].
    destruct (Hc e He) as [H | [H | [H | H]]]; [tauto | tauto | |].
    + right; right; left. now apply (elem_of_fmap_delete _ _ i s).
    + right; right; right. now apply (elem_of_fmap_delete _ _ i l).
Qed.

Lemma removeActivePoint_lockstep this :
  lockstep this -> lockstep (snd (removeActivePoint this)).
Proof.
  intros Hlock.
  destruct (activePoint this) as [i |] eqn:Ha;
    [| now rewrite removeActivePoint_none].
  destruct (sourceElements this !! i) as [s |] eqn:Hs;
    [| now rewrite (removeActivePoint_throws this i)].
  destruct (labelElements this !! i) as [l |] eqn:Hl.
  - rewrite (removeActivePoint_run this i s l) by assumption.
    now apply removed_lockstep.
  - exfalso. apply lookup_lt_Some in Hs. apply lookup_ge_None in Hl.
    destruct Hlock as [Hls Hll _ _]. lia.
Qed.

Lemma removeActivePoint_returns this :
  lockstep this -> activeInRange this ->
  fst (removeActivePoint this) = Normal tt
  /\ activePoint (snd (removeActivePoint this)) = None.
Proof.
  intros Hlock Hact.
  destruct (activePoint this) as [i |] eqn:Ha;
    [| now rewrite removeActivePoint_none].
  specialize (Hact i Ha). destruct Hlock as [Hls Hll _ _].
  destruct (lookup_lt_is_Some_2 (sourceElements this) i) as [s Hs]; [lia |].
  destruct (lookup_lt_is_Some_2 (labelElements this) i) as [l Hl]; [lia |].
  rewrite (removeActivePoint_run this i s l) by assumption.
  split; reflexivity.
Qed.

Lemma constants_eq this this' :
  constants this' = constants this ->
  nodeSize this' = nodeSize this
  /\ meterScale this' = meterScale this
  /\ listenerPoint this' = listenerPoint this
  /\ circleCenterX this' = circleCenterX this
  /\ circleCenterY this' = circleCenterY this
  /\ customColors this' = customColors this
  /\ backgroundCircle this' = backgroundCircle this
  /\ listener this' = listener this.
Proof.
  unfold constants. intros H. injection H. intros. repeat split; assumption.
Qed.

(** The loop of [removeAllPoints], run for as many rounds as the three
    arrays are long, empties them and takes their elements out of
    [this.element]. *)
Lemma removeAllPoints_loop_run n :
  forall this,
    length (val this) = n ->
    length (sourceElements this) = n ->
    length (labelElements this) = n ->
    exists this',
      removeAllPoints_loop n this = (Normal tt, this')
      /\ val this' = [] /\ sourceElements this' = [] /\ labelElements this' = []
      /\ activePoint this' = activePoint this
      /\ constants this' = constants this
      /\ forall e,
           e ∈ element this' ->
           e ∈ element this
           /\ (e ∉ (Circle.eid <$> sourceElements this))
           /\ (e ∉ (Text.eid <$> labelElements this)).
Proof.
  induction n as [| n IH]; intros this Hv Hs Hl.
  - exists this. simpl.
    apply nil_length_inv in Hv, Hs, Hl. rewrite Hs, Hl.
    split; [reflexivity |]. do 5 (split; [assumption || reflexivity |]).
    intros e He. split; [exact He |].
    split; intros H; now apply elem_of_nil in H.
  - destruct (val this) as [| p ps] eqn:Ev; [discriminate |].
    destruct (sourceElements this) as [| s ss] eqn:Es; [discriminate |].
    destruct (labelElements this) as [| l ls] eqn:El; [discriminate |].
    set (this1 :=
           set_labelElements ls
             (set_element
                (filter (fun c => c <> Text.eid l)
                   (filter (fun c => c <> Circle.eid s) (element this)))
                (set_sourceElements ss (set_val ps this)))).
    destruct (IH this1) as (this' & Hrun & Hv' & Hs' & Hl' & Ha' & Hk' & He').
    { simpl in *. lia. } { simpl in *. lia. } { simpl in *. lia. }
    exists this'. split.
    + simpl. unfold bind, modify, get, defined, ret, remove. simpl.
      rewrite Es. simpl. rewrite El. simpl. rewrite Ev, Es, El. exact Hrun.
    + do 5 (split; [assumption |]).
      intros e H. split; [| split].
      * destruct (He' e H) as (He1 & _). simpl in He1.
        apply list_elem_of_filter in He1 as [_ He1].
        now apply list_elem_of_filter in He1 as [_ He1].
      * destruct (He' e H) as (He1 & He2 & _). simpl in He1, He2.
        apply list_elem_of_filter in He1 as [_ He1].
        apply list_elem_of_filter in He1 as [Hne _].
        rewrite fmap_cons, elem_of_cons. intros [Heq | Hin]; auto.
      * destruct (He' e H) as (He1 & _ & He3). simpl in He1, He3.
        apply list_elem_of_filter in He1 as [Hne _].
        rewrite fmap_cons, elem_of_cons. intros [Heq | Hin]; auto.
Qed.

(** Point creation, removal of the active point and removal of all points
    keep the lockstep. *)
Lemma lockstep_operations this :
  lockstep this ->
  0 <= nodeSize this ->
  (forall x y label colorIndex,
      exists this',
        generateNewPoint x y label colorIndex this = (Normal tt, this')
        /\ lockstep this'
        /\ length (val this') = S (length (val this)))
  /\ (lockstep (snd (removeActivePoint this))
      /\ (activeInRange this -> fst (removeActivePoint this) = Normal tt))
  /\ (exists this',
        removeAllPoints this = (Normal tt, this')
        /\ lockstep this'
        /\ val this' = []
        /\ activePoint this' = None
        /\ sourceElements this' = []
        /\ labelElements this' = []
        /\ forall e,
             e ∈ element this' ->
             e = backgroundCircle this' \/ e = listener this').
Proof.
  intros Hlock Hn. split; [| split].
  - intros x y label colorIndex.
    exists (generated this x y label colorIndex).
    split; [now apply generateNewPoint_run |].
    split; [now apply generated_lockstep |].
    simpl. rewrite length_app. simpl. lia.
  - split; [now apply removeActivePoint_lockstep |].
    intros Hact. now apply removeActivePoint_returns.
  - destruct (removeAllPoints_loop_run (length (val this)) this)
      as (this' & Hrun & Hv & Hs & Hl & _ & Hk & He).
    { reflexivity. } { apply Hlock. } { apply Hlock. }
    destruct (constants_eq _ _ Hk) as (_ & _ & _ & _ & _ & _ & Hb & Hli).
    assert (forall e, e ∈ element this' ->
                      e = backgroundCircle this \/ e = listener this) as Hchildren.
    { intros e Hin. destruct (He e Hin) as (He1 & He2 & He3).
      destruct (lockstep_children this Hlock e He1) as [H | [H | [H | H]]]; tauto. }
    exists (set_activePoint None this').
    split.
    { unfold removeAllPoints.
      rewrite (bind_normal get _ this this this) by reflexivity.
      rewrite (bind_normal _ _ this tt this') by exact Hrun.
      reflexivity. }
    split.
    { split; simpl.
      - now rewrite Hs, Hv.
      - now rewrite Hl, Hv.
      - intros i p s l Hp. rewrite Hv in Hp. discriminate.
      - intros e Hin. rewrite Hb, Hli.
        destruct (Hchildren e Hin); tauto. }
    simpl. rewrite Hb, Hli. repeat split; assumption.
Qed.

(** ** Running the methods on the elements *)

Lemma source_setAttribute_run this i e f :
  sourceElements this !! i = Some e ->
  source_setAttribute (Some i) f this =
  (Normal tt, set_sourceElements (<[i := f e]> (sourceElements this)) this).
Proof.
  intros He. unfold source_setAttribute, bind, get, at_index. now rewrite He.
Qed.

Lemma label_setAttribute_run this i e f :
  labelElements this !! i = Some e ->
  label_setAttribute (Some i) f this =
  (Normal tt, set_labelElements (<[i := f e]> (labelElements this)) this).
Proof.
  intros He. unfold label_setAttribute, bind, get, at_index. now rewrite He.
Qed.

Lemma drawEmphasisCircle_run this a e :
  activePoint this = Some a ->
  sourceElements this !! a = Some e ->
  drawEmphasisCircle this = (Normal tt, emphasized this a e).
Proof.
  intros Ha He. unfold drawEmphasisCircle.
  rewrite (bind_normal get _ this this this) by reflexivity.
  rewrite Ha.
  rewrite (bind_normal _ _ this tt _ (source_setAttribute_run this a e _ He)).
  unfold modify, emphasized, emphasis. simpl. rewrite Ha. reflexivity.
Qed.

Lemma processToTransmit_run this :
  (forall i, activePoint this = Some i -> is_Some (val this !! i)) ->
  (transmitMode this = 1%Z -> is_Some (activePoint this)) ->
  processToTransmit this = (Normal tt, transmitted this).
Proof.
  intros Hact Hsome. unfold processToTransmit, transmitted, eventData.
  rewrite (bind_normal get _ this this this) by reflexivity.
  destruct (transmitMode this =? 0)%Z eqn:H0.
  { now rewrite processToTransmit_loop_map. }
  destruct (transmitMode this =? 1)%Z eqn:H1; [| reflexivity].
  apply Z.eqb_eq in H1. destruct (Hsome H1) as [i Hi].
  destruct (Hact i Hi) as [p Hp]. rewrite Hi. simpl. rewrite Hp.
  unfold bind, defined, ret. reflexivity.
Qed.

(** In mode 1 with no active point nothing is emitted. *)
Lemma processToTransmit_silent this :
  transmitMode this = 1%Z -> activePoint this = None ->
  processToTransmit this = (Normal tt, this).
Proof.
  intros Hm Ha. unfold processToTransmit, bind, get. now rewrite Hm, Ha.
Qed.

Lemma insert_imap_insert {A B} (g : nat -> A -> B) (l : list A) i a b :
  <[i := b]> (imap g (<[i := a]> l)) = <[i := b]> (imap g l).
Proof.
  apply list_eq. intros j.
  destruct (decide (j = i)) as [-> | Hne].
  - destruct (decide (i < length l)%nat) as [Hlt | Hge].
    + rewrite (list_lookup_insert_eq (imap g (<[i := a]> l)))
        by (rewrite length_imap, length_insert; lia).
      rewrite (list_lookup_insert_eq (imap g l)) by (rewrite length_imap; lia).
      reflexivity.
    + rewrite (list_insert_ge (imap g (<[i := a]> l)))
        by (rewrite length_imap, length_insert; lia).
      rewrite (list_insert_ge (imap g l)) by (rewrite length_imap; lia).
      rewrite (list_insert_ge l) by lia. reflexivity.
  - rewrite !list_lookup_insert_ne by congruence.
    rewrite !list_lookup_imap, list_lookup_insert_ne by congruence. reflexivity.
Qed.

Lemma emphasis_self a e : emphasis a a e = e.
Proof. unfold emphasis. now rewrite bool_decide_eq_false_2 by tauto. Qed.

(** ** [move] and [click] *)

Lemma bind_get {B} (k : PanBinaural -> Method B) this :
  bind get k this = k this this.
Proof. reflexivity. Qed.

Lemma bind_defined {A B} (a : A) (k : A -> Method B) this :
  bind (defined (Some a)) k this = k a this.
Proof. reflexivity. Qed.

Lemma move_active_run this i p s l :
  clickable this = true ->
  clicked this = true ->
  activePoint this = Some i ->
  val this !! i = Some p ->
  sourceElements this !! i = Some s ->
  labelElements this !! i = Some l ->
  move this = (Normal tt, transmitted (moved this i p s l)).
Proof.
  intros Hc Hd Ha Hp Hs Hl.
  pose proof (lookup_lt_Some _ _ _ Hp) as Hip.
  pose proof (lookup_lt_Some _ _ _ Hs) as His.
  pose proof (lookup_lt_Some _ _ _ Hl) as Hil.
  unfold move.
  rewrite (bind_normal get _ this this this) by reflexivity.
  rewrite Hc, Hd, Ha.
  assert ((write_xy (Some i) (XY.x (mouse this)) (XY.y (mouse this));;
           scaleNode;;
           drawEmphasisCircle;;
           this0 <- get;;
           p0 <- defined (val this0 !! i);;
           source_setAttribute (Some i) (Circle.set_cx (Point.x p0));;
           source_setAttribute (Some i) (Circle.set_cy (Point.y p0));;
           label_setAttribute (Some i) (Text.set_x (Point.x p0));;
           label_setAttribute (Some i) (Text.set_y (Point.y p0 + nodeSize this0 + 20)))
            this = (Normal tt, moved this i p s l)) as Hbody.
  { rewrite (bind_normal _ _ this tt _ (write_xy_run this i p _ _ Hp)).
    erewrite bind_normal.
    2:{ eapply scaleNode_run; [exact Ha |].
        simpl. apply list_lookup_insert_eq. exact Hip. }
    simpl. rewrite list_insert_insert_eq.
    erewrite bind_normal.
    2:{ eapply drawEmphasisCircle_run; [exact Ha | exact Hs]. }
    unfold emphasized. simpl.
    rewrite bind_get. simpl.
    rewrite list_lookup_insert_eq by exact Hip.
    rewrite bind_defined. simpl.
    erewrite bind_normal.
    2:{ eapply source_setAttribute_run. simpl.
        rewrite list_lookup_imap, list_lookup_insert_eq by exact His.
        simpl. rewrite emphasis_self. reflexivity. }
    simpl.
    erewrite bind_normal.
    2:{ eapply source_setAttribute_run. simpl.
        apply list_lookup_insert_eq.
        rewrite length_imap, length_insert. exact His. }
    simpl. rewrite list_insert_insert_eq.
    erewrite bind_normal.
    2:{ eapply label_setAttribute_run. simpl. exact Hl. }
    simpl.
    erewrite label_setAttribute_run.
    2:{ simpl. apply list_lookup_insert_eq. exact Hil. }
    simpl. rewrite list_insert_insert_eq, insert_imap_insert.
    reflexivity. }
  rewrite (bind_normal _ _ this tt _ Hbody).
  rewrite (bind_normal processToTransmit _ _ tt (transmitted (moved this i p s l))).
  - reflexivity.
  - apply processToTransmit_run.
    + intros j Hj. simpl in Hj. rewrite Ha in Hj. inversion Hj; subst j.
      simpl. apply lookup_lt_is_Some. now rewrite length_insert.
    + intros _. simpl. rewrite Ha. eauto.
Qed.

Lemma hitTest_Some_lookup this x y i :
  hitTest this x y = Some i -> is_Some (val this !! i).
Proof.
  intros Hi.
  destruct (hitTest_cases this x y) as [[Hn _] | (n & p & Hn & Hp & _)];
    [congruence |].
  assert (n = i) as <- by congruence. eauto.
Qed.

Lemma click_hit_run this i p s l :
  clickable this = true ->
  clicked this = true ->
  hitTest this (XY.x (mouse this)) (XY.y (mouse this)) = Some i ->
  val this !! i = Some p ->
  sourceElements this !! i = Some s ->
  labelElements this !! i = Some l ->
  click this = (Normal tt, clickedOn this i p s l).
Proof.
  intros Hc Hd Hhit Hp Hs Hl.
  pose proof (lookup_lt_Some _ _ _ Hp) as Hip.
  unfold click.
  rewrite bind_get, Hc.
  rewrite (bind_normal (setActivePoint _ _) _ this tt
             (set_activePoint (Some i) this)) by (unfold setActivePoint, modify; now rewrite Hhit).
  rewrite bind_get.
  rewrite (bind_normal _ _ (set_activePoint (Some i) this) tt
             (set_activePoint (Some i) this))
    by (simpl; now destruct (newPointsGeneratable this)).
  erewrite bind_normal.
  2:{ eapply scaleNode_run; [reflexivity | exact Hp]. }
  erewrite bind_normal.
  2:{ apply processToTransmit_run.
      - intros j Hj. simpl in Hj. inversion Hj; subst j.
        simpl. apply lookup_lt_is_Some. now rewrite length_insert.
      - intros _. simpl. eauto. }
  erewrite move_active_run; [reflexivity | exact Hc | exact Hd | reflexivity | | exact Hs | exact Hl].
  simpl. apply list_lookup_insert_eq. exact Hip.
Qed.

(** What [click] leaves at the index of the point it hit. *)
Lemma clickedOn_point this i p s l :
  val this !! i = Some p ->
  sourceElements this !! i = Some s ->
  let c := clipped this (XY.x (mouse this)) (XY.y (mouse this)) in
  val (clickedOn this i p s l) !! i
  = Some (Point.new (XY.x c) (XY.y c) (Point.label p) (Point.colorIndex p))
  /\ sourceElements (clickedOn this i p s l) !! i
     = Some (Circle.set_cy (XY.y c)
               (Circle.set_cx (XY.x c)
                  (Circle.set_stroke (activeBorderColor this) s))).
Proof.
  intros Hp Hs c.
  pose proof (lookup_lt_Some _ _ _ Hp) as Hip.
  pose proof (lookup_lt_Some _ _ _ Hs) as His.
  split; simpl.
  - rewrite list_lookup_insert_eq by (now rewrite length_insert). reflexivity.
  - rewrite list_lookup_insert_eq by (now rewrite length_imap). reflexivity.
Qed.

Lemma clickedOn_emitted this i p s l :
  exists first second,
    emitted (clickedOn this i p s l) = emitted this ++ [first; second].
Proof.
  eexists _, _. simpl. rewrite <- app_assoc. reflexivity.
Qed.

(** What [click] leaves when the pointer goes down on an existing point. *)
Lemma click_on_point this i :
  clickable this = true ->
  clicked this = true ->
  lockstep this ->
  hitTest this (XY.x (mouse this)) (XY.y (mouse this)) = Some i ->
  exists this' p' s' first second,
    click this = (Normal tt, this')
    /\ emitted this' = emitted this ++ [first; second]
    /\ val this' !! i = Some p'
    /\ sourceElements this' !! i = Some s'
    /\ Point.x p' = XY.x (clipped this (XY.x (mouse this)) (XY.y (mouse this)))
    /\ Point.y p' = XY.y (clipped this (XY.x (mouse this)) (XY.y (mouse this)))
    /\ Circle.cx s' = Point.x p'
    /\ Circle.cy s' = Point.y p'
    /\ ((XY.x (mouse this) - circleCenterX this) * (XY.x (mouse this) - circleCenterX this)
        + (XY.y (mouse this) - circleCenterY this) * (XY.y (mouse this) - circleCenterY this)
        <= bgRadius this * bgRadius this ->
        Point.x p' = XY.x (mouse this) /\ Point.y p' = XY.y (mouse this)).
Proof.
  intros Hc Hd Hlock Hhit.
  destruct (hitTest_Some_lookup _ _ _ _ Hhit) as [p Hp].
  pose proof (lookup_lt_Some _ _ _ Hp) as Hip.
  destruct (lookup_lt_is_Some_2 (sourceElements this) i) as [s Hs];
    [rewrite (lockstep_sources this Hlock); exact Hip |].
  destruct (lookup_lt_is_Some_2 (labelElements this) i) as [l Hl];
    [rewrite (lockstep_labels this Hlock); exact Hip |].
  destruct (clickedOn_point this i p s l Hp Hs) as [Hval Hsrc].
  destruct (clickedOn_emitted this i p s l) as (first & second & Hem).
  eexists _, _, _, first, second.
  split; [now apply (click_hit_run this i p s l) |].
  split; [exact Hem |].
  split; [exact Hval |]. split; [exact Hsrc |].
  simpl. do 4 (split; [reflexivity |]).
  intros Hin. rewrite clipped_inside by lra. split; reflexivity.
Qed.

(** ** [moveExistingPoint], [changeColorIndexOfActivePoint], [addNewPoint] *)

Lemma at_Z_None {A} (a : list A) (i : Z) :
  at_Z a i = None <-> (i < 0 \/ Z.of_nat (length a) <= i)%Z.
Proof.
  unfold at_Z. destruct (0 <=? i)%Z eqn:Hi.
  - apply Z.leb_le in Hi. rewrite lookup_ge_None. lia.
  - apply Z.leb_gt in Hi. split; [lia | reflexivity].
Qed.

Lemma at_Z_Some {A} (a : list A) (i : Z) (v : A) :
  at_Z a i = Some v -> a !! Z.to_nat i = Some v.
Proof. unfold at_Z. now destruct (0 <=? i)%Z. Qed.

(** Past the ends of [val], [moveExistingPoint] throws at its first write,
    before it has changed anything. *)
Lemma moveExistingPoint_throws this pointIndex distance angle :
  at_Z (val this) pointIndex = None ->
  moveExistingPoint pointIndex distance angle this = (TypeError, this).
Proof.
  intros Hnone. unfold moveExistingPoint.
  rewrite bind_get. apply bind_throw. now rewrite Hnone.
Qed.

Lemma moveExistingPoint_run this pointIndex distance angle p s l :
  at_Z (val this) pointIndex = Some p ->
  sourceElements this !! Z.to_nat pointIndex = Some s ->
  labelElements this !! Z.to_nat pointIndex = Some l ->
  moveExistingPoint pointIndex distance angle this =
  scaleNode (movedTo this (Z.to_nat pointIndex) p s l distance angle).
Proof.
  intros Hz Hs Hl. pose proof (at_Z_Some _ _ _ Hz) as Hp.
  pose proof (lookup_lt_Some _ _ _ Hp) as Hip.
  pose proof (lookup_lt_Some _ _ _ Hs) as His.
  pose proof (lookup_lt_Some _ _ _ Hl) as Hil.
  unfold moveExistingPoint.
  rewrite bind_get, Hz, bind_defined.
  rewrite (bind_normal _ _ this tt _ (write_xy_run this _ p _ _ Hp)).
  rewrite bind_get. simpl.
  rewrite list_lookup_insert_eq by exact Hip.
  rewrite bind_defined. simpl.
  erewrite bind_normal.
  2:{ eapply source_setAttribute_run. exact Hs. }
  erewrite bind_normal.
  2:{ eapply source_setAttribute_run. simpl.
      apply list_lookup_insert_eq. exact His. }
  simpl. rewrite list_insert_insert_eq.
  erewrite bind_normal.
  2:{ eapply label_setAttribute_run. exact Hl. }
  erewrite bind_normal.
  2:{ eapply label_setAttribute_run. simpl.
      apply list_lookup_insert_eq. exact Hil. }
  simpl. rewrite list_insert_insert_eq. reflexivity.
Qed.

Lemma changeColorIndexOfActivePoint_none this colorIndex :
  activePoint this = None ->
  changeColorIndexOfActivePoint colorIndex this = (Normal tt, this).
Proof.
  intros Ha. unfold changeColorIndexOfActivePoint. rewrite bind_get. now rewrite Ha.
Qed.


Lemma addNewPoint_run this distance angle label colorIndex :
  0 <= nodeSize this ->
  length (sourceElements this) = length (val this) ->
  let xy := panelCoordinates this distance angle in
  let c := clipped this (XY.x xy) (XY.y xy) in
  addNewPoint distance angle label colorIndex this =
  (Normal tt,
   emphasized (generated this (XY.x xy) (XY.y xy) label colorIndex)
     (length (val this))
     (Circle.new (nextId this) (XY.x c) (XY.y c) (nodeSize this) "0.5"
        (customColor this colorIndex) "none")).
Proof.
  intros Hn Hlen xy c. unfold addNewPoint.
  rewrite bind_get.
  rewrite (bind_normal _ _ this tt _
             (generateNewPoint_run this (XY.x xy) (XY.y xy) label colorIndex Hn)).
  apply drawEmphasisCircle_run.
  - reflexivity.
  - simpl. rewrite <- Hlen. apply list_lookup_middle. reflexivity.
Qed.

(** ** The round trip through panel coordinates *)

Lemma degrees_of_radians a : a / 180 * PI * 180 / PI = a.
Proof. pose proof PI_RGT_0. field. lra. Qed.

(** The [atan2] angle in degrees of the panel vector of distance [r] and
    angle [a - 90]. *)
Lemma panel_vector_degrees r a :
  0 < r -> 0 <= a < 360 ->
  atan2 (r * sin ((a - 90) / 180 * PI)) (r * cos ((a - 90) / 180 * PI)) * 180 / PI
  = if Rle_dec a 270 then a - 90 else a - 450.
Proof.
  intros Hr [Hlo Hhi]. pose proof PI_RGT_0 as HPI.
  destruct (Rle_dec a 270) as [Hle | Hgt].
  - rewrite atan2_polar; [apply degrees_of_radians | exact Hr |].
    split; nra.
  - set (t := (a - 90) / 180 * PI).
    replace t with ((t - 2 * PI) + 2 * INR 1 * PI) by (simpl; ring).
    rewrite sin_period, cos_period.
    rewrite atan2_polar; [| exact Hr | unfold t; split; nra].
    unfold t. field. lra.
Qed.

Lemma panel_vector_norm r t :
  0 <= r -> sqrt (r * cos t * (r * cos t) + r * sin t * (r * sin t)) = r.
Proof.
  intros Hr. pose proof (sin2_cos2 t) as Hsc. unfold Rsqr in Hsc.
  replace (r * cos t * (r * cos t) + r * sin t * (r * sin t))
    with (r * r * (sin t * sin t + cos t * cos t)) by ring.
  rewrite Hsc, Rmult_1_r. now apply sqrt_square.
Qed.

Lemma panelCoordinates_vector this distance angle :
  0 <= angle < 360 ->
  XY.x (panelCoordinates this distance angle) - circleCenterX this
  = distance * meterScale this * cos ((angle - 90) / 180 * PI)
  /\ XY.y (panelCoordinates this distance angle) - circleCenterY this
     = distance * meterScale this * sin ((angle - 90) / 180 * PI).
Proof.
  intros Ha. unfold panelCoordinates, polToCar, convertToPixels.
  rewrite bool_decide_eq_false_2 by lra. simpl. split; ring.
Qed.

Lemma round_trip this distance angle label colorIndex :
  0 < meterScale this ->
  Point.x (listenerPoint this) = circleCenterX this ->
  Point.y (listenerPoint this) = circleCenterY this ->
  angleRelativeToHead this = false ->
  0 < distance ->
  0 <= angle < 360 ->
  let c := panelCoordinates this distance angle in
  let p := Point.new (XY.x c) (XY.y c) label colorIndex in
  calculateDistance this (listenerPoint this) p = distance
  /\ calculateAngle this p = angle.
Proof.
  intros Hm Hlx Hly Hrel Hd Ha c p.
  destruct (panelCoordinates_vector this distance angle Ha) as [Hx Hy].
  assert (0 < distance * meterScale this) as Hr by nra.
  split.
  - unfold calculateDistance, convertToMeters. subst p c. cbn [Point.x Point.y].
    rewrite Hlx, Hly, Hx, Hy.
    rewrite panel_vector_norm by lra. field. lra.
  - unfold calculateAngle. subst p c. cbn [Point.x Point.y].
    rewrite Hrel, Hx, Hy, panel_vector_degrees by assumption.
    destruct (Rle_dec angle 270); repeat case_bool_decide; lra.
Qed.

(** At distance 0 the angle 0 is read back as 90 degrees, on the default
    panel. *)
Lemma round_trip_at_center :
  let this := constructor defaults_size in
  let c := panelCoordinates this 0 0 in
  let p := Point.new (XY.x c) (XY.y c) "S1" 0%Z in
  calculateDistance this (listenerPoint this) p = 0
  /\ calculateAngle this p = 90
  /\ calculateAngle this p <> 0.
Proof.
  intros this c p.
  destruct (panelCoordinates_vector this 0 0) as [Hx Hy]; [lra |].
  assert (calculateAngle this p = 90) as Hang.
  { unfold calculateAngle. subst p c. cbn [Point.x Point.y]. rewrite Hx, Hy.
    rewrite !Rmult_0_l, atan2_0_0. simpl.
    replace (0 * 180 / PI) with 0 by (unfold Rdiv; ring).
    repeat case_bool_decide; lra. }
  split; [| split; [exact Hang | rewrite Hang; lra]].
  unfold calculateDistance, convertToMeters. subst p c. cbn [Point.x Point.y].
  change (Point.x (listenerPoint this)) with (circleCenterX this).
  change (Point.y (listenerPoint this)) with (circleCenterY this).
  rewrite Hx, Hy, !Rmult_0_l, Rplus_0_l, sqrt_0. unfold Rdiv. apply Rmult_0_l.
Qed.

Lemma addNewPoint_added this distance angle label colorIndex :
  0 <= nodeSize this ->
  length (sourceElements this) = length (val this) ->
  addNewPoint distance angle label colorIndex this =
  (Normal tt, added this distance angle label colorIndex).
Proof. intros Hn Hlen. now apply addNewPoint_run. Qed.

(** Panel coordinates within the boundary radius are not clipped. *)
Lemma clipped_panelCoordinates this distance angle :
  0 <= angle < 360 ->
  0 <= distance * meterScale this <= bgRadius this ->
  clipped this (XY.x (panelCoordinates this distance angle))
               (XY.y (panelCoordinates this distance angle))
  = panelCoordinates this distance angle.
Proof.
  intros Ha Hd.
  destruct (panelCoordinates_vector this distance angle Ha) as [Hx Hy].
  rewrite clipped_inside; [now destruct (panelCoordinates this distance angle) |].
  rewrite Hx, Hy.
  set (t := (angle - 90) / 180 * PI).
  pose proof (sin2_cos2 t) as Hsc. unfold Rsqr in Hsc.
  replace (distance * meterScale this * cos t * (distance * meterScale this * cos t)
           + distance * meterScale this * sin t * (distance * meterScale this * sin t))
    with (distance * meterScale this * (distance * meterScale this)
          * (sin t * sin t + cos t * cos t)) by ring.
  rewrite Hsc. nra.
Qed.

Lemma val_added this distance angle label colorIndex :
  0 <= angle < 360 ->
  0 <= distance * meterScale this <= bgRadius this ->
  val (added this distance angle label colorIndex)
  = val this ++
    [Point.new (XY.x (panelCoordinates this distance angle))
       (XY.y (panelCoordinates this distance angle)) label colorIndex].
Proof.
  intros Ha Hd. unfold added, emphasized, generated. cbn [val set_sourceElements
    set_labelElements set_element set_nextId set_val set_activePoint].
  now rewrite clipped_panelCoordinates.
Qed.

(** [addNewPoint(2.0, 0, "S1", 0)] on the default panel, and the angle read
    back for the point it made. *)
Lemma addNewPoint_S1 :
  exists this' p,
    addNewPoint 2 0 "S1" 0 (constructor defaults_size) = (Normal tt, this')
    /\ val this' = [p]
    /\ calculateAngle this' p = 0
    /\ calculateDistance this' (listenerPoint this') p = 2.
Proof.
  set (this := constructor defaults_size).
  assert (0 <= 2 * meterScale this <= bgRadius this) as Hd
    by (unfold this; rewrite bgRadius_default; simpl; lra).
  destruct (round_trip this 2 0 "S1" 0%Z) as [Hdist Hang];
    try reflexivity; try (simpl; lra).
  eexists _, _. split; [| split; [| split]].
  - apply addNewPoint_added; [simpl; lra | reflexivity].
  - rewrite val_added by (exact Hd || lra). reflexivity.
  - exact Hang.
  - exact Hdist.
Qed.

(** ** A point moved by [moveExistingPoint] *)

Lemma panelCoordinates_90 this distance :
  panelCoordinates this distance 90
  = XY.new (distance * meterScale this + circleCenterX this) (circleCenterY this).
Proof.
  unfold panelCoordinates, polToCar, convertToPixels.
  rewrite bool_decide_eq_false_2 by lra. cbn [XY.x XY.y].
  replace ((90 - 90) / 180 * PI) with 0 by (unfold Rdiv; ring).
  rewrite cos_0, sin_0. f_equal; ring.
Qed.

(** ** The invariant of the reachable widgets *)

Lemma fmap_lookup_tag {A B} (f : A -> B) (l l' : list A) i a' :
  f <$> l' = f <$> l -> l' !! i = Some a' ->
  exists a, l !! i = Some a /\ f a = f a'.
Proof.
  intros Heq Ha'.
  assert ((f <$> l) !! i = Some (f a')) as H
    by (rewrite <- Heq, list_lookup_fmap, Ha'; reflexivity).
  rewrite list_lookup_fmap in H.
  destruct (l !! i) as [a |]; [| discriminate].
  exists a. split; [reflexivity |]. simpl in H. congruence.
Qed.

Lemma fmap_length_tag {A B} (f : A -> B) (l l' : list A) :
  f <$> l' = f <$> l -> length l' = length l.
Proof.
  intros Heq. rewrite <- (length_fmap f l'), <- (length_fmap f l). now rewrite Heq.
Qed.

Lemma skeleton_eq this this' :
  skeleton this' = skeleton this ->
  constants this' = constants this
  /\ element this' = element this
  /\ pointTag <$> val this' = pointTag <$> val this
  /\ circleTag <$> sourceElements this' = circleTag <$> sourceElements this
  /\ textTag <$> labelElements this' = textTag <$> labelElements this.
Proof.
  unfold skeleton. intros H. injection H. intros.
  repeat split; try assumption. unfold constants. congruence.
Qed.

Lemma eid_of_circleTag (l : list Circle.t) :
  Circle.eid <$> l = fst <$> (circleTag <$> l).
Proof. rewrite <- list_fmap_compose. reflexivity. Qed.

Lemma eid_of_textTag (l : list Text.t) :
  Text.eid <$> l = fst <$> (textTag <$> l).
Proof. rewrite <- list_fmap_compose. reflexivity. Qed.

(** The lockstep only depends on the skeleton. *)
Lemma lockstep_skeleton this this' :
  skeleton this' = skeleton this -> lockstep this -> lockstep this'.
Proof.
  intros Hsk [Hs Hl Hp Hc].
  destruct (skeleton_eq _ _ Hsk) as (Hk & He & Hpt & Hst & Hlt).
  destruct (constants_eq _ _ Hk) as (_ & _ & _ & _ & _ & Hcol & Hbg & Hli).
  pose proof (fmap_length_tag _ _ _ Hpt) as Hlp.
  pose proof (fmap_length_tag _ _ _ Hst) as Hls.
  pose proof (fmap_length_tag _ _ _ Hlt) as Hll.
  split.
  - lia.
  - lia.
  - intros i p' s' l' Hp' Hs' Hl'.
    destruct (fmap_lookup_tag _ _ _ _ _ Hpt Hp') as (p & Hpi & Hptag).
    destruct (fmap_lookup_tag _ _ _ _ _ Hst Hs') as (s & Hsi & Hstag).
    destruct (fmap_lookup_tag _ _ _ _ _ Hlt Hl') as (l & Hli' & Hltag).
    destruct (Hp i p s l Hpi Hsi Hli') as [Htext Hfill].
    unfold pointTag in Hptag. unfold circleTag in Hstag. unfold textTag in Hltag.
    injection Hptag as Hlab Hci. injection Hstag as _ Hf. injection Hltag as _ Ht.
    split.
    + congruence.
    + unfold customColor in *. rewrite Hcol. congruence.
  - intros e He'. rewrite He in He'.
    rewrite Hbg, Hli, !eid_of_circleTag, !eid_of_textTag, Hst, Hlt.
    rewrite <- !eid_of_circleTag, <- !eid_of_textTag. now apply Hc.
Qed.

Lemma invariant_skeleton this this' :
  skeleton this' = skeleton this ->
  activePoint this' = activePoint this
  \/ (forall i, activePoint this' = Some i -> (i < length (val this))%nat) ->
  invariant this -> invariant this'.
Proof.
  intros Hsk Hact [Hn Hm [Hlx Hly] Hlock Hin].
  destruct (skeleton_eq _ _ Hsk) as (Hk & _ & Hpt & _ & _).
  destruct (constants_eq _ _ Hk) as (Hn' & Hm' & Hl' & Hcx & Hcy & _).
  pose proof (fmap_length_tag _ _ _ Hpt) as Hlp.
  split.
  - congruence.
  - congruence.
  - rewrite Hl', Hcx, Hcy. tauto.
  - now apply (lockstep_skeleton this).
  - intros i Hi. rewrite Hlp.
    destruct Hact as [Heq | Hrange]; [apply Hin; congruence | now apply Hrange].
Qed.

Lemma invariant_constructor size : invariant (constructor size).
Proof.
  split; simpl; try reflexivity.
  - split; reflexivity.
  - apply lockstep_constructor.
  - intros i Hi. discriminate.
Qed.

(** *** Rules for [returns] *)

Lemma returns_ret {A} (P : PanBinaural -> Prop) (a : A) :
  returns P (ret a) (fun a' this => a' = a /\ P this).
Proof. intros this HP. exists a, this. auto. Qed.

Lemma returns_bind {A B} P (m : Method A) Q (k : A -> Method B) R' :
  returns P m Q ->
  (forall a, returns (Q a) (k a) R') ->
  returns P (bind m k) R'.
Proof.
  intros Hm Hk this HP.
  destruct (Hm this HP) as (a & this1 & Hrun & HQ).
  destruct (Hk a this1 HQ) as (b & this2 & Hrun' & HR).
  exists b, this2. split; [| exact HR].
  now rewrite (bind_normal m k this a this1 Hrun).
Qed.

Lemma returns_get {B} P (k : PanBinaural -> Method B) Q :
  (forall this, P this -> exists b this', k this this = (Normal b, this') /\ Q b this') ->
  returns P (bind get k) Q.
Proof. intros Hk this HP. rewrite bind_get. now apply Hk. Qed.

Lemma returns_conseq {A} (P P' : PanBinaural -> Prop) (m : Method A)
    (Q Q' : A -> PanBinaural -> Prop) :
  returns P' m Q' ->
  (forall this, P this -> P' this) ->
  (forall a this, Q' a this -> Q a this) ->
  returns P m Q.
Proof.
  intros Hm HP HQ this Hthis.
  destruct (Hm this (HP this Hthis)) as (a & this' & Hrun & Hq).
  exists a, this'. auto.
Qed.

Lemma returns_skip P : returns P (ret tt) (fun _ => P).
Proof. intros this HP. exists tt, this. auto. Qed.

Lemma stable_step a this0 this this' :
  stable a this0 this ->
  skeleton this' = skeleton this ->
  activePoint this' = activePoint this ->
  stable a this0 this'.
Proof.
  intros (Hinv & Ha & Hsk) Hsk' Ha'. split; [| split].
  - apply (invariant_skeleton this); auto.
  - congruence.
  - congruence.
Qed.

Lemma stable_length a this0 this :
  stable a this0 this ->
  length (val this) = length (val this0)
  /\ length (sourceElements this) = length (val this0)
  /\ length (labelElements this) = length (val this0).
Proof.
  intros (Hinv & _ & Hsk).
  destruct (skeleton_eq _ _ Hsk) as (_ & _ & Hpt & _ & _).
  pose proof (fmap_length_tag _ _ _ Hpt) as Hlp.
  destruct (inv_lockstep this Hinv) as [Hs Hl _ _]. lia.
Qed.

(** *** Statements that keep the skeleton *)

Lemma skeleton_set_val this i p p' :
  val this !! i = Some p -> pointTag p' = pointTag p ->
  skeleton (set_val (<[i := p']> (val this)) this) = skeleton this.
Proof.
  intros Hp Htag. unfold skeleton, constants. simpl.
  rewrite list_fmap_insert, Htag, list_insert_id; [reflexivity |].
  now rewrite list_lookup_fmap, Hp.
Qed.

Lemma skeleton_set_sourceElements this i s s' :
  sourceElements this !! i = Some s -> circleTag s' = circleTag s ->
  skeleton (set_sourceElements (<[i := s']> (sourceElements this)) this)
  = skeleton this.
Proof.
  intros Hs Htag. unfold skeleton, constants. simpl.
  rewrite list_fmap_insert, Htag, list_insert_id; [reflexivity |].
  now rewrite list_lookup_fmap, Hs.
Qed.

Lemma skeleton_set_labelElements this i l l' :
  labelElements this !! i = Some l -> textTag l' = textTag l ->
  skeleton (set_labelElements (<[i := l']> (labelElements this)) this)
  = skeleton this.
Proof.
  intros Hl Htag. unfold skeleton, constants. simpl.
  rewrite list_fmap_insert, Htag, list_insert_id; [reflexivity |].
  now rewrite list_lookup_fmap, Hl.
Qed.

Lemma fmap_imap_emphasis a (l : list Circle.t) :
  circleTag <$> imap (emphasis a) l = circleTag <$> l.
Proof.
  apply list_eq. intros j.
  rewrite !list_lookup_fmap, list_lookup_imap.
  destruct (l !! j) as [e |]; [| reflexivity]. simpl.
  unfold emphasis. now case_bool_decide.
Qed.

Lemma skeleton_emphasized this a e :
  sourceElements this !! a = Some e ->
  skeleton (emphasized this a e) = skeleton this.
Proof.
  intros He. unfold skeleton, constants, emphasized. simpl.
  rewrite fmap_imap_emphasis, list_fmap_insert.
  change (circleTag (Circle.set_stroke (activeBorderColor this) e))
    with (circleTag e).
  rewrite list_insert_id; [reflexivity |].
  now rewrite list_lookup_fmap, He.
Qed.

Create HintDb returns.

Lemma write_xy_stable a this0 i vx vy :
  (i < length (val this0))%nat ->
  returns (stable a this0) (write_xy (Some i) vx vy) (fun _ => stable a this0).
Proof.
  intros Hi this Hst.
  destruct (stable_length _ _ _ Hst) as (Hlp & _ & _).
  destruct (lookup_lt_is_Some_2 (val this) i) as [p Hp]; [lia |].
  eexists tt, _. split; [now apply (write_xy_run this i p) |].
  apply (stable_step a this0 this _ Hst); [| reflexivity].
  now apply (skeleton_set_val this i p).
Qed.

Lemma scaleNode_stable a this0 :
  returns (stable a this0) scaleNode (fun _ => stable a this0).
Proof.
  intros this Hst. pose proof Hst as (Hinv & Ha & _).
  destruct (activePoint this) as [i |] eqn:Hi.
  - destruct (lookup_lt_is_Some_2 (val this) i) as [p Hp];
      [now apply (inv_active this Hinv) |].
    eexists tt, _. split; [now apply (scaleNode_run this i p) |].
    apply (stable_step a this0 this _ Hst); [| simpl; congruence].
    now apply (skeleton_set_val this i p).
  - exists tt, this. split; [now apply scaleNode_none | exact Hst].
Qed.

Lemma source_setAttribute_stable a this0 i f :
  (forall e, circleTag (f e) = circleTag e) ->
  (i < length (val this0))%nat ->
  returns (stable a this0) (source_setAttribute (Some i) f) (fun _ => stable a this0).
Proof.
  intros Hf Hi this Hst.
  destruct (stable_length _ _ _ Hst) as (_ & Hls & _).
  destruct (lookup_lt_is_Some_2 (sourceElements this) i) as [s Hs]; [lia |].
  eexists tt, _. split; [now apply (source_setAttribute_run this i s) |].
  apply (stable_step a this0 this _ Hst); [| reflexivity].
  now apply (skeleton_set_sourceElements this i s).
Qed.

Lemma label_setAttribute_stable a this0 i f :
  (forall e, textTag (f e) = textTag e) ->
  (i < length (val this0))%nat ->
  returns (stable a this0) (label_setAttribute (Some i) f) (fun _ => stable a this0).
Proof.
  intros Hf Hi this Hst.
  destruct (stable_length _ _ _ Hst) as (_ & _ & Hll).
  destruct (lookup_lt_is_Some_2 (labelElements this) i) as [l Hl]; [lia |].
  eexists tt, _. split; [now apply (label_setAttribute_run this i l) |].
  apply (stable_step a this0 this _ Hst); [| reflexivity].
  now apply (skeleton_set_labelElements this i l).
Qed.

Lemma stable_active i this0 this :
  stable (Some i) this0 this -> (i < length (val this0))%nat.
Proof.
  intros Hst. destruct (stable_length _ _ _ Hst) as (Hlp & _).
  destruct Hst as (Hinv & Ha & _). rewrite <- Hlp.
  now apply (inv_active this Hinv).
Qed.

Lemma drawEmphasisCircle_stable i this0 :
  returns (stable (Some i) this0) drawEmphasisCircle (fun _ => stable (Some i) this0).
Proof.
  intros this Hst. pose proof (stable_active _ _ _ Hst) as Hi.
  destruct (stable_length _ _ _ Hst) as (_ & Hls & _).
  pose proof Hst as (_ & Ha & _).
  destruct (lookup_lt_is_Some_2 (sourceElements this) i) as [s Hs]; [lia |].
  eexists tt, _. split; [now apply (drawEmphasisCircle_run this i s) |].
  apply (stable_step _ this0 this _ Hst); [| reflexivity].
  now apply skeleton_emphasized.
Qed.

Lemma processToTransmit_stable a this0 :
  returns (stable a this0) processToTransmit (fun _ => stable a this0).
Proof.
  intros this Hst. pose proof Hst as (Hinv & Ha & _).
  destruct (decide (transmitMode this = 1%Z /\ activePoint this = None))
    as [[Hm Hn] | Hrun].
  - exists tt, this. split; [now apply processToTransmit_silent | exact Hst].
  - exists tt, (transmitted this). split.
    + apply processToTransmit_run.
      * intros j Hj. apply lookup_lt_is_Some. now apply (inv_active this Hinv).
      * intros Hm. destruct (activePoint this); [eauto | tauto].
    + now apply (stable_step a this0 this _ Hst).
Qed.

#[local] Hint Resolve write_xy_stable scaleNode_stable source_setAttribute_stable
  label_setAttribute_stable drawEmphasisCircle_stable processToTransmit_stable
  returns_skip : returns.

(** One statement of a method, then the rest. *)
Ltac returns_step :=
  eapply returns_bind;
  [solve [eauto with returns] | let u := fresh "u" in intros u; cbv beta; clear u].

(** Reads the goal left by [returns_get] as a statement of [returns]. *)
Ltac as_returns P Q :=
  match goal with
  | Hst : P ?this |- _ =>
      revert this Hst; refine (_ : returns P _ Q)
  end.

Lemma move_stable a this0 :
  returns (stable a this0) move (fun _ => stable a this0).
Proof.
  unfold move, render. apply returns_get. intros this Hst.
  destruct (clickable this); [| now exists tt, this].
  destruct (clicked this); [| now exists tt, this].
  pose proof Hst as (_ & Ha & _). rewrite Ha. clear Ha.
  generalize (XY.x (mouse this)) (XY.y (mouse this)). intros mx my.
  destruct a as [i |].
  - pose proof (stable_active _ _ _ Hst) as Hi.
    as_returns (stable (Some i) this0) (fun _ : unit => stable (Some i) this0).
    eapply returns_bind.
    { do 3 returns_step.
      apply returns_get. intros this Hst. cbv beta in Hst.
      destruct (stable_length _ _ _ Hst) as (Hlp & _ & _).
      destruct (lookup_lt_is_Some_2 (val this) i) as [p Hp]; [lia |].
      rewrite Hp, bind_defined.
      generalize (Point.y p + nodeSize this + 20). intros ly. clear Hlp Hp.
      as_returns (stable (Some i) this0) (fun _ : unit => stable (Some i) this0).
      do 3 returns_step. eauto with returns. }
    intros u. cbv beta. clear u. returns_step. eauto with returns.
  - as_returns (stable None this0) (fun _ : unit => stable None this0).
    do 2 returns_step. eauto with returns.
Qed.

Lemma release_stable a this0 :
  returns (stable a this0) release (fun _ => stable a this0).
Proof.
  unfold release, render. apply returns_get. intros this Hst.
  destruct (clickable this); [| now exists tt, this].
  as_returns (stable a this0) (fun _ : unit => stable a this0).
  do 2 returns_step. eauto with returns.
Qed.

(** *** The methods keep the invariant *)

Lemma invariant_stable this : invariant this -> stable (activePoint this) this this.
Proof. intros Hinv. split; [exact Hinv | split; reflexivity]. Qed.

Lemma returns_invariant (m : Method unit) :
  (forall a this0, returns (stable a this0) m (fun _ => stable a this0)) ->
  returns invariant m (fun _ => invariant).
Proof.
  intros Hm this Hinv.
  destruct (Hm _ this this (invariant_stable this Hinv)) as (u & this' & Hrun & Hst).
  exists u, this'. split; [exact Hrun | apply Hst].
Qed.

Lemma setActivePoint_invariant x y :
  returns invariant (setActivePoint x y) (fun _ => invariant).
Proof.
  intros this Hinv. eexists tt, _. split; [reflexivity |].
  apply (invariant_skeleton this); [reflexivity | | exact Hinv].
  right. intros i Hi. simpl in Hi.
  apply lookup_lt_is_Some. now apply (hitTest_Some_lookup this x y).
Qed.

Lemma generated_invariant this x y label colorIndex :
  invariant this -> invariant (generated this x y label colorIndex).
Proof.
  intros [Hn Hm Hl Hlock Hact]. split; try assumption.
  - now apply generated_lockstep.
  - intros i Hi. simpl in *. inversion Hi; subst i.
    rewrite length_app. simpl. lia.
Qed.

Lemma generateNewPoint_invariant x y label colorIndex :
  returns invariant (generateNewPoint x y label colorIndex)
    (fun _ this' => invariant this' /\ is_Some (activePoint this')).
Proof.
  intros this Hinv. eexists tt, _. split.
  - apply generateNewPoint_run. rewrite (inv_nodeSize this Hinv). lra.
  - split; [now apply generated_invariant | simpl; eauto].
Qed.

Lemma drawEmphasisCircle_invariant :
  returns (fun this => invariant this /\ is_Some (activePoint this))
    drawEmphasisCircle (fun _ => invariant).
Proof.
  intros this [Hinv [i Hi]].
  destruct (drawEmphasisCircle_stable i this this) as (u & this' & Hrun & Hst).
  { rewrite <- Hi. now apply invariant_stable. }
  exists u, this'. split; [exact Hrun | apply Hst].
Qed.

Lemma click_invariant : returns invariant click (fun _ => invariant).
Proof.
  unfold click. apply returns_get. intros this Hinv.
  destruct (clickable this); [| now exists tt, this].
  generalize (XY.x (mouse this)) (XY.y (mouse this)). intros mx my.
  revert this Hinv. refine (_ : returns invariant _ (fun _ => invariant)).
  eapply returns_bind; [apply setActivePoint_invariant | intros u; cbv beta; clear u].
  apply returns_get. intros this Hinv. clear mx my.
  generalize (pointLabel (length (val this) + 1)) (currentColorIndex this).
  intros label color.
  generalize (XY.x (mouse this)) (XY.y (mouse this)). intros mx my.
  assert (returns invariant
            (if newPointsGeneratable this
             then match activePoint this with
                  | Some _ => ret tt
                  | None => generateNewPoint mx my label color
                  end
             else ret tt) (fun _ => invariant)) as Hgen.
  { destruct (newPointsGeneratable this); [| apply returns_skip].
    destruct (activePoint this); [apply returns_skip |].
    eapply returns_conseq; [apply generateNewPoint_invariant | auto |].
    intros _ this' [H _]. exact H. }
  revert Hgen. generalize (if newPointsGeneratable this
             then match activePoint this with
                  | Some _ => ret tt
                  | None => generateNewPoint mx my label color
                  end
             else ret tt). intros m Hgen.
  revert this Hinv. refine (_ : returns invariant _ (fun _ => invariant)).
  eapply returns_bind; [exact Hgen | intros u; cbv beta; clear u].
  eapply returns_bind;
    [apply returns_invariant, scaleNode_stable | intros u; cbv beta; clear u].
  eapply returns_bind;
    [apply returns_invariant, processToTransmit_stable | intros u; cbv beta; clear u].
  apply returns_invariant, move_stable.
Qed.

Lemma addNewPoint_invariant distance angle label colorIndex :
  returns invariant (addNewPoint distance angle label colorIndex) (fun _ => invariant).
Proof.
  unfold addNewPoint. apply returns_get. intros this Hinv.
  generalize (panelCoordinates this distance angle). intros xy.
  revert this Hinv. refine (_ : returns invariant _ (fun _ => invariant)).
  eapply returns_bind; [apply generateNewPoint_invariant | intros u; cbv beta; clear u].
  apply drawEmphasisCircle_invariant.
Qed.

Lemma moveExistingPoint_invariant pointIndex distance angle :
  returns (fun this => invariant this /\ is_Some (at_Z (val this) pointIndex))
    (moveExistingPoint pointIndex distance angle) (fun _ => invariant).
Proof.
  intros this [Hinv [p Hp]].
  pose proof (lookup_lt_Some _ _ _ (at_Z_Some _ _ _ Hp)) as Hi.
  pose proof (invariant_stable this Hinv) as Hst.
  unfold moveExistingPoint. rewrite bind_get, Hp, bind_defined.
  generalize (panelCoordinates this distance angle). intros xy.
  assert (returns (stable (activePoint this) this)
            (write_xy (Some (Z.to_nat pointIndex)) (XY.x xy) (XY.y xy);;
             this0 <- get;;
             p0 <- defined (val this0 !! Z.to_nat pointIndex);;
             source_setAttribute (Some (Z.to_nat pointIndex)) (Circle.set_cx (Point.x p0));;
             source_setAttribute (Some (Z.to_nat pointIndex)) (Circle.set_cy (Point.y p0));;
             label_setAttribute (Some (Z.to_nat pointIndex)) (Text.set_x (Point.x p0));;
             label_setAttribute (Some (Z.to_nat pointIndex))
               (Text.set_y (Point.y p0 + nodeSize this0 + 20));;
             scaleNode)
            (fun _ => stable (activePoint this) this)) as Hreturns.
  { generalize (activePoint this). intros a. clear Hinv Hst p Hp.
    returns_step. apply returns_get. intros this1 Hst1. cbv beta in Hst1.
    destruct (stable_length _ _ _ Hst1) as (Hlp & _ & _).
    destruct (lookup_lt_is_Some_2 (val this1) (Z.to_nat pointIndex)) as [p1 Hp1];
      [lia |].
    rewrite Hp1, bind_defined.
    generalize (Point.y p1 + nodeSize this1 + 20). intros ly. clear Hlp Hp1.
    revert this1 Hst1. refine (_ : returns (stable a this) _ (fun _ => stable a this)).
    do 4 returns_step. eauto with returns. }
  destruct (Hreturns this Hst) as (u & this' & Hrun & Hst').
  exists u, this'. split; [exact Hrun | apply Hst'].
Qed.

Lemma changeColorIndexOfActivePoint_run this i p s colorIndex :
  activePoint this = Some i ->
  val this !! i = Some p ->
  sourceElements this !! i = Some s ->
  changeColorIndexOfActivePoint colorIndex this =
  (Normal tt,
   set_sourceElements
     (<[i := Circle.set_fill (customColor this colorIndex) s]> (sourceElements this))
     (set_val (<[i := Point.set_colorIndex colorIndex p]> (val this)) this)).
Proof.
  intros Ha Hp Hs. unfold changeColorIndexOfActivePoint.
  rewrite bind_get, Ha, Hp, bind_defined.
  unfold bind at 1, modify at 1.
  now rewrite (source_setAttribute_run _ i s).
Qed.

Lemma recolored_lockstep this i p s colorIndex :
  val this !! i = Some p ->
  sourceElements this !! i = Some s ->
  lockstep this ->
  lockstep
    (set_sourceElements
       (<[i := Circle.set_fill (customColor this colorIndex) s]> (sourceElements this))
       (set_val (<[i := Point.set_colorIndex colorIndex p]> (val this)) this)).
Proof.
  intros Hp Hs [Hls Hll Hpair Hc]. split; simpl.
  - now rewrite !length_insert.
  - now rewrite length_insert.
  - intros j p' s' l' Hp' Hs' Hl'.
    destruct (decide (j = i)) as [-> | Hne].
    + rewrite list_lookup_insert_eq in Hp' by (now apply lookup_lt_Some in Hp).
      rewrite list_lookup_insert_eq in Hs' by (now apply lookup_lt_Some in Hs).
      inversion Hp'; inversion Hs'; subst.
      destruct (Hpair i p s l' Hp Hs Hl') as [Htext _].
      split; [exact Htext | reflexivity].
    + rewrite list_lookup_insert_ne in Hp' by congruence.
      rewrite list_lookup_insert_ne in Hs' by congruence.
      now apply (Hpair j).
  - intros e He. rewrite list_fmap_insert.
    change (Circle.eid (Circle.set_fill (customColor this colorIndex) s))
      with (Circle.eid s).
    rewrite list_insert_id by (now rewrite list_lookup_fmap, Hs).
    now apply Hc.
Qed.

Lemma changeColorIndexOfActivePoint_invariant colorIndex :
  returns invariant (changeColorIndexOfActivePoint colorIndex) (fun _ => invariant).
Proof.
  intros this Hinv. pose proof Hinv as [Hn Hm Hl Hlock Hact].
  destruct (activePoint this) as [i |] eqn:Ha.
  - pose proof (Hact i Ha) as Hi.
    destruct (lookup_lt_is_Some_2 (val this) i Hi) as [p Hp].
    destruct (lookup_lt_is_Some_2 (sourceElements this) i) as [s Hs];
      [now rewrite (lockstep_sources this Hlock) |].
    eexists tt, _.
    split; [now apply (changeColorIndexOfActivePoint_run this i p s) |].
    split; try assumption.
    + now apply recolored_lockstep.
    + intros j Hj. simpl in *. rewrite length_insert. apply Hact. congruence.
  - exists tt, this.
    split; [now apply changeColorIndexOfActivePoint_none | exact Hinv].
Qed.

Lemma removeActivePoint_invariant :
  returns invariant removeActivePoint (fun _ => invariant).
Proof.
  intros this Hinv. pose proof Hinv as [Hn Hm Hl Hlock Hact].
  destruct (activePoint this) as [i |] eqn:Ha.
  - pose proof (Hact i Ha) as Hi.
    destruct (lookup_lt_is_Some_2 (sourceElements this) i) as [s Hs];
      [now rewrite (lockstep_sources this Hlock) |].
    destruct (lookup_lt_is_Some_2 (labelElements this) i) as [l Hl'];
      [now rewrite (lockstep_labels this Hlock) |].
    exists tt, (removed this i s l).
    split; [now apply removeActivePoint_run |].
    split; try assumption.
    + now apply removed_lockstep.
    + intros j Hj. discriminate.
  - exists tt, this. split; [now apply removeActivePoint_none | exact Hinv].
Qed.

Lemma removeAllPoints_invariant :
  returns invariant removeAllPoints (fun _ => invariant).
Proof.
  intros this Hinv. pose proof Hinv as [Hn Hm [Hlx Hly] Hlock Hact].
  destruct (removeAllPoints_loop_run (length (val this)) this)
    as (this' & Hrun & Hv & Hs & Hl & _ & Hk & He).
  { reflexivity. } { apply Hlock. } { apply Hlock. }
  destruct (constants_eq _ _ Hk) as (Hn' & Hm' & Hl' & Hcx & Hcy & _ & Hb & Hli).
  exists tt, (set_activePoint None this'). split.
  - unfold removeAllPoints. rewrite bind_get.
    now rewrite (bind_normal _ _ this tt this' Hrun).
  - split; simpl.
    + congruence.
    + congruence.
    + rewrite Hl', Hcx, Hcy. tauto.
    + split; simpl.
      * now rewrite Hs, Hv.
      * now rewrite Hl, Hv.
      * intros i p s l Hp. rewrite Hv in Hp. discriminate.
      * intros e Hin. rewrite Hb, Hli. destruct (He e Hin) as (He1 & He2 & He3).
        destruct (lockstep_children this Hlock e He1) as [H | [H | [H | H]]]; tauto.
    + intros i Hi. discriminate.
Qed.

(** What a call leaves of the invariant, and when it returns: every call
    but a [moveExistingPoint] past the ends of [val] returns. *)
Lemma run_invariant c this :
  invariant this ->
  invariant (snd (run c this))
  /\ (fst (run c this) = Normal tt
      \/ exists pointIndex distance angle,
           c = MoveExistingPoint pointIndex distance angle
           /\ at_Z (val this) pointIndex = None
           /\ run c this = (TypeError, this)).
Proof.
  intros Hinv.
  assert (forall m : Method unit,
             returns invariant m (fun _ => invariant) ->
             invariant (snd (m this)) /\ fst (m this) = Normal tt) as Hret.
  { intros m Hm. destruct (Hm this Hinv) as ([] & this' & Hrun & Hinv').
    rewrite Hrun. split; [exact Hinv' | reflexivity]. }
  destruct c; simpl.
  - destruct (Hret _ click_invariant); auto.
  - destruct (Hret _ (returns_invariant _ move_stable)); auto.
  - destruct (Hret _ (returns_invariant _ release_stable)); auto.
  - destruct (Hret _ (addNewPoint_invariant distance angle label colorIndex)); auto.
  - destruct (at_Z (val this) pointIndex) as [p |] eqn:Hp.
    + destruct (moveExistingPoint_invariant pointIndex distance angle this)
        as ([] & this' & Hrun & Hinv'); [split; [exact Hinv | rewrite Hp; eauto] |].
      rewrite Hrun. auto.
    + rewrite (moveExistingPoint_throws this pointIndex distance angle Hp).
      split; [exact Hinv |]. right. eauto 6.
  - destruct (Hret _ (changeColorIndexOfActivePoint_invariant colorIndex)); auto.
  - destruct (Hret _ removeActivePoint_invariant); auto.
  - destruct (Hret _ removeAllPoints_invariant); auto.
Qed.

(** Every reachable widget satisfies the invariant: [nodeSize] is 30 and
    [meterScale] 100, the listener is at the panel center, the points and
    their elements are in lockstep and the active index is in range. *)
Lemma reachable_invariant this : reachable this -> invariant this.
Proof.
  induction 1 as [size | m down this _ IH | orientation relative this _ IH
                  | mode this _ IH | editable generatable color this _ IH
                  | c this _ IH].
  - apply invariant_constructor.
  - apply (invariant_skeleton this); [reflexivity | now left | exact IH].
  - apply (invariant_skeleton this); [reflexivity | now left | exact IH].
  - apply (invariant_skeleton this); [reflexivity | now left | exact IH].
  - apply (invariant_skeleton this); [reflexivity | now left | exact IH].
  - now apply run_invariant.
Qed.

(** ** The panel with a point on the boundary *)

Lemma clipped_ext this this' x y :
  circleCenterX this' = circleCenterX this ->
  circleCenterY this' = circleCenterY this ->
  bgRadius this' = bgRadius this ->
  clipped this' x y = clipped this x y.
Proof. intros Hx Hy Hr. unfold clipped. now rewrite Hx, Hy, Hr. Qed.

Lemma set_mouse_fields m down this :
  val (set_mouse m down this) = val this
  /\ activePoint (set_mouse m down this) = activePoint this
  /\ clickable (set_mouse m down this) = clickable this
  /\ nodeSize (set_mouse m down this) = nodeSize this
  /\ circleCenterX (set_mouse m down this) = circleCenterX this
  /\ circleCenterY (set_mouse m down this) = circleCenterY this
  /\ bgRadius (set_mouse m down this) = bgRadius this
  /\ transmitMode (set_mouse m down this) = transmitMode this.
Proof. repeat split; reflexivity. Qed.

Lemma added_fields this distance angle label colorIndex :
  activePoint (added this distance angle label colorIndex) = Some (length (val this))
  /\ clickable (added this distance angle label colorIndex) = clickable this
  /\ nodeSize (added this distance angle label colorIndex) = nodeSize this
  /\ circleCenterX (added this distance angle label colorIndex) = circleCenterX this
  /\ circleCenterY (added this distance angle label colorIndex) = circleCenterY this
  /\ bgRadius (added this distance angle label colorIndex) = bgRadius this
  /\ transmitMode (added this distance angle label colorIndex) = transmitMode this.
Proof. repeat split; reflexivity. Qed.

Lemma boundary_panel_added :
  boundary_panel
  = set_mouse (XY.new 670 350) true (added (constructor defaults_size) 3 90 "S1" 0).
Proof.
  unfold boundary_panel, run.
  rewrite addNewPoint_added; [reflexivity | simpl; lra | reflexivity].
Qed.

Lemma reachable_boundary_panel : reachable boundary_panel.
Proof. unfold boundary_panel. apply reach_mouse, reach_call, reach_new. Qed.

Lemma val_boundary_panel :
  val boundary_panel = [Point.new 650 350 "S1" 0%Z].
Proof.
  rewrite boundary_panel_added.
  rewrite (proj1 (set_mouse_fields _ _ _)), val_added.
  - rewrite panelCoordinates_90. simpl. repeat f_equal; lra.
  - lra.
  - rewrite bgRadius_default. simpl. lra.
Qed.

Lemma boundary_panel_fields :
  activePoint boundary_panel = Some 0%nat
  /\ clickable boundary_panel = true
  /\ nodeSize boundary_panel = 30
  /\ circleCenterX boundary_panel = 350
  /\ circleCenterY boundary_panel = 350
  /\ bgRadius boundary_panel = 300
  /\ transmitMode boundary_panel = 1%Z.
Proof.
  rewrite boundary_panel_added.
  destruct (set_mouse_fields (XY.new 670 350) true
              (added (constructor defaults_size) 3 90 "S1" 0))
    as (_ & -> & -> & -> & -> & -> & -> & ->).
  destruct (added_fields (constructor defaults_size) 3 90 "S1" 0)
    as (-> & -> & -> & -> & -> & -> & ->).
  rewrite bgRadius_default. simpl. repeat split; lra.
Qed.

Lemma hitTest_boundary_panel : hitTest boundary_panel 670 350 = Some 0%nat.
Proof.
  destruct boundary_panel_fields as (_ & _ & Hn & _).
  unfold hitTest. rewrite val_boundary_panel.
  cbn [setActivePoint_loop]. unfold inBox. rewrite Hn. cbn [Point.x Point.y].
  rewrite !bool_decide_eq_true_2 by lra. reflexivity.
Qed.

Lemma clipped_boundary_panel :
  clipped boundary_panel 670 350 = XY.new 650 350.
Proof.
  destruct boundary_panel_fields as (_ & _ & _ & Hx & Hy & Hr & _).
  rewrite clipped_outside; rewrite Hx, Hy, Hr; [| lra].
  replace (350 - 350) with 0 by lra.
  rewrite atan2_0_pos by lra. rewrite cos_0, sin_0. f_equal; lra.
Qed.

Lemma mouse_boundary_panel : mouse boundary_panel = XY.new 670 350.
Proof. reflexivity. Qed.

(** The pointer goes down at (670, 350) on the point at (650, 350) of the
    default panel: the point stays at (650, 350), on the boundary circle. *)
Lemma click_beyond_boundary :
  reachable boundary_panel
  /\ clickable boundary_panel = true
  /\ clicked boundary_panel = true
  /\ hitTest boundary_panel (XY.x (mouse boundary_panel)) (XY.y (mouse boundary_panel))
     = Some 0%nat
  /\ exists this' p',
       click boundary_panel = (Normal tt, this')
       /\ val this' !! 0%nat = Some p'
       /\ XY.x (mouse boundary_panel) = 670
       /\ Point.x p' = 650
       /\ Point.x p' <> XY.x (mouse boundary_panel).
Proof.
  destruct boundary_panel_fields as (_ & Hc & _).
  split; [exact reachable_boundary_panel |].
  split; [exact Hc |].
  split; [reflexivity |].
  rewrite mouse_boundary_panel. cbn [XY.x XY.y].
  split; [exact hitTest_boundary_panel |].
  assert (val boundary_panel !! 0%nat = Some (Point.new 650 350 "S1" 0%Z)) as Hp
    by now rewrite val_boundary_panel.
  pose proof (lockstep_sources _ (inv_lockstep _ (reachable_invariant _ reachable_boundary_panel)))
    as Hls.
  pose proof (lockstep_labels _ (inv_lockstep _ (reachable_invariant _ reachable_boundary_panel)))
    as Hll.
  rewrite val_boundary_panel in Hls, Hll. cbn [length] in Hls, Hll.
  destruct (lookup_lt_is_Some_2 (sourceElements boundary_panel) 0%nat) as [s Hs]; [lia |].
  destruct (lookup_lt_is_Some_2 (labelElements boundary_panel) 0%nat) as [l Hl]; [lia |].
  destruct (clickedOn_point boundary_panel 0%nat _ s l Hp Hs) as [Hval _].
  rewrite mouse_boundary_panel in Hval. cbn [XY.x XY.y] in Hval.
  rewrite clipped_boundary_panel in Hval.
  eexists _, _.
  split.
  { apply (click_hit_run boundary_panel 0%nat (Point.new 650 350 "S1" 0%Z) s l);
      try assumption.
    - reflexivity.
    - rewrite mouse_boundary_panel. exact hitTest_boundary_panel. }
  split; [exact Hval |].
  cbn [Point.x XY.x]. repeat split; lra.
Qed.

(** ** The panel of 80 by 80 pixels *)








(** * Properties of the reachable widgets *)

(** C10, amended: when the pointer goes down on an existing point of a
    reachable widget, [click] stores the pointer position clipped to the
    boundary as the position of that point and of its marker, which is the
    pointer position itself when the pointer is within the boundary radius
    of the center; and it emits two [change] events. *)
Theorem click_snaps_to_clipped_pointer this i :
  reachable this ->
  clickable this = true ->
  clicked this = true ->
  hitTest this (XY.x (mouse this)) (XY.y (mouse this)) = Some i ->
  exists this' p' s' first second,
    click this = (Normal tt, this')
    /\ emitted this' = emitted this ++ [first; second]
    /\ val this' !! i = Some p'
    /\ sourceElements this' !! i = Some s'
    /\ Point.x p' = XY.x (clipped this (XY.x (mouse this)) (XY.y (mouse this)))
    /\ Point.y p' = XY.y (clipped this (XY.x (mouse this)) (XY.y (mouse this)))
    /\ Circle.cx s' = Point.x p'
    /\ Circle.cy s' = Point.y p'
    /\ ((XY.x (mouse this) - circleCenterX this) * (XY.x (mouse this) - circleCenterX this)
        + (XY.y (mouse this) - circleCenterY this) * (XY.y (mouse this) - circleCenterY this)
        <= bgRadius this * bgRadius this ->
        Point.x p' = XY.x (mouse this) /\ Point.y p' = XY.y (mouse this)).
Proof.
  intros Hreach Hc Hd Hhit.
  apply click_on_point; try assumption.
  now apply inv_lockstep, reachable_invariant.
Qed.

Lemma click_snaps_to_clipped_pointer_witness :
  exists this',
    click boundary_panel = (Normal tt, this')
    /\ length (emitted this') = (length (emitted boundary_panel) + 2)%nat.
Proof.
  destruct (click_snaps_to_clipped_pointer boundary_panel 0%nat)
    as (this' & p' & s' & first & second & Hrun & Hem & _).
  - exact reachable_boundary_panel.
  - apply boundary_panel_fields.
  - reflexivity.
  - rewrite mouse_boundary_panel. exact hitTest_boundary_panel.
  - exists this'. split; [exact Hrun |].
    rewrite Hem, length_app. reflexivity.
Defined.

(** C4: in transmit mode 1, in a reachable widget, [processToTransmit] emits
    nothing when no point is active, and otherwise emits one event, with the
    index of the active point, its distance from the listener and its angle,
    the listener being at the panel center the angle is taken from. *)
Theorem processToTransmit_active this :
  reachable this ->
  transmitMode this = 1%Z ->
  match activePoint this with
  | None => processToTransmit this = (Normal tt, this)
  | Some i =>
      exists p,
        val this !! i = Some p
        /\ processToTransmit this =
           (Normal tt,
            set_emitted
              (emitted this ++
               [ActivePoint i (calculateAngle this p)
                  (calculateDistance this (listenerPoint this) p)]) this)
        /\ Point.x (listenerPoint this) = circleCenterX this
        /\ Point.y (listenerPoint this) = circleCenterY this
  end.
Proof.
  intros Hreach Hmode.
  pose proof (reachable_invariant this Hreach) as Hinv.
  pose proof (processToTransmit_mode1 this Hmode) as Hrun.
  destruct (activePoint this) as [i |] eqn:Ha; [| exact Hrun].
  destruct (lookup_lt_is_Some_2 (val this) i) as [p Hp];
    [now apply (inv_active this Hinv) |].
  exists p. split; [exact Hp |]. split; [now apply Hrun |].
  apply (inv_listener this Hinv).
Qed.

Lemma processToTransmit_active_witness :
  processToTransmit (constructor defaults_size) = (Normal tt, constructor defaults_size)
  /\ exists p,
       val boundary_panel !! 0%nat = Some p
       /\ emitted (snd (processToTransmit boundary_panel))
          = emitted boundary_panel ++
            [ActivePoint 0 (calculateAngle boundary_panel p)
               (calculateDistance boundary_panel (listenerPoint boundary_panel) p)].
Proof.
  split.
  - apply (processToTransmit_active (constructor defaults_size));
      [apply reach_new | reflexivity].
  - pose proof (processToTransmit_active boundary_panel reachable_boundary_panel) as H.
    rewrite (proj1 boundary_panel_fields) in H.
    destruct H as (p & Hp & Hrun & _); [apply boundary_panel_fields |].
    exists p. split; [exact Hp |]. rewrite Hrun. reflexivity.
Defined.

(** C9: in a reachable widget the points, the markers and the labels are in
    lockstep, and point creation, removal of the active point and removal of
    all points return and keep them so; removing all points leaves no point,
    no active index, no marker, no label, and no child of [this.element] but
    the two fixed circles. *)
Theorem lockstep_preserved this :
  reachable this ->
  lockstep this
  /\ (forall x y label colorIndex,
        exists this',
          generateNewPoint x y label colorIndex this = (Normal tt, this')
          /\ lockstep this'
          /\ length (val this') = S (length (val this)))
  /\ (exists this',
        removeActivePoint this = (Normal tt, this')
        /\ lockstep this'
        /\ activePoint this' = None)
  /\ (exists this',
        removeAllPoints this = (Normal tt, this')
        /\ lockstep this'
        /\ val this' = []
        /\ activePoint this' = None
        /\ sourceElements this' = []
        /\ labelElements this' = []
        /\ forall e,
             e ∈ element this' ->
             e = backgroundCircle this' \/ e = listener this').
Proof.
  intros Hreach.
  pose proof (reachable_invariant this Hreach) as Hinv.
  pose proof (inv_lockstep this Hinv) as Hlock.
  assert (0 <= nodeSize this) as Hn by (rewrite (inv_nodeSize this Hinv); lra).
  destruct (lockstep_operations this Hlock Hn) as (Hgen & [Hrem Hret] & Hall).
  split; [exact Hlock |]. split; [exact Hgen |]. split; [| exact Hall].
  destruct (removeActivePoint_returns this Hlock (inv_active this Hinv)) as [Hfst Hnone].
  exists (snd (removeActivePoint this)).
  split; [| split; assumption].
  rewrite <- Hfst. now destruct (removeActivePoint this).
Qed.

Lemma lockstep_preserved_witness :
  lockstep boundary_panel
  /\ exists this',
       removeAllPoints boundary_panel = (Normal tt, this') /\ val this' = [].
Proof.
  destruct (lockstep_preserved boundary_panel reachable_boundary_panel)
    as (Hlock & _ & _ & this' & Hrun & _ & Hval & _).
  split; [exact Hlock |]. exists this'. split; assumption.
Defined.

(** C3, amended: for a distance greater than 0 and an angle of [0, 360), in
    a reachable widget whose angles are not relative to the head, the
    distance from the listener and the angle calculated for the panel
    coordinates of the distance and the angle are that distance and that
    angle; and the angle read back for the point that
    [addNewPoint(2.0, 0, "S1", 0)] makes on the default panel is 0. *)
Theorem polar_round_trip :
  (forall this distance angle label colorIndex,
      reachable this ->
      angleRelativeToHead this = false ->
      0 < distance ->
      0 <= angle < 360 ->
      let c := panelCoordinates this distance angle in
      let p := Point.new (XY.x c) (XY.y c) label colorIndex in
      calculateDistance this (listenerPoint this) p = distance
      /\ calculateAngle this p = angle)
  /\ exists this' p,
       addNewPoint 2 0 "S1" 0 (constructor defaults_size) = (Normal tt, this')
       /\ val this' = [p]
       /\ calculateAngle this' p = 0.
Proof.
  split.
  - intros this distance angle label colorIndex Hreach.
    pose proof (reachable_invariant this Hreach) as Hinv.
    apply round_trip.
    + rewrite (inv_meterScale this Hinv). lra.
    + apply (inv_listener this Hinv).
    + apply (inv_listener this Hinv).
  - destruct addNewPoint_S1 as (this' & p & Hrun & Hval & Hang & _).
    exists this', p. repeat split; assumption.
Qed.

Lemma polar_round_trip_witness :
  let this := constructor defaults_size in
  let c := panelCoordinates this 1 45 in
  calculateAngle this (Point.new (XY.x c) (XY.y c) "S1" 0%Z) = 45.
Proof.
  intros this c.
  destruct polar_round_trip as [Hround _].
  apply (Hround this 1 45 "S1"%string 0%Z);
    [apply reach_new | reflexivity | lra | lra].
Defined.



(** ** A point moved by [moveExistingPoint] *)

Lemma reachable_run_all calls :
  forall this, reachable this -> reachable (run_all calls this).
Proof.
  induction calls as [| c calls IH]; intros this Hreach; simpl.
  - exact Hreach.
  - apply IH. now apply reach_call.
Qed.

(** C2, what the code does: two points are added to the default panel,
    which leaves the second one active, and [moveExistingPoint] moves the
    first one to a distance of 10 meters; the widget reached holds that
    point 1000 pixels from the panel center, the boundary radius being 300:
    [scaleNode] has clipped the active point, not the point moved. *)
Theorem moveExistingPoint_escapes :
  let this' :=
    run_all [AddNewPoint 1 90 "S1" 0; AddNewPoint 1 90 "S2" 0;
             MoveExistingPoint 0 10 90] (constructor defaults_size) in
  reachable this'
  /\ activePoint this' = Some 1%nat
  /\ bgRadius this' = 300
  /\ exists p,
       val this' !! 0%nat = Some p
       /\ centerDistance this' (Point.x p) (Point.y p) = 1000
       /\ ~ (centerDistance this' (Point.x p) (Point.y p) <= bgRadius this').
Proof.
  intros this'.
  split; [apply reachable_run_all, reach_new |].
  set (this0 := constructor defaults_size).
  set (this1 := added this0 1 90 "S1" 0).
  set (this2 := added this1 1 90 "S2" 0).
  assert (addNewPoint 1 90 "S1" 0 this0 = (Normal tt, this1)) as Hrun1
    by (apply addNewPoint_added; [simpl; lra | reflexivity]).
  assert (addNewPoint 1 90 "S2" 0 this1 = (Normal tt, this2)) as Hrun2
    by (apply addNewPoint_added; [simpl; lra | reflexivity]).
  destruct (val this2 !! 0%nat) as [p |] eqn:Hp; [| discriminate].
  destruct (sourceElements this2 !! 0%nat) as [s |] eqn:Hs; [| discriminate].
  destruct (labelElements this2 !! 0%nat) as [l |] eqn:Hl; [| discriminate].
  destruct (val this2 !! 1%nat) as [q |] eqn:Hq; [| discriminate].
  set (this3 := movedTo this2 0 p s l 10 90).
  assert (moveExistingPoint 0 10 90 this2 = scaleNode this3) as Hrun3
    by (apply (moveExistingPoint_run this2 0 10 90 p s l); assumption).
  assert (val this3 !! 1%nat = Some q) as Hq3.
  { unfold this3, movedTo. cbn [val set_labelElements set_sourceElements set_val].
    rewrite list_lookup_insert_ne by lia. exact Hq. }
  assert (this' =
          set_val
            (<[1%nat := Point.new
                 (XY.x (clipped this3 (Point.x q) (Point.y q)))
                 (XY.y (clipped this3 (Point.x q) (Point.y q)))
                 (Point.label q) (Point.colorIndex q)]> (val this3)) this3) as ->.
  { unfold this', run_all. cbn [fold_left run].
    fold this0. rewrite Hrun1. cbn [snd]. rewrite Hrun2. cbn [snd].
    rewrite Hrun3.
    now rewrite (scaleNode_run this3 1%nat q eq_refl Hq3). }
  split; [reflexivity |].
  split; [apply bgRadius_default |].
  eexists. split.
  { cbn [val set_val]. rewrite list_lookup_insert_ne by lia.
    unfold this3, movedTo. cbn [val set_labelElements set_sourceElements set_val].
    apply list_lookup_insert_eq. now apply lookup_lt_Some in Hp. }
  assert (centerDistance this0 (10 * 100 + 700 / 2) (700 / 2) = 1000) as Hdist.
  { unfold centerDistance. cbn.
    replace ((10 * 100 + 700 / 2 - 700 / 2) * (10 * 100 + 700 / 2 - 700 / 2)
             + (700 / 2 - 700 / 2) * (700 / 2 - 700 / 2))
      with (1000 * 1000) by lra.
    apply sqrt_square. lra. }
  rewrite panelCoordinates_90.
  split.
  - exact Hdist.
  - intros Hle. change (centerDistance this0 (10 * 100 + 700 / 2) (700 / 2)
                        <= bgRadius this0) in Hle.
    rewrite Hdist in Hle. unfold this0 in Hle. rewrite bgRadius_default in Hle. lra.
Qed.

(** * Further properties of the code *)

(** ** The geometry of [scaleNode] *)

(** The square of the distance from the center of a point that [clipped]
    moved is the square of the boundary radius. *)
Lemma clipped_outside_distquad this px py :
  (px - circleCenterX this) * (px - circleCenterX this)
  + (py - circleCenterY this) * (py - circleCenterY this)
  > bgRadius this * bgRadius this ->
  (XY.x (clipped this px py) - circleCenterX this)
  * (XY.x (clipped this px py) - circleCenterX this)
  + (XY.y (clipped this px py) - circleCenterY this)
    * (XY.y (clipped this px py) - circleCenterY this)
  = bgRadius this * bgRadius this.
Proof.
  intros Hout. rewrite clipped_outside by exact Hout. cbn [XY.x XY.y].
  set (a := atan2 _ _).
  pose proof (sin2_cos2 a) as Hsc. unfold Rsqr in Hsc.
  transitivity (bgRadius this * bgRadius this * (sin a * sin a + cos a * cos a)).
  - ring.
  - rewrite Hsc. ring.
Qed.

Lemma clipped_idempotent this px py :
  clipped this (XY.x (clipped this px py)) (XY.y (clipped this px py))
  = clipped this px py.
Proof.
  destruct (Rgt_dec ((px - circleCenterX this) * (px - circleCenterX this)
                     + (py - circleCenterY this) * (py - circleCenterY this))
                    (bgRadius this * bgRadius this)) as [Hout | Hin].
  - rewrite (clipped_inside this (XY.x (clipped this px py))).
    + now destruct (clipped this px py).
    + rewrite clipped_outside_distquad by exact Hout. lra.
  - rewrite (clipped_inside this px py Hin). cbn [XY.x XY.y].
    now apply clipped_inside.
Qed.

Lemma scaleNode_throws this i :
  activePoint this = Some i -> val this !! i = None ->
  scaleNode this = (TypeError, this).
Proof.
  intros Ha Hp. unfold scaleNode. rewrite bind_get, Ha, Hp. reflexivity.
Qed.

(** X1. Running [scaleNode] a second time changes nothing: the widget and
    the completion are the ones of the first run, in every widget. *)
Theorem scaleNode_idempotent this :
  (scaleNode ;; scaleNode) this = scaleNode this.
Proof.
  destruct (activePoint this) as [i |] eqn:Ha.
  - destruct (val this !! i) as [p |] eqn:Hp.
    + rewrite (bind_normal _ _ _ _ _ (scaleNode_run this i p Ha Hp)).
      rewrite (scaleNode_run this i p Ha Hp).
      set (c := clipped this (Point.x p) (Point.y p)).
      set (p' := Point.new (XY.x c) (XY.y c) (Point.label p) (Point.colorIndex p)).
      rewrite (scaleNode_run (set_val (<[i := p']> (val this)) this) i p' Ha).
      * cbn [val set_val Point.x Point.y Point.label Point.colorIndex p'].
        rewrite (clipped_ext this _ (XY.x c) (XY.y c)) by reflexivity.
        unfold c. rewrite clipped_idempotent. fold c. fold p'.
        rewrite list_insert_insert_eq. reflexivity.
      * cbn [val set_val]. apply list_lookup_insert_eq.
        now apply lookup_lt_Some in Hp.
    + rewrite (bind_throw _ _ _ _ (scaleNode_throws this i Ha Hp)).
      now rewrite (scaleNode_throws this i Ha Hp).
  - rewrite (bind_normal _ _ _ _ _ (scaleNode_none this Ha)).
    reflexivity.
Qed.

Lemma distquad_nonneg a b : 0 <= a * a + b * b.
Proof. apply Rplus_le_le_0_compat; apply Rle_0_sqr. Qed.

(** The test of [scaleNode] on the squares is a test on the distance. *)
Lemma centerDistance_le this px py :
  0 <= bgRadius this ->
  centerDistance this px py <= bgRadius this <->
  ~ (px - circleCenterX this) * (px - circleCenterX this)
    + (py - circleCenterY this) * (py - circleCenterY this)
    > bgRadius this * bgRadius this.
Proof.
  intros Hr. unfold centerDistance.
  set (d := (px - circleCenterX this) * (px - circleCenterX this)
            + (py - circleCenterY this) * (py - circleCenterY this)).
  assert (0 <= d) as Hd by apply distquad_nonneg.
  split.
  - intros Hle Hgt.
    pose proof (sqrt_pos d) as Hs. pose proof (sqrt_sqrt d Hd) as Hss.
    assert (sqrt d * sqrt d <= bgRadius this * bgRadius this)
      by (apply Rmult_le_compat; lra).
    lra.
  - intros Hin. apply Rnot_gt_le in Hin.
    rewrite <- (sqrt_square (bgRadius this)) by exact Hr.
    apply sqrt_le_1; [exact Hd | apply Rle_0_sqr | exact Hin].
Qed.

Lemma set_val_id this : set_val (val this) this = this.
Proof. now destruct this. Qed.

Lemma point_eta p :
  Point.new (Point.x p) (Point.y p) (Point.label p) (Point.colorIndex p) = p.
Proof. now destruct p. Qed.

(** [scaleNode] on an active point that is not farther from the center than
    the boundary changes nothing. *)
Lemma scaleNode_inside this i p :
  activePoint this = Some i ->
  val this !! i = Some p ->
  ~ (Point.x p - circleCenterX this) * (Point.x p - circleCenterX this)
    + (Point.y p - circleCenterY this) * (Point.y p - circleCenterY this)
    > bgRadius this * bgRadius this ->
  scaleNode this = (Normal tt, this).
Proof.
  intros Ha Hp Hin. rewrite (scaleNode_run this i p Ha Hp).
  rewrite (clipped_inside this _ _ Hin). cbn [XY.x XY.y].
  rewrite point_eta, list_insert_id by exact Hp.
  now rewrite set_val_id.
Qed.

(** X2. With a boundary radius that is not negative, [scaleNode] leaves the
    widget as it is when the active point is within the boundary, and puts
    the point at exactly the boundary radius from the center, with its
    label and color, when it is beyond. *)
Theorem scaleNode_boundary this i p :
  activePoint this = Some i ->
  val this !! i = Some p ->
  0 <= bgRadius this ->
  (centerDistance this (Point.x p) (Point.y p) <= bgRadius this ->
   scaleNode this = (Normal tt, this))
  /\ (bgRadius this < centerDistance this (Point.x p) (Point.y p) ->
      exists p',
        scaleNode this = (Normal tt, set_val (<[i := p']> (val this)) this)
        /\ centerDistance this (Point.x p') (Point.y p') = bgRadius this
        /\ Point.label p' = Point.label p
        /\ Point.colorIndex p' = Point.colorIndex p).
Proof.
  intros Ha Hp Hr. split.
  - intros Hle. apply (scaleNode_inside this i p Ha Hp).
    now apply centerDistance_le.
  - intros Hgt.
    assert ((Point.x p - circleCenterX this) * (Point.x p - circleCenterX this)
            + (Point.y p - circleCenterY this) * (Point.y p - circleCenterY this)
            > bgRadius this * bgRadius this) as Hout.
    { destruct (Rgt_dec ((Point.x p - circleCenterX this) * (Point.x p - circleCenterX this)
            + (Point.y p - circleCenterY this) * (Point.y p - circleCenterY this))
            (bgRadius this * bgRadius this)) as [H | H]; [exact H |].
      apply (centerDistance_le this _ _ Hr) in H. lra. }
    eexists. split; [apply (scaleNode_run this i p Ha Hp) |].
    cbn [Point.x Point.y Point.label Point.colorIndex].
    split; [| split; reflexivity].
    unfold centerDistance. rewrite clipped_outside_distquad by exact Hout.
    now apply sqrt_square.
Qed.

Lemma scaleNode_boundary_witness :
  scaleNode boundary_panel = (Normal tt, boundary_panel).
Proof.
  destruct boundary_panel_fields as (Ha & _ & _ & Hx & Hy & Hr & _).
  destruct (scaleNode_boundary boundary_panel 0%nat (Point.new 650 350 "S1" 0%Z))
    as [Hin _].
  - exact Ha.
  - now rewrite val_boundary_panel.
  - rewrite Hr. lra.
  - apply Hin. unfold centerDistance. rewrite Hx, Hy, Hr. cbn [Point.x Point.y].
    replace ((650 - 350) * (650 - 350) + (350 - 350) * (350 - 350))
      with (300 * 300) by lra.
    rewrite sqrt_square; lra.
Defined.

(** ** Distances and conversions *)

(** X3. [convertToPixels] and [convertToMeters] are inverse to each other
    when [meterScale] is not 0. *)
Theorem convert_round_trip this v :
  meterScale this <> 0 ->
  convertToMeters this (convertToPixels this v) = v
  /\ convertToPixels this (convertToMeters this v) = v.
Proof.
  intros Hm. unfold convertToMeters, convertToPixels. split; now field.
Qed.

Lemma convert_round_trip_witness :
  convertToMeters (constructor defaults_size)
    (convertToPixels (constructor defaults_size) 2) = 2.
Proof.
  apply (convert_round_trip (constructor defaults_size) 2). simpl. lra.
Defined.

Lemma sqrt_sum_squares_0 a b : sqrt (a * a + b * b) = 0 -> a = 0 /\ b = 0.
Proof.
  intros H. apply sqrt_eq_0 in H; [| apply distquad_nonneg].
  pose proof (Rle_0_sqr a) as Ha. pose proof (Rle_0_sqr b) as Hb.
  split; apply Rsqr_0_uniq; unfold Rsqr in *; lra.
Qed.

(** The triangle inequality of the Euclidean norm. *)
Lemma norm_triangle a b c d :
  sqrt ((a + c) * (a + c) + (b + d) * (b + d))
  <= sqrt (a * a + b * b) + sqrt (c * c + d * d).
Proof.
  set (u := a * a + b * b). set (v := c * c + d * d).
  assert (0 <= u) as Hu by apply distquad_nonneg.
  assert (0 <= v) as Hv by apply distquad_nonneg.
  pose proof (sqrt_pos u) as Hsu. pose proof (sqrt_pos v) as Hsv.
  assert (a * c + b * d <= sqrt u * sqrt v) as Hcs.
  { rewrite <- sqrt_mult by assumption.
    apply Rle_trans with (sqrt ((a * c + b * d) * (a * c + b * d))).
    - change ((a * c + b * d) * (a * c + b * d)) with (Rsqr (a * c + b * d)).
      rewrite sqrt_Rsqr_abs. apply Rle_abs.
    - apply sqrt_le_1; [apply Rle_0_sqr | now apply Rmult_le_pos |].
      unfold u, v.
      pose proof (Rle_0_sqr (a * d - b * c)) as H. unfold Rsqr in H. lra. }
  rewrite <- (sqrt_square (sqrt u + sqrt v)) by lra.
  apply sqrt_le_1; [apply distquad_nonneg | apply Rle_0_sqr |].
  pose proof (sqrt_sqrt u Hu). pose proof (sqrt_sqrt v Hv).
  unfold u, v in *. nra.
Qed.

(** X4. [calculateDistance] is a distance when [meterScale] is positive: it
    is not negative, symmetric, zero exactly between two points at the same
    coordinates, and satisfies the triangle inequality. *)
Theorem calculateDistance_metric this a b c :
  0 < meterScale this ->
  0 <= calculateDistance this a b
  /\ calculateDistance this a b = calculateDistance this b a
  /\ (calculateDistance this a b = 0 <->
      Point.x a = Point.x b /\ Point.y a = Point.y b)
  /\ calculateDistance this a c
     <= calculateDistance this a b + calculateDistance this b c.
Proof.
  intros Hm. unfold calculateDistance, convertToMeters.
  assert (0 < / meterScale this) as Hi by now apply Rinv_0_lt_compat.
  unfold Rdiv. split; [| split; [| split; [split |]]].
  - apply Rmult_le_pos; [apply sqrt_pos | lra].
  - f_equal. f_equal. ring.
  - intros H. apply Rmult_integral in H. destruct H as [H | H]; [| lra].
    apply sqrt_sum_squares_0 in H. lra.
  - intros [Hx Hy]. rewrite Hx, Hy.
    replace ((Point.x b - Point.x b) * (Point.x b - Point.x b)
             + (Point.y b - Point.y b) * (Point.y b - Point.y b)) with 0 by ring.
    rewrite sqrt_0. ring.
  - rewrite <- Rmult_plus_distr_r. apply Rmult_le_compat_r; [lra |].
    replace (Point.x c - Point.x a)
      with ((Point.x b - Point.x a) + (Point.x c - Point.x b)) by ring.
    replace (Point.y c - Point.y a)
      with ((Point.y b - Point.y a) + (Point.y c - Point.y b)) by ring.
    apply norm_triangle.
Qed.

Lemma calculateDistance_metric_witness :
  let this := constructor defaults_size in
  calculateDistance this (listenerPoint this) (Point.new 250 350 "S1" 0%Z)
  = calculateDistance this (Point.new 250 350 "S1" 0%Z) (listenerPoint this).
Proof.
  intros this.
  apply (calculateDistance_metric this (listenerPoint this)
           (Point.new 250 350 "S1" 0%Z) (listenerPoint this)).
  simpl. lra.
Defined.

(** ** [polToCar] and the panel coordinates *)

Lemma cos_turn t : cos (t - 2 * PI) = cos t.
Proof.
  rewrite <- (cos_period (t - 2 * PI) 1). f_equal. simpl. ring.
Qed.

Lemma sin_turn t : sin (t - 2 * PI) = sin t.
Proof.
  rewrite <- (sin_period (t - 2 * PI) 1). f_equal. simpl. ring.
Qed.

(** X5. The vector [polToCar] returns has the length [|distance|], and
    [polToCar] has the period 360 in the angle. *)
Theorem polToCar_norm distance angleDeg :
  sqrt (XY.x (polToCar distance angleDeg) * XY.x (polToCar distance angleDeg)
        + XY.y (polToCar distance angleDeg) * XY.y (polToCar distance angleDeg))
  = Rabs distance
  /\ polToCar distance (angleDeg - 360) = polToCar distance angleDeg.
Proof.
  unfold polToCar. cbn [XY.x XY.y]. split.
  - set (t := angleDeg / 180 * PI).
    pose proof (sin2_cos2 t) as Hsc. unfold Rsqr in Hsc.
    replace (distance * cos t * (distance * cos t)
             + distance * sin t * (distance * sin t))
      with (distance * distance).
    + apply sqrt_Rsqr_abs.
    + transitivity (distance * distance * (sin t * sin t + cos t * cos t)).
      * rewrite Hsc. ring.
      * ring.
  - replace ((angleDeg - 360) / 180 * PI) with (angleDeg / 180 * PI - 2 * PI)
      by field.
    now rewrite cos_turn, sin_turn.
Qed.

(** The panel coordinates of any angle: the test on the turned angle makes
    no difference. *)
Lemma panelCoordinates_any this distance angle :
  panelCoordinates this distance angle
  = XY.new
      (distance * cos ((angle - 90) / 180 * PI) * meterScale this
       + circleCenterX this)
      (distance * sin ((angle - 90) / 180 * PI) * meterScale this
       + circleCenterY this).
Proof.
  unfold panelCoordinates, convertToPixels.
  case_bool_decide; [| reflexivity].
  destruct (polToCar_norm distance (angle - 90)) as [_ Hp].
  now rewrite Hp.
Qed.

(** X6. [addNewPoint] and [moveExistingPoint] place a point by the angle
    modulo 360: the coordinates of an angle and of the angle plus a full
    turn are the same, in either direction. *)
Theorem panelCoordinates_period this distance angle :
  panelCoordinates this distance (angle + 360)
  = panelCoordinates this distance angle
  /\ panelCoordinates this distance (angle - 360)
     = panelCoordinates this distance angle.
Proof.
  rewrite !panelCoordinates_any. split.
  - replace ((angle - 90) / 180 * PI) with ((angle + 360 - 90) / 180 * PI - 2 * PI)
      by field.
    now rewrite cos_turn, sin_turn.
  - replace ((angle - 360 - 90) / 180 * PI) with ((angle - 90) / 180 * PI - 2 * PI)
      by field.
    now rewrite cos_turn, sin_turn.
Qed.

(** ** The angles [calculateAngle] reports *)

(** On the positive y axis (down on the screen) the angle is PI/2. *)
Lemma atan2_pos_0 y : 0 < y -> atan2 y 0 = PI / 2.
Proof.
  intros Hy. unfold atan2.
  destruct (Rlt_dec 0 0); [lra |].
  destruct (Rlt_dec 0 y); [reflexivity | lra].
Qed.

(** X7. The angles are counted clockwise from the top of the panel: when
    the angle is not relative to the head, a point straight above the center
    is at 0 degrees, one to the right at 90, one below at 180 and one to the
    left at 270, whatever its distance [r] from the center. *)
Theorem calculateAngle_compass this r label colorIndex :
  angleRelativeToHead this = false ->
  0 < r ->
  calculateAngle this
    (Point.new (circleCenterX this) (circleCenterY this - r) label colorIndex) = 0
  /\ calculateAngle this
       (Point.new (circleCenterX this + r) (circleCenterY this) label colorIndex) = 90
  /\ calculateAngle this
       (Point.new (circleCenterX this) (circleCenterY this + r) label colorIndex) = 180
  /\ calculateAngle this
       (Point.new (circleCenterX this - r) (circleCenterY this) label colorIndex) = 270.
Proof.
  intros Hrel Hr. pose proof PI_RGT_0 as HPI.
  unfold calculateAngle. cbn [Point.x Point.y]. rewrite Hrel.
  replace (circleCenterX this - circleCenterX this) with 0 by ring.
  replace (circleCenterY this - circleCenterY this) with 0 by ring.
  replace (circleCenterY this - r - circleCenterY this) with (- r) by ring.
  replace (circleCenterX this + r - circleCenterX this) with r by ring.
  replace (circleCenterY this + r - circleCenterY this) with r by ring.
  replace (circleCenterX this - r - circleCenterX this) with (- r) by ring.
  rewrite atan2_neg_0, atan2_0_pos, atan2_pos_0, atan2_0_neg by lra.
  replace (- (PI / 2) * 180 / PI) with (-90) by (field; lra).
  replace (0 * 180 / PI) with 0 by (field; lra).
  replace (PI / 2 * 180 / PI) with 90 by (field; lra).
  rewrite PI_degrees.
  repeat split; repeat case_bool_decide; lra.
Qed.

Lemma calculateAngle_compass_witness :
  let this := constructor defaults_size in
  calculateAngle this
    (Point.new (circleCenterX this) (circleCenterY this - 100) "S1" 0%Z) = 0.
Proof.
  intros this.
  apply (calculateAngle_compass this 100 "S1" 0%Z); [reflexivity | lra].
Defined.

(** X8. The angle of a point depends on its direction from the center
    only: two points on one ray from the center have the same angle. *)
Theorem calculateAngle_direction this p q k :
  0 < k ->
  Point.x q - circleCenterX this = k * (Point.x p - circleCenterX this) ->
  Point.y q - circleCenterY this = k * (Point.y p - circleCenterY this) ->
  calculateAngle this q = calculateAngle this p.
Proof.
  intros Hk Hx Hy. unfold calculateAngle.
  now rewrite Hx, Hy, atan2_scale.
Qed.

Lemma calculateAngle_direction_witness :
  let this := constructor defaults_size in
  calculateAngle this (Point.new 550 350 "S1" 0%Z)
  = calculateAngle this (Point.new 450 350 "S2" 0%Z).
Proof.
  intros this.
  apply (calculateAngle_direction this _ _ 2); [lra | simpl; lra | simpl; lra].
Defined.

(** Without the head orientation, the angle is the [atan2] angle in
    degrees turned by 90 degrees, or that angle plus 360. *)
Lemma calculateAngle_screenAngle this p :
  angleRelativeToHead this = false ->
  0 <= calculateAngle this p < 360
  /\ (calculateAngle this p = screenAngle this p
      \/ calculateAngle this p = screenAngle this p + 360).
Proof.
  intros Hrel. unfold calculateAngle, screenAngle. rewrite Hrel.
  pose proof (atan2_degrees (Point.y p - circleCenterY this)
                            (Point.x p - circleCenterX this)) as Hdeg.
  set (a := atan2 _ _ * 180 / PI) in *.
  repeat case_bool_decide; (split; [lra |]); first [left; lra | right; lra].
Qed.

Lemma set_head_fields orientation relative this :
  circleCenterX (set_head orientation relative this) = circleCenterX this
  /\ circleCenterY (set_head orientation relative this) = circleCenterY this
  /\ headOrientation (set_head orientation relative this) = orientation
  /\ angleRelativeToHead (set_head orientation relative this) = relative.
Proof. repeat split. Qed.

(** X9. The angle relative to the head is the absolute angle minus the head
    orientation, plus 360 when that is negative.  So with the head
    orientation 0 the two angles are the same, and a point straight ahead
    of the head is at 0 degrees. *)
Theorem calculateAngle_relative this p orientation :
  let absolute := calculateAngle (set_head orientation false this) p in
  let relative := calculateAngle (set_head orientation true this) p in
  relative
  = (if bool_decide (absolute - orientation < 0)
     then absolute - orientation + 360 else absolute - orientation)
  /\ (orientation = 0 -> relative = absolute)
  /\ (orientation = absolute -> relative = 0).
Proof.
  intros absolute relative.
  destruct (calculateAngle_screenAngle (set_head orientation false this) p eq_refl)
    as [Hrange _].
  fold absolute in Hrange.
  assert (relative
          = (if bool_decide (absolute - orientation < 0)
             then absolute - orientation + 360 else absolute - orientation)) as H.
  { unfold relative, absolute, calculateAngle.
    destruct (set_head_fields orientation true this) as (-> & -> & -> & ->).
    destruct (set_head_fields orientation false this) as (-> & -> & _ & ->).
    reflexivity. }
  split; [exact H |]. rewrite H.
  split; intros Ho; case_bool_decide; lra.
Qed.

(** X10. The panel coordinates of the distance and the angle that
    [calculateDistance] and [calculateAngle] report for a point are the
    coordinates of the point: [moveExistingPoint] with the values of a
    [change] event puts a point where it is. *)
Theorem panel_round_trip this p :
  meterScale this <> 0 ->
  Point.x (listenerPoint this) = circleCenterX this ->
  Point.y (listenerPoint this) = circleCenterY this ->
  angleRelativeToHead this = false ->
  panelCoordinates this
    (calculateDistance this (listenerPoint this) p) (calculateAngle this p)
  = XY.new (Point.x p) (Point.y p).
Proof.
  intros Hm Hlx Hly Hrel. pose proof PI_RGT_0 as HPI.
  rewrite panelCoordinates_any.
  unfold calculateDistance, convertToMeters. rewrite Hlx, Hly.
  set (dx := Point.x p - circleCenterX this).
  set (dy := Point.y p - circleCenterY this).
  set (t := atan2 dy dx).
  assert (cos ((calculateAngle this p - 90) / 180 * PI) = cos t
          /\ sin ((calculateAngle this p - 90) / 180 * PI) = sin t) as [-> ->].
  { destruct (calculateAngle_screenAngle this p Hrel) as [_ [-> | ->]];
      unfold screenAngle; fold dx dy t.
    - replace ((t * 180 / PI + 90 - 90) / 180 * PI) with t by (field; lra).
      split; reflexivity.
    - rewrite <- (cos_turn ((t * 180 / PI + 90 + 360 - 90) / 180 * PI)).
      rewrite <- (sin_turn ((t * 180 / PI + 90 + 360 - 90) / 180 * PI)).
      replace ((t * 180 / PI + 90 + 360 - 90) / 180 * PI - 2 * PI) with t
        by (field; lra).
      split; reflexivity. }
  assert (sqrt (dx * dx + dy * dy) / meterScale this * cos t * meterScale this = dx
          /\ sqrt (dx * dx + dy * dy) / meterScale this * sin t * meterScale this = dy)
    as [Hx Hy].
  { destruct (Req_dec dx 0) as [Hx0 | Hx0];
      [destruct (Req_dec dy 0) as [Hy0 | Hy0] |].
    - rewrite Hx0, Hy0.
      replace (0 * 0 + 0 * 0) with 0 by ring. rewrite sqrt_0.
      unfold Rdiv. rewrite !Rmult_0_l. split; reflexivity.
    - destruct (cos_sin_atan2 dx dy) as [Hc Hs]; [now right |].
      pose proof (norm_pos dx dy (or_intror Hy0)) as Hn.
      fold t in Hc, Hs. rewrite Hc, Hs. split; field; split; lra.
    - destruct (cos_sin_atan2 dx dy) as [Hc Hs]; [now left |].
      pose proof (norm_pos dx dy (or_introl Hx0)) as Hn.
      fold t in Hc, Hs. rewrite Hc, Hs. split; field; split; lra. }
  rewrite Hx, Hy. unfold dx, dy. f_equal; ring.
Qed.

Lemma panel_round_trip_witness :
  let this := constructor defaults_size in
  let p := Point.new 250 350 "S1" 0%Z in
  panelCoordinates this
    (calculateDistance this (listenerPoint this) p) (calculateAngle this p)
  = XY.new 250 350.
Proof.
  intros this p.
  apply (panel_round_trip this p); [simpl; lra | reflexivity | reflexivity | reflexivity].
Defined.

(** ** What the methods leave alone *)

Lemma keeps_ret {T A} (f : PanBinaural -> T) (a : A) : keeps f (ret a).
Proof. intros this. reflexivity. Qed.

Lemma keeps_throw {T A} (f : PanBinaural -> T) : keeps f (@throw A).
Proof. intros this. reflexivity. Qed.

Lemma keeps_get {T} (f : PanBinaural -> T) : keeps f get.
Proof. intros this. reflexivity. Qed.

Lemma keeps_defined {T A} (f : PanBinaural -> T) (o : option A) : keeps f (defined o).
Proof. intros this. now destruct o. Qed.

Lemma keeps_modify {T} (f : PanBinaural -> T) g :
  (forall this, f (g this) = f this) -> keeps f (modify g).
Proof. intros H this. apply H. Qed.

Lemma keeps_bind {T A B} (f : PanBinaural -> T) (m : Method A) (k : A -> Method B) :
  keeps f m -> (forall a, keeps f (k a)) -> keeps f (bind m k).
Proof.
  intros Hm Hk this. unfold bind.
  specialize (Hm this). destruct (m this) as [[a |] this']; simpl in *.
  - now rewrite Hk.
  - exact Hm.
Qed.

(** One statement of a method whose callees are unfolded. *)
Ltac keeps_step :=
  match goal with
  | H : keeps ?f ?m |- keeps ?f ?m => exact H
  | H : forall this, keeps ?f (?m this) |- keeps ?f (?m _) => apply H
  | |- keeps _ (bind _ _) => apply keeps_bind; [| intros ?]
  | |- keeps _ (ret _) => apply keeps_ret
  | |- keeps _ throw => apply keeps_throw
  | |- keeps _ get => apply keeps_get
  | |- keeps _ (defined _) => apply keeps_defined
  | |- keeps _ (modify _) => apply keeps_modify; intros ?; reflexivity
  | |- keeps _ (match ?x with _ => _ end) => destruct x
  end.

Ltac keeps_unfold :=
  unfold run, click, move, release, addNewPoint, moveExistingPoint,
    changeColorIndexOfActivePoint, removeActivePoint, removeAllPoints,
    generateNewPoint, drawEmphasisCircle, source_setAttribute,
    label_setAttribute, processToTransmit, scaleNode, write_xy,
    setActivePoint, transmit, svg_create, appendChild, remove, render.

Lemma removeAllPoints_loop_settings n : keeps settings (removeAllPoints_loop n).
Proof.
  induction n as [| n IH]; cbn [removeAllPoints_loop]; keeps_unfold;
    repeat keeps_step.
Qed.

Lemma run_settings c : keeps settings (run c).
Proof.
  pose proof removeAllPoints_loop_settings as Hloop.
  destruct c; keeps_unfold; repeat keeps_step.
Qed.

(** X11. No sequence of calls of the methods changes a setting, the
    geometry of the panel or the pointer state, whether the calls return or
    throw. *)
Theorem calls_keep_settings calls this :
  settings (run_all calls this) = settings this.
Proof.
  revert this. induction calls as [| c calls IH]; intros this; [reflexivity |].
  cbn [run_all fold_left]. fold (run_all calls (snd (run c this))).
  rewrite IH. apply run_settings.
Qed.

(** ** The [change] events of a call *)

Lemma emits_silent {A} n (m : Method A) : keeps emitted m -> emits n m.
Proof.
  intros Hm this. exists []. rewrite Hm, app_nil_r. split; [reflexivity | simpl; lia].
Qed.

Lemma emits_bind {A B} n n' (m : Method A) (k : A -> Method B) :
  emits n m -> (forall a, emits n' (k a)) -> emits (n + n') (bind m k).
Proof.
  intros Hm Hk this. unfold bind.
  destruct (Hm this) as (events & He & Hn).
  destruct (m this) as [[a |] this']; simpl in *.
  - destruct (Hk a this') as (events' & He' & Hn').
    exists (events ++ events'). rewrite He', He, length_app, app_assoc.
    split; [reflexivity | lia].
  - exists events. split; [exact He | lia].
Qed.

Lemma transmit_emits transmitData : emits 1 (transmit transmitData).
Proof. intros this. exists [transmitData]. split; [reflexivity | simpl; lia]. Qed.

Lemma processToTransmit_emits : emits 1 processToTransmit.
Proof.
  unfold processToTransmit.
  apply (emits_bind 0 1); [apply emits_silent, keeps_get | intros this].
  destruct (transmitMode this =? 0)%Z.
  { destruct (processToTransmit_loop this (val this) [] []). apply transmit_emits. }
  destruct (transmitMode this =? 1)%Z; [| apply transmit_emits].
  destruct (activePoint this) as [i |]; [| apply emits_silent, keeps_ret].
  apply (emits_bind 0 1); [apply emits_silent, keeps_defined | intros p].
  apply transmit_emits.
Qed.

Lemma scaleNode_silent : keeps emitted scaleNode.
Proof. keeps_unfold. repeat keeps_step. Qed.

Lemma move_emits : emits 1 move.
Proof.
  unfold move.
  apply (emits_bind 0 1); [apply emits_silent, keeps_get | intros this].
  destruct (clickable this); [| apply emits_silent, keeps_ret].
  destruct (clicked this); [| apply emits_silent, keeps_ret].
  apply (emits_bind 0 1).
  - apply emits_silent. keeps_unfold. repeat keeps_step.
  - intros u. apply (emits_bind 1 0); [apply processToTransmit_emits |].
    intros u'. apply emits_silent, keeps_ret.
Qed.

Lemma release_emits : emits 1 release.
Proof.
  unfold release.
  apply (emits_bind 0 1); [apply emits_silent, keeps_get | intros this].
  destruct (clickable this); [| apply emits_silent, keeps_ret].
  apply (emits_bind 0 1); [apply emits_silent, scaleNode_silent | intros u].
  apply (emits_bind 1 0); [apply processToTransmit_emits |].
  intros u'. apply emits_silent, keeps_ret.
Qed.

Lemma click_emits : emits 2 click.
Proof.
  unfold click.
  apply (emits_bind 0 2); [apply emits_silent, keeps_get | intros this].
  destruct (clickable this); [| apply emits_silent, keeps_ret].
  apply (emits_bind 0 2);
    [apply emits_silent; keeps_unfold; repeat keeps_step | intros u].
  apply (emits_bind 0 2); [apply emits_silent, keeps_get | intros this'].
  apply (emits_bind 0 2);
    [apply emits_silent; keeps_unfold; repeat keeps_step | intros u'].
  apply (emits_bind 0 2); [apply emits_silent, scaleNode_silent | intros u''].
  apply (emits_bind 1 1); [apply processToTransmit_emits | intros u'''].
  apply move_emits.
Qed.

Lemma removeAllPoints_loop_silent n : keeps emitted (removeAllPoints_loop n).
Proof.
  induction n as [| n IH]; cbn [removeAllPoints_loop]; keeps_unfold;
    repeat keeps_step.
Qed.

(** X12. A call only adds [change] events to the ones emitted before, whether
    it returns or throws: [click] at most two, [move] and [release] at most
    one, and [addNewPoint], [moveExistingPoint],
    [changeColorIndexOfActivePoint], [removeActivePoint] and
    [removeAllPoints] none. *)
Theorem run_emits c : emits (events_of c) (run c).
Proof.
  pose proof removeAllPoints_loop_silent as Hloop.
  destruct c; cbn [events_of run].
  - apply click_emits.
  - apply move_emits.
  - apply release_emits.
  - apply emits_silent. keeps_unfold. repeat keeps_step.
  - apply emits_silent. keeps_unfold. repeat keeps_step.
  - apply emits_silent. keeps_unfold. repeat keeps_step.
  - apply emits_silent. keeps_unfold. repeat keeps_step.
  - apply emits_silent. keeps_unfold. repeat keeps_step.
Qed.

(** ** The active point stays within the boundary *)

Lemma activeClamped_placement this this' :
  placement this' = placement this -> activeClamped this -> activeClamped this'.
Proof.
  unfold placement. intros H Hc i p Ha Hp Hr.
  injection H as Hv Hact Hx Hy Hrad.
  unfold centerDistance. rewrite Hx, Hy, Hrad.
  apply (Hc i p); congruence.
Qed.

(** A statement that returns and keeps [f] keeps what depends on [f] only. *)
Lemma returns_kept {T A} (f : PanBinaural -> T) (C : PanBinaural -> Prop)
    P (m : Method A) Q :
  (forall this this', f this' = f this -> C this -> C this') ->
  keeps f m ->
  returns P m Q ->
  returns (fun this => P this /\ C this) m (fun a this' => Q a this' /\ C this').
Proof.
  intros HC Hf Hm this [HP Hc].
  destruct (Hm this HP) as (a & this' & Hrun & HQ).
  exists a, this'. split; [exact Hrun |]. split; [exact HQ |].
  apply (HC this); [| exact Hc].
  specialize (Hf this). now rewrite Hrun in Hf.
Qed.

Lemma write_xy_settled a this0 i vx vy :
  (i < length (val this0))%nat ->
  returns (settled a this0) (write_xy (Some i) vx vy) (fun _ => stable a this0).
Proof.
  intros Hi.
  eapply returns_conseq; [apply (write_xy_stable a this0 i vx vy Hi) | | auto].
  intros this [Hst _]. exact Hst.
Qed.

Lemma scaleNode_settles a this0 :
  returns (stable a this0) scaleNode (fun _ => settled a this0).
Proof.
  intros this Hst.
  destruct (scaleNode_stable a this0 this Hst) as ([] & this' & Hrun & Hst').
  exists tt, this'. split; [exact Hrun |]. split; [exact Hst' |].
  pose proof Hst as (Hinv & Ha & _).
  destruct (activePoint this) as [i |] eqn:Hi.
  - destruct (lookup_lt_is_Some_2 (val this) i) as [p Hp];
      [now apply (inv_active this Hinv) |].
    rewrite (scaleNode_run this i p Hi Hp) in Hrun.
    injection Hrun as <-.
    intros j q Hj Hq Hr. cbn [activePoint set_val] in Hj.
    rewrite Hi in Hj. injection Hj as <-.
    cbn [val set_val] in Hq.
    rewrite list_lookup_insert_eq in Hq by (now apply lookup_lt_Some in Hp).
    injection Hq as <-. cbn [Point.x Point.y].
    now apply (clipped_distance this).
  - rewrite (scaleNode_none this Hi) in Hrun. injection Hrun as <-.
    intros j q Hj. congruence.
Qed.

Lemma scaleNode_settled a this0 :
  returns (settled a this0) scaleNode (fun _ => settled a this0).
Proof.
  eapply returns_conseq; [apply (scaleNode_settles a this0) | | auto].
  intros this [Hst _]. exact Hst.
Qed.

Lemma source_setAttribute_settled a this0 i f :
  (forall e, circleTag (f e) = circleTag e) ->
  (i < length (val this0))%nat ->
  returns (settled a this0) (source_setAttribute (Some i) f) (fun _ => settled a this0).
Proof.
  intros Hf Hi.
  apply (returns_kept placement activeClamped);
    [apply activeClamped_placement | | now apply source_setAttribute_stable].
  keeps_unfold. repeat keeps_step.
Qed.

Lemma label_setAttribute_settled a this0 i f :
  (forall e, textTag (f e) = textTag e) ->
  (i < length (val this0))%nat ->
  returns (settled a this0) (label_setAttribute (Some i) f) (fun _ => settled a this0).
Proof.
  intros Hf Hi.
  apply (returns_kept placement activeClamped);
    [apply activeClamped_placement | | now apply label_setAttribute_stable].
  keeps_unfold. repeat keeps_step.
Qed.

Lemma drawEmphasisCircle_settled i this0 :
  returns (settled (Some i) this0) drawEmphasisCircle
    (fun _ => settled (Some i) this0).
Proof.
  apply (returns_kept placement activeClamped);
    [apply activeClamped_placement | | apply drawEmphasisCircle_stable].
  keeps_unfold. repeat keeps_step.
Qed.

Lemma processToTransmit_settled a this0 :
  returns (settled a this0) processToTransmit (fun _ => settled a this0).
Proof.
  apply (returns_kept placement activeClamped);
    [apply activeClamped_placement | | apply processToTransmit_stable].
  keeps_unfold. repeat keeps_step.
Qed.

Create HintDb settled.

#[local] Hint Resolve write_xy_settled scaleNode_settles scaleNode_settled
  source_setAttribute_settled label_setAttribute_settled
  drawEmphasisCircle_settled processToTransmit_settled returns_skip : settled.

Ltac settled_step :=
  eapply returns_bind;
  [solve [eauto with settled] | let u := fresh "u" in intros u; cbv beta; clear u].

Lemma move_settled a this0 :
  returns (settled a this0) move (fun _ => settled a this0).
Proof.
  unfold move, render. apply returns_get. intros this Hst.
  destruct (clickable this); [| now exists tt, this].
  destruct (clicked this); [| now exists tt, this].
  pose proof Hst as ((_ & Ha & _) & _). rewrite Ha. clear Ha.
  generalize (XY.x (mouse this)) (XY.y (mouse this)). intros mx my.
  destruct a as [i |].
  - pose proof (stable_active _ _ _ (proj1 Hst)) as Hi.
    as_returns (settled (Some i) this0) (fun _ : unit => settled (Some i) this0).
    eapply returns_bind.
    { do 3 settled_step.
      apply returns_get. intros this Hst. cbv beta in Hst.
      destruct (stable_length _ _ _ (proj1 Hst)) as (Hlp & _ & _).
      destruct (lookup_lt_is_Some_2 (val this) i) as [p Hp]; [lia |].
      rewrite Hp, bind_defined.
      generalize (Point.y p + nodeSize this + 20). intros ly. clear Hlp Hp.
      as_returns (settled (Some i) this0) (fun _ : unit => settled (Some i) this0).
      do 3 settled_step. eauto with settled. }
    intros u. cbv beta. clear u. settled_step. eauto with settled.
  - as_returns (settled None this0) (fun _ : unit => settled None this0).
    do 2 settled_step. eauto with settled.
Qed.

Lemma release_settled a this0 :
  returns (settled a this0) release (fun _ => settled a this0).
Proof.
  unfold release, render. apply returns_get. intros this Hst.
  destruct (clickable this); [| now exists tt, this].
  as_returns (settled a this0) (fun _ : unit => settled a this0).
  do 2 settled_step. eauto with settled.
Qed.

Lemma returns_settled (m : Method unit) :
  (forall a this0, returns (settled a this0) m (fun _ => settled a this0)) ->
  returns (fun this => invariant this /\ activeClamped this) m
    (fun _ this => invariant this /\ activeClamped this).
Proof.
  intros Hm this [Hinv Hc].
  destruct (Hm _ this this (conj (invariant_stable this Hinv) Hc))
    as (u & this' & Hrun & Hst & Hc').
  exists u, this'. split; [exact Hrun |]. split; [apply Hst | exact Hc'].
Qed.

Lemma returns_settles (m : Method unit) :
  (forall a this0, returns (stable a this0) m (fun _ => settled a this0)) ->
  returns invariant m (fun _ this => invariant this /\ activeClamped this).
Proof.
  intros Hm this Hinv.
  destruct (Hm _ this this (invariant_stable this Hinv))
    as (u & this' & Hrun & Hst & Hc').
  exists u, this'. split; [exact Hrun |]. split; [apply Hst | exact Hc'].
Qed.

Lemma click_clamped :
  returns (fun this => invariant this /\ activeClamped this) click
    (fun _ this => invariant this /\ activeClamped this).
Proof.
  unfold click. apply returns_get. intros this [Hinv Hc].
  destruct (clickable this);
    [| exists tt, this; split; [reflexivity | split; assumption]].
  clear Hc.
  generalize (XY.x (mouse this)) (XY.y (mouse this)). intros mx my.
  revert this Hinv.
  refine (_ : returns invariant _ (fun _ this => invariant this /\ activeClamped this)).
  eapply returns_bind; [apply setActivePoint_invariant | intros u; cbv beta; clear u].
  apply returns_get. intros this Hinv. clear mx my.
  generalize (pointLabel (length (val this) + 1)) (currentColorIndex this).
  intros label color.
  generalize (XY.x (mouse this)) (XY.y (mouse this)). intros mx my.
  assert (returns invariant
            (if newPointsGeneratable this
             then match activePoint this with
                  | Some _ => ret tt
                  | None => generateNewPoint mx my label color
                  end
             else ret tt) (fun _ => invariant)) as Hgen.
  { destruct (newPointsGeneratable this); [| apply returns_skip].
    destruct (activePoint this); [apply returns_skip |].
    eapply returns_conseq; [apply generateNewPoint_invariant | auto |].
    intros _ this' [H _]. exact H. }
  revert Hgen. generalize (if newPointsGeneratable this
             then match activePoint this with
                  | Some _ => ret tt
                  | None => generateNewPoint mx my label color
                  end
             else ret tt). intros m Hgen.
  revert this Hinv.
  refine (_ : returns invariant _ (fun _ this => invariant this /\ activeClamped this)).
  eapply returns_bind; [exact Hgen | intros u; cbv beta; clear u].
  apply returns_settles. intros a this0.
  eapply returns_bind; [apply scaleNode_settles | intros u; cbv beta; clear u].
  eapply returns_bind; [apply processToTransmit_settled | intros u; cbv beta; clear u].
  apply move_settled.
Qed.

Lemma generated_clamped this x y label colorIndex :
  activeClamped (generated this x y label colorIndex).
Proof.
  intros i p Ha Hp Hr. cbn in Ha. injection Ha as <-.
  cbn in Hp. rewrite list_lookup_middle in Hp by reflexivity.
  injection Hp as <-. cbn [Point.x Point.y].
  change (centerDistance this (XY.x (clipped this x y)) (XY.y (clipped this x y))
          <= bgRadius this).
  now apply clipped_distance.
Qed.

Lemma addNewPoint_clamped distance angle label colorIndex :
  returns invariant (addNewPoint distance angle label colorIndex)
    (fun _ this => invariant this /\ activeClamped this).
Proof.
  unfold addNewPoint. apply returns_get. intros this Hinv.
  generalize (panelCoordinates this distance angle). intros xy.
  revert this Hinv.
  refine (_ : returns invariant _ (fun _ this => invariant this /\ activeClamped this)).
  apply (returns_bind _ _
           (fun _ this => invariant this /\ is_Some (activePoint this)
                          /\ activeClamped this)).
  - intros this Hinv. eexists tt, _. split.
    + apply generateNewPoint_run. rewrite (inv_nodeSize this Hinv). lra.
    + split; [now apply generated_invariant |].
      split; [simpl; eauto | apply generated_clamped].
  - intros u this (Hinv & [i Hi] & Hc).
    destruct (drawEmphasisCircle_settled i this this) as (u' & this' & Hrun & Hst & Hc').
    { split; [rewrite <- Hi; now apply invariant_stable | exact Hc]. }
    exists u', this'. split; [exact Hrun |]. split; [apply Hst | exact Hc'].
Qed.

Lemma moveExistingPoint_settles pointIndex distance angle a this0 :
  returns (fun this => stable a this0 this /\ is_Some (at_Z (val this) pointIndex))
    (moveExistingPoint pointIndex distance angle) (fun _ => settled a this0).
Proof.
  intros this [Hst [p Hp]].
  pose proof (lookup_lt_Some _ _ _ (at_Z_Some _ _ _ Hp)) as Hi.
  destruct (stable_length _ _ _ Hst) as (Hlen & _ & _). rewrite Hlen in Hi.
  unfold moveExistingPoint. rewrite bind_get, Hp, bind_defined.
  generalize (panelCoordinates this distance angle). intros xy.
  clear p Hp Hlen. revert this Hst.
  refine (_ : returns (stable a this0) _ (fun _ => settled a this0)).
  returns_step. apply returns_get. intros this1 Hst1. cbv beta in Hst1.
  destruct (stable_length _ _ _ Hst1) as (Hlp & _ & _).
  destruct (lookup_lt_is_Some_2 (val this1) (Z.to_nat pointIndex)) as [p1 Hp1];
    [lia |].
  rewrite Hp1, bind_defined.
  generalize (Point.y p1 + nodeSize this1 + 20). intros ly. clear Hlp Hp1.
  revert this1 Hst1. refine (_ : returns (stable a this0) _ (fun _ => settled a this0)).
  do 4 returns_step. apply scaleNode_settles.
Qed.

Lemma changeColorIndexOfActivePoint_clamped colorIndex :
  returns (fun this => invariant this /\ activeClamped this)
    (changeColorIndexOfActivePoint colorIndex)
    (fun _ this => invariant this /\ activeClamped this).
Proof.
  intros this [Hinv Hc].
  destruct (changeColorIndexOfActivePoint_invariant colorIndex this Hinv)
    as ([] & this' & Hrun & Hinv').
  exists tt, this'. split; [exact Hrun |]. split; [exact Hinv' |].
  destruct (activePoint this) as [i |] eqn:Ha.
  - destruct (lookup_lt_is_Some_2 (val this) i) as [p Hp];
      [now apply (inv_active this Hinv) |].
    destruct (lookup_lt_is_Some_2 (sourceElements this) i) as [s Hs].
    { rewrite (lockstep_sources this (inv_lockstep this Hinv)).
      now apply (inv_active this Hinv). }
    rewrite (changeColorIndexOfActivePoint_run this i p s colorIndex Ha Hp Hs) in Hrun.
    injection Hrun as <-.
    intros j q Hj Hq Hr. cbn in Hj, Hq, Hr. rewrite Ha in Hj. injection Hj as <-.
    rewrite list_lookup_insert_eq in Hq by (now apply lookup_lt_Some in Hp).
    injection Hq as <-. now apply (Hc i p).
  - rewrite (changeColorIndexOfActivePoint_none this colorIndex Ha) in Hrun.
    injection Hrun as <-. exact Hc.
Qed.

(** What a call leaves of the active point within the boundary. *)
Lemma run_clamped c this :
  invariant this -> activeClamped this -> activeClamped (snd (run c this)).
Proof.
  intros Hinv Hc.
  assert (forall m : Method unit,
             returns (fun this => invariant this /\ activeClamped this) m
               (fun _ this => invariant this /\ activeClamped this) ->
             activeClamped (snd (m this))) as Hret.
  { intros m Hm. destruct (Hm this (conj Hinv Hc)) as ([] & this' & Hrun & _ & Hc').
    now rewrite Hrun. }
  assert (forall m : Method unit,
             returns invariant m
               (fun _ this => invariant this /\ activeClamped this) ->
             activeClamped (snd (m this))) as Hret'.
  { intros m Hm. destruct (Hm this Hinv) as ([] & this' & Hrun & _ & Hc').
    now rewrite Hrun. }
  assert (forall this', activePoint this' = None -> activeClamped this') as Hnone.
  { intros this' Hn i p Hi. congruence. }
  destruct c; cbn [run].
  - apply Hret, click_clamped.
  - apply Hret, returns_settled, move_settled.
  - apply Hret, returns_settled, release_settled.
  - apply Hret', addNewPoint_clamped.
  - destruct (at_Z (val this) pointIndex) as [p |] eqn:Hp.
    + destruct (moveExistingPoint_settles pointIndex distance angle
                  (activePoint this) this this)
        as ([] & this' & Hrun & _ & Hc').
      { split; [now apply invariant_stable | rewrite Hp; eauto]. }
      now rewrite Hrun.
    + now rewrite (moveExistingPoint_throws this pointIndex distance angle Hp).
  - apply Hret, changeColorIndexOfActivePoint_clamped.
  - apply Hnone, removeActivePoint_returns; apply Hinv.
  - destruct (lockstep_operations this (inv_lockstep this Hinv)) as (_ & _ & Hall).
    { rewrite (inv_nodeSize this Hinv). lra. }
    destruct Hall as (this' & Hrun & _ & _ & Hn & _).
    rewrite Hrun. now apply Hnone.
Qed.

Lemma reachable_clamped this : reachable this -> activeClamped this.
Proof.
  induction 1 as [size | m down this _ IH | orientation relative this _ IH
                  | mode this _ IH | editable generatable color this _ IH
                  | c this Hreach IH].
  - intros i p Hi. discriminate.
  - now apply (activeClamped_placement this).
  - now apply (activeClamped_placement this).
  - now apply (activeClamped_placement this).
  - now apply (activeClamped_placement this).
  - apply run_clamped; [now apply reachable_invariant | exact IH].
Qed.

(** X13. In every widget a program can reach, with a boundary radius that
    is not negative, the active point is not farther from the panel center
    than the boundary radius. *)
Theorem active_point_within_boundary this i p :
  reachable this ->
  activePoint this = Some i ->
  val this !! i = Some p ->
  0 <= bgRadius this ->
  centerDistance this (Point.x p) (Point.y p) <= bgRadius this.
Proof. intros Hreach. exact (reachable_clamped this Hreach i p). Qed.

Lemma active_point_within_boundary_witness :
  centerDistance boundary_panel 650 350 <= bgRadius boundary_panel.
Proof.
  destruct boundary_panel_fields as (Ha & _ & _ & _ & _ & Hr & _).
  apply (active_point_within_boundary boundary_panel 0%nat
           (Point.new 650 350 "S1" 0%Z)).
  - exact reachable_boundary_panel.
  - exact Ha.
  - now rewrite val_boundary_panel.
  - rewrite Hr. lra.
Defined.

(** ** Every element is a child of [this.element], once *)

Lemma attached_family this this' :
  family this' = family this -> nextId this' = nextId this ->
  attached this -> attached this'.
Proof.
  unfold family. intros H Hn [Hd Hc Hf].
  injection H as He Hb Hl Hs Ht.
  split; unfold nodes in *; rewrite ?He, ?Hb, ?Hl, ?Hs, ?Ht, ?Hn; assumption.
Qed.

Lemma family_skeleton this this' :
  skeleton this' = skeleton this -> family this' = family this.
Proof.
  intros Hsk. destruct (skeleton_eq _ _ Hsk) as (Hk & He & _ & Hs & Hl).
  destruct (constants_eq _ _ Hk) as (_ & _ & _ & _ & _ & _ & Hb & Hli).
  unfold family. rewrite He, Hb, Hli, !eid_of_circleTag, !eid_of_textTag, Hs, Hl.
  reflexivity.
Qed.

Lemma attached_constructor size : attached (constructor size).
Proof.
  split; cbn.
  - apply NoDup_cons. split; [| apply NoDup_singleton].
    rewrite list_elem_of_singleton. discriminate.
  - reflexivity.
  - repeat constructor.
Qed.

Lemma Permutation_snoc_snoc (b s t : list nat) (i j : nat) :
  b ++ (s ++ [i]) ++ (t ++ [j]) ≡ₚ (b ++ s ++ t) ++ [i; j].
Proof.
  rewrite <- !app_assoc. do 2 f_equiv.
  rewrite (Permutation_app_comm [i] (t ++ [j])), <- app_assoc. f_equiv.
  apply Permutation_swap.
Qed.

Lemma generated_attached this x y label colorIndex :
  attached this -> attached (generated this x y label colorIndex).
Proof.
  intros [Hd Hc Hf].
  assert (nodes (generated this x y label colorIndex)
          ≡ₚ nodes this ++ [nextId this; S (nextId this)]) as Hn.
  { unfold nodes. cbn. rewrite !fmap_app. cbn.
    apply (Permutation_snoc_snoc [backgroundCircle this; listener this]). }
  split.
  - rewrite Hn. apply NoDup_app. split; [exact Hd |]. split.
    + intros e He Hin. rewrite Forall_forall in Hf. specialize (Hf e He).
      rewrite !elem_of_cons, elem_of_nil in Hin. lia.
    + apply NoDup_cons. split; [| apply NoDup_singleton].
      rewrite list_elem_of_singleton. lia.
  - rewrite Hn. cbn. now rewrite Hc.
  - rewrite Hn. apply Forall_app. split.
    + apply (Forall_impl _ _ _ Hf). intros e He. cbn. lia.
    + cbn. repeat constructor; lia.
Qed.

Lemma filter_all {A} (P : A -> Prop) `{forall x, Decision (P x)} (l : list A) :
  Forall P l -> filter P l = l.
Proof.
  induction 1 as [| x l Hx _ IH]; [reflexivity |].
  now rewrite filter_cons_True, IH.
Qed.

Lemma Permutation_nodes (b S S' L L' : list nat) (s l : nat) :
  S ≡ₚ s :: S' -> L ≡ₚ l :: L' ->
  b ++ S ++ L ≡ₚ s :: l :: b ++ S' ++ L'.
Proof.
  intros -> ->.
  rewrite <- (Permutation_middle (s :: S') L' l).
  rewrite <- (Permutation_middle b (s :: S' ++ L') l).
  rewrite <- (Permutation_middle b (S' ++ L') s).
  apply Permutation_swap.
Qed.

(** Taking the elements at [i] out of the arrays and out of [this.element]
    leaves the other elements attached. *)
Lemma attached_remove this this' i s l :
  attached this ->
  sourceElements this !! i = Some s ->
  labelElements this !! i = Some l ->
  element this' =
    filter (fun c => c <> Text.eid l)
      (filter (fun c => c <> Circle.eid s) (element this)) ->
  sourceElements this' = delete i (sourceElements this) ->
  labelElements this' = delete i (labelElements this) ->
  backgroundCircle this' = backgroundCircle this ->
  listener this' = listener this ->
  nextId this' = nextId this ->
  attached this'.
Proof.
  intros [Hd Hc Hf] Hs Hl He Hs' Hl' Hb Hli Hn.
  assert (nodes this ≡ₚ Circle.eid s :: Text.eid l :: nodes this') as Hperm.
  { unfold nodes. rewrite Hb, Hli, Hs', Hl', !list_fmap_delete.
    apply Permutation_nodes; apply delete_Permutation;
      rewrite list_lookup_fmap; [now rewrite Hs | now rewrite Hl]. }
  rewrite Hperm in Hd, Hf.
  apply NoDup_cons in Hd as [Hs1 Hd]. apply NoDup_cons in Hd as [Hl1 Hd].
  apply Forall_cons in Hf as [_ Hf]. apply Forall_cons in Hf as [_ Hf].
  rewrite not_elem_of_cons in Hs1. destruct Hs1 as [Hne Hs1].
  split.
  - exact Hd.
  - rewrite He, Hc, Hperm.
    rewrite filter_cons_False by tauto.
    rewrite filter_cons_True by congruence.
    rewrite filter_cons_False by tauto.
    rewrite (filter_all (fun c => c <> Circle.eid s)).
    + now rewrite filter_all by (apply Forall_forall; intros e H1 ->; tauto).
    + apply Forall_forall. intros e H1 ->. tauto.
  - now rewrite Hn.
Qed.

Lemma removed_attached this i s l :
  attached this ->
  sourceElements this !! i = Some s ->
  labelElements this !! i = Some l ->
  attached (removed this i s l).
Proof.
  intros Hatt Hs Hl.
  now apply (attached_remove this (removed this i s l) i s l).
Qed.

Lemma removeAllPoints_loop_attached n :
  forall this,
    length (sourceElements this) = n ->
    length (labelElements this) = n ->
    attached this ->
    attached (snd (removeAllPoints_loop n this)).
Proof.
  induction n as [| n IH]; intros this Hs Hl Hatt; [exact Hatt |].
  destruct (sourceElements this) as [| s ss] eqn:Es; [discriminate |].
  destruct (labelElements this) as [| l ls] eqn:El; [discriminate |].
  set (this1 :=
         set_labelElements ls
           (set_element
              (filter (fun c => c <> Text.eid l)
                 (filter (fun c => c <> Circle.eid s) (element this)))
              (set_sourceElements ss (set_val (delete 0%nat (val this)) this)))).
  assert (removeAllPoints_loop (S n) this = removeAllPoints_loop n this1) as ->.
  { simpl. unfold bind, modify, get, defined, ret, remove. simpl.
    rewrite Es. simpl. rewrite El. simpl. rewrite Es, El. reflexivity. }
  apply IH; [simpl in *; lia | simpl in *; lia |].
  apply (attached_remove this this1 0%nat s l Hatt);
    try reflexivity; cbn; now rewrite ?Es, ?El.
Qed.

Lemma returns_attached (m : Method unit) :
  (forall a this0, returns (stable a this0) m (fun _ => stable a this0)) ->
  keeps nextId m ->
  returns (fun this => invariant this /\ attached this) m
    (fun _ this => invariant this /\ attached this).
Proof.
  intros Hm Hn this [Hinv Hatt].
  destruct (Hm _ this this (invariant_stable this Hinv)) as (u & this' & Hrun & Hst).
  exists u, this'. split; [exact Hrun |]. split; [apply Hst |].
  destruct Hst as (_ & _ & Hsk).
  apply (attached_family this); [now apply family_skeleton | | exact Hatt].
  specialize (Hn this). now rewrite Hrun in Hn.
Qed.

Lemma scaleNode_nextId : keeps nextId scaleNode.
Proof. keeps_unfold. repeat keeps_step. Qed.

Lemma processToTransmit_nextId : keeps nextId processToTransmit.
Proof. keeps_unfold. repeat keeps_step. Qed.

Lemma drawEmphasisCircle_nextId : keeps nextId drawEmphasisCircle.
Proof. keeps_unfold. repeat keeps_step. Qed.

Lemma move_nextId : keeps nextId move.
Proof. keeps_unfold. repeat keeps_step. Qed.

Lemma release_nextId : keeps nextId release.
Proof. keeps_unfold. repeat keeps_step. Qed.

Lemma moveExistingPoint_nextId pointIndex distance angle :
  keeps nextId (moveExistingPoint pointIndex distance angle).
Proof. keeps_unfold. repeat keeps_step. Qed.

Lemma setActivePoint_attached x y :
  returns (fun this => invariant this /\ attached this) (setActivePoint x y)
    (fun _ this => invariant this /\ attached this).
Proof.
  apply (returns_kept (fun this => (family this, nextId this)) attached);
    [| | apply setActivePoint_invariant].
  - intros this this' H. cbv beta in H. apply attached_family; congruence.
  - keeps_unfold. repeat keeps_step.
Qed.

Lemma generateNewPoint_attached x y label colorIndex :
  returns (fun this => invariant this /\ attached this)
    (generateNewPoint x y label colorIndex)
    (fun _ this => (invariant this /\ attached this) /\ is_Some (activePoint this)).
Proof.
  intros this [Hinv Hatt]. eexists tt, _. split.
  - apply generateNewPoint_run. rewrite (inv_nodeSize this Hinv). lra.
  - split; [split |].
    + now apply generated_invariant.
    + now apply generated_attached.
    + simpl. eauto.
Qed.

Lemma click_attached :
  returns (fun this => invariant this /\ attached this) click
    (fun _ this => invariant this /\ attached this).
Proof.
  set (P := fun this => invariant this /\ attached this).
  unfold click. apply returns_get. intros this HP.
  destruct (clickable this); [| now exists tt, this].
  generalize (XY.x (mouse this)) (XY.y (mouse this)). intros mx my.
  revert this HP. refine (_ : returns P _ (fun _ => P)).
  eapply returns_bind; [apply setActivePoint_attached | intros u; cbv beta; clear u].
  apply returns_get. intros this HP. clear mx my.
  generalize (pointLabel (length (val this) + 1)) (currentColorIndex this).
  intros label color.
  generalize (XY.x (mouse this)) (XY.y (mouse this)). intros mx my.
  assert (returns P
            (if newPointsGeneratable this
             then match activePoint this with
                  | Some _ => ret tt
                  | None => generateNewPoint mx my label color
                  end
             else ret tt) (fun _ => P)) as Hgen.
  { destruct (newPointsGeneratable this); [| apply returns_skip].
    destruct (activePoint this); [apply returns_skip |].
    eapply returns_conseq; [apply generateNewPoint_attached | auto |].
    intros _ this' [H _]. exact H. }
  revert Hgen. generalize (if newPointsGeneratable this
             then match activePoint this with
                  | Some _ => ret tt
                  | None => generateNewPoint mx my label color
                  end
             else ret tt). intros m Hgen.
  revert this HP. refine (_ : returns P _ (fun _ => P)).
  eapply returns_bind; [exact Hgen | intros u; cbv beta; clear u].
  eapply returns_bind;
    [apply returns_attached; [apply scaleNode_stable | apply scaleNode_nextId]
    | intros u; cbv beta; clear u].
  eapply returns_bind;
    [apply returns_attached;
       [apply processToTransmit_stable | apply processToTransmit_nextId]
    | intros u; cbv beta; clear u].
  apply returns_attached; [apply move_stable | apply move_nextId].
Qed.

Lemma addNewPoint_attached distance angle label colorIndex :
  returns (fun this => invariant this /\ attached this)
    (addNewPoint distance angle label colorIndex)
    (fun _ this => invariant this /\ attached this).
Proof.
  set (P := fun this => invariant this /\ attached this).
  unfold addNewPoint. apply returns_get. intros this HP.
  generalize (panelCoordinates this distance angle). intros xy.
  revert this HP. refine (_ : returns P _ (fun _ => P)).
  eapply returns_bind; [apply generateNewPoint_attached |].
  intros u this [[Hinv Hatt] [i Hi]].
  destruct (drawEmphasisCircle_stable i this this) as (u' & this' & Hrun & Hst).
  { rewrite <- Hi. now apply invariant_stable. }
  exists u', this'. split; [exact Hrun |]. split; [apply Hst |].
  destruct Hst as (_ & _ & Hsk).
  apply (attached_family this); [now apply family_skeleton | | exact Hatt].
  pose proof (drawEmphasisCircle_nextId this) as Hn. now rewrite Hrun in Hn.
Qed.

Lemma nodes_recolored this i s p' fill :
  sourceElements this !! i = Some s ->
  family
    (set_sourceElements (<[i := Circle.set_fill fill s]> (sourceElements this))
       (set_val p' this))
  = family this.
Proof.
  intros Hs. unfold family. cbn. rewrite list_fmap_insert.
  change (Circle.eid (Circle.set_fill fill s)) with (Circle.eid s).
  rewrite list_insert_id by (now rewrite list_lookup_fmap, Hs).
  reflexivity.
Qed.

(** What a call leaves of the attached elements. *)
Lemma run_attached c this :
  invariant this -> attached this -> attached (snd (run c this)).
Proof.
  intros Hinv Hatt.
  assert (forall m : Method unit,
             returns (fun this => invariant this /\ attached this) m
               (fun _ this => invariant this /\ attached this) ->
             attached (snd (m this))) as Hret.
  { intros m Hm. destruct (Hm this (conj Hinv Hatt)) as ([] & this' & Hrun & _ & H).
    now rewrite Hrun. }
  pose proof (inv_lockstep this Hinv) as Hlock.
  destruct c; cbn [run].
  - apply Hret, click_attached.
  - apply Hret, returns_attached; [apply move_stable | apply move_nextId].
  - apply Hret, returns_attached; [apply release_stable | apply release_nextId].
  - apply Hret, addNewPoint_attached.
  - destruct (at_Z (val this) pointIndex) as [p |] eqn:Hp.
    + destruct (moveExistingPoint_settles pointIndex distance angle
                  (activePoint this) this this)
        as ([] & this' & Hrun & (_ & _ & Hsk) & _).
      { split; [now apply invariant_stable | rewrite Hp; eauto]. }
      pose proof (moveExistingPoint_nextId pointIndex distance angle this) as Hn.
      rewrite Hrun in *.
      apply (attached_family this); [now apply family_skeleton | exact Hn | exact Hatt].
    + now rewrite (moveExistingPoint_throws this pointIndex distance angle Hp).
  - destruct (activePoint this) as [i |] eqn:Ha.
    + pose proof (inv_active this Hinv i Ha) as Hi.
      destruct (lookup_lt_is_Some_2 (val this) i Hi) as [p Hp].
      destruct (lookup_lt_is_Some_2 (sourceElements this) i) as [s Hs];
        [now rewrite (lockstep_sources this Hlock) |].
      rewrite (changeColorIndexOfActivePoint_run this i p s colorIndex Ha Hp Hs).
      apply (attached_family this); [now apply nodes_recolored | reflexivity | exact Hatt].
    + now rewrite (changeColorIndexOfActivePoint_none this colorIndex Ha).
  - destruct (activePoint this) as [i |] eqn:Ha.
    + pose proof (inv_active this Hinv i Ha) as Hi.
      destruct (lookup_lt_is_Some_2 (sourceElements this) i) as [s Hs];
        [now rewrite (lockstep_sources this Hlock) |].
      destruct (lookup_lt_is_Some_2 (labelElements this) i) as [l Hl];
        [now rewrite (lockstep_labels this Hlock) |].
      rewrite (removeActivePoint_run this i s l Ha Hs Hl).
      now apply removed_attached.
    + now rewrite (removeActivePoint_none this Ha).
  - pose proof (removeAllPoints_loop_attached (length (val this)) this
                  (lockstep_sources this Hlock) (lockstep_labels this Hlock) Hatt)
      as Hloop.
    unfold removeAllPoints. rewrite bind_get. unfold bind at 1.
    destruct (removeAllPoints_loop (length (val this)) this) as [[[] |] this'];
      cbn in *; [| exact Hloop].
    now apply (attached_family this').
Qed.

Lemma reachable_attached this : reachable this -> attached this.
Proof.
  induction 1 as [size | m down this _ IH | orientation relative this _ IH
                  | mode this _ IH | editable generatable color this _ IH
                  | c this Hreach IH].
  - apply attached_constructor.
  - now apply (attached_family this).
  - now apply (attached_family this).
  - now apply (attached_family this).
  - now apply (attached_family this).
  - apply run_attached; [now apply reachable_invariant | exact IH].
Qed.

(** X14. In every widget a program can reach, the two fixed circles, the
    markers and the labels are distinct elements, and the children of
    [this.element] are these elements, each one once: an element is
    attached when it is created and detached when its point is removed. *)
Theorem elements_attached_once this :
  reachable this ->
  NoDup (nodes this) /\ element this ≡ₚ nodes this.
Proof.
  intros Hreach. destruct (reachable_attached this Hreach) as [Hd Hc _]. auto.
Qed.

Lemma elements_attached_once_witness :
  NoDup (nodes boundary_panel).
Proof.
  apply (elements_attached_once boundary_panel). exact reachable_boundary_panel.
Defined.

(** ** [release] and [move] in the widgets a program can reach *)

(** In a reachable widget whose boundary radius is not negative,
    [scaleNode] finds the active point within the boundary and leaves the
    widget as it is. *)
Lemma scaleNode_reachable this :
  reachable this -> 0 <= bgRadius this -> scaleNode this = (Normal tt, this).
Proof.
  intros Hreach Hr. pose proof (reachable_invariant this Hreach) as Hinv.
  destruct (activePoint this) as [i |] eqn:Ha; [| now apply scaleNode_none].
  destruct (lookup_lt_is_Some_2 (val this) i) as [p Hp];
    [now apply (inv_active this Hinv) |].
  apply (scaleNode_inside this i p Ha Hp).
  apply centerDistance_le; [exact Hr |].
  now apply (reachable_clamped this Hreach i p).
Qed.

(** X15. In a reachable widget whose boundary radius is not negative,
    [release] moves no point and changes no element: it emits one [change]
    event with the data of the widget, or nothing in transmit mode 1 when
    no point is active. *)
Theorem release_only_reports this :
  reachable this ->
  0 <= bgRadius this ->
  clickable this = true ->
  release this =
  (Normal tt,
   if bool_decide (transmitMode this = 1%Z /\ activePoint this = None)
   then this else transmitted this).
Proof.
  intros Hreach Hr Hc. pose proof (reachable_invariant this Hreach) as Hinv.
  unfold release, render. rewrite bind_get, Hc.
  rewrite (bind_normal _ _ _ _ _ (scaleNode_reachable this Hreach Hr)).
  case_bool_decide as Hsilent.
  - destruct Hsilent as [Hm Hn].
    now rewrite (bind_normal _ _ _ _ _ (processToTransmit_silent this Hm Hn)).
  - rewrite (bind_normal _ _ this tt (transmitted this)); [reflexivity |].
    apply processToTransmit_run.
    + intros j Hj. apply lookup_lt_is_Some. now apply (inv_active this Hinv).
    + intros Hm. destruct (activePoint this); [eauto | tauto].
Qed.

Lemma release_only_reports_witness :
  release boundary_panel =
  (Normal tt,
   if bool_decide (transmitMode boundary_panel = 1%Z
                   /\ activePoint boundary_panel = None)
   then boundary_panel else transmitted boundary_panel).
Proof.
  destruct boundary_panel_fields as (_ & Hc & _ & _ & _ & Hr & _).
  apply (release_only_reports boundary_panel).
  - exact reachable_boundary_panel.
  - rewrite Hr. lra.
  - exact Hc.
Defined.

(** X16. With the pointer down on an active point of a reachable widget,
    [move] puts the point at the clipped pointer position and leaves the
    other points; the marker of the point is at the point and has the
    border color, the other markers have no border; the label is
    [nodeSize + 20] below the point; and one [change] event reports the
    widget [move] leaves. *)
Theorem move_drags_active_point this i :
  reachable this ->
  clickable this = true ->
  clicked this = true ->
  activePoint this = Some i ->
  let c := clipped this (XY.x (mouse this)) (XY.y (mouse this)) in
  exists this' p s' l',
    move this = (Normal tt, this')
    /\ val this !! i = Some p
    /\ val this' =
       <[i := Point.new (XY.x c) (XY.y c) (Point.label p) (Point.colorIndex p)]>
         (val this)
    /\ activePoint this' = Some i
    /\ sourceElements this' !! i = Some s'
    /\ Circle.cx s' = XY.x c /\ Circle.cy s' = XY.y c
    /\ Circle.stroke s' = activeBorderColor this
    /\ (forall j s, j <> i -> sourceElements this' !! j = Some s ->
                    Circle.stroke s = "none"%string)
    /\ labelElements this' !! i = Some l'
    /\ Text.x l' = XY.x c /\ Text.y l' = XY.y c + nodeSize this + 20
    /\ emitted this' = emitted this ++ [eventData this'].
Proof.
  intros Hreach Hc Hd Ha c.
  pose proof (reachable_invariant this Hreach) as Hinv.
  pose proof (inv_lockstep this Hinv) as Hlock.
  pose proof (inv_active this Hinv i Ha) as Hi.
  destruct (lookup_lt_is_Some_2 (val this) i Hi) as [p Hp].
  destruct (lookup_lt_is_Some_2 (sourceElements this) i) as [s Hs];
    [now rewrite (lockstep_sources this Hlock) |].
  destruct (lookup_lt_is_Some_2 (labelElements this) i) as [l Hl];
    [now rewrite (lockstep_labels this Hlock) |].
  pose proof (lookup_lt_Some _ _ _ Hs) as His.
  pose proof (lookup_lt_Some _ _ _ Hl) as Hil.
  eexists _, p, _, _.
  split; [apply (move_active_run this i p s l Hc Hd Ha Hp Hs Hl) |].
  split; [exact Hp |].
  split; [reflexivity |].
  split; [exact Ha |].
  split; [cbn; apply list_lookup_insert_eq; now rewrite length_imap |].
  do 3 (split; [reflexivity |]).
  split.
  { intros j s0 Hj Hs0. cbn in Hs0.
    rewrite list_lookup_insert_ne in Hs0 by congruence.
    rewrite list_lookup_imap in Hs0.
    destruct (sourceElements this !! j) as [e |]; [| discriminate].
    cbn in Hs0. injection Hs0 as <-. unfold emphasis.
    rewrite bool_decide_eq_true_2 by congruence. reflexivity. }
  split; [cbn; now apply list_lookup_insert_eq |].
  do 2 (split; [reflexivity |]).
  reflexivity.
Qed.

Lemma move_drags_active_point_witness :
  exists this' p,
    move boundary_panel = (Normal tt, this')
    /\ val boundary_panel !! 0%nat = Some p
    /\ activePoint this' = Some 0%nat.
Proof.
  destruct boundary_panel_fields as (Ha & Hc & _).
  destruct (move_drags_active_point boundary_panel 0%nat)
    as (this' & p & s' & l' & Hrun & Hp & _ & Ha' & _).
  - exact reachable_boundary_panel.
  - exact Hc.
  - reflexivity.
  - exact Ha.
  - exists this', p. auto.
Defined.

(** ** [click] away from every point *)

Lemma set_emitted_id this : set_emitted (emitted this) this = this.
Proof. now destruct this. Qed.

(** [processToTransmit] without an active point returns, and emits nothing
    in transmit mode 1. *)
Lemma processToTransmit_none this :
  activePoint this = None ->
  exists events,
    processToTransmit this
    = (Normal tt, set_emitted (emitted this ++ events) this)
    /\ (transmitMode this = 1%Z -> events = []).
Proof.
  intros Ha. unfold processToTransmit. rewrite bind_get.
  destruct (transmitMode this =? 0)%Z eqn:H0.
  - destruct (processToTransmit_loop this (val this) [] []) as [distances angles].
    exists [AllPoints angles distances]. split; [reflexivity |].
    intros Hm. rewrite Hm in H0. discriminate.
  - destruct (transmitMode this =? 1)%Z eqn:H1.
    + rewrite Ha. exists []. rewrite app_nil_r, set_emitted_id. auto.
    + exists [Undefined]. split; [reflexivity |].
      intros Hm. rewrite Hm in H1. discriminate.
Qed.

(** X17. A [click] that hits no point while [newPointsGeneratable] is off
    only clears the active index, in every widget: the points and the
    elements are left as they are, and in transmit mode 1 no [change] event
    is emitted. *)
Theorem click_deselects this :
  clickable this = true ->
  newPointsGeneratable this = false ->
  hitTest this (XY.x (mouse this)) (XY.y (mouse this)) = None ->
  exists events,
    click this
    = (Normal tt, set_emitted (emitted this ++ events) (set_activePoint None this))
    /\ (transmitMode this = 1%Z -> events = []).
Proof.
  intros Hc Hg Hhit. unfold click. rewrite bind_get, Hc.
  rewrite (bind_normal (setActivePoint _ _) _ this tt (set_activePoint None this))
    by (unfold setActivePoint, modify; now rewrite Hhit).
  set (this1 := set_activePoint None this).
  rewrite bind_get.
  change (newPointsGeneratable this1) with (newPointsGeneratable this). rewrite Hg.
  rewrite (bind_normal (ret tt) _ this1 tt this1) by reflexivity.
  rewrite (bind_normal scaleNode _ this1 tt this1) by (now apply scaleNode_none).
  destruct (processToTransmit_none this1 eq_refl) as (events1 & Hrun1 & Hm1).
  rewrite (bind_normal _ _ _ _ _ Hrun1).
  set (this2 := set_emitted (emitted this1 ++ events1) this1).
  unfold move, render. rewrite bind_get.
  change (clickable this2) with (clickable this). rewrite Hc.
  destruct (clicked this2).
  - change (activePoint this2) with (@None nat).
    rewrite (bind_normal (ret tt) _ this2 tt this2) by reflexivity.
    destruct (processToTransmit_none this2 eq_refl) as (events2 & Hrun2 & Hm2).
    rewrite (bind_normal _ _ _ _ _ Hrun2).
    exists (events1 ++ events2). split.
    + unfold ret, this2. cbn [emitted set_emitted]. rewrite <- app_assoc. reflexivity.
    + intros Hm. now rewrite (Hm1 Hm), (Hm2 Hm).
  - exists events1. split; [reflexivity | exact Hm1].
Qed.

Lemma click_deselects_witness :
  let this := set_interaction true false 0 (constructor defaults_size) in
  exists events,
    click this
    = (Normal tt, set_emitted (emitted this ++ events) (set_activePoint None this))
    /\ (transmitMode this = 1%Z -> events = []).
Proof.
  intros this. apply (click_deselects this); reflexivity.
Defined.

(** A clipped point passes the test of [scaleNode]. *)
Lemma clipped_within this px py :
  ~ (XY.x (clipped this px py) - circleCenterX this)
    * (XY.x (clipped this px py) - circleCenterX this)
    + (XY.y (clipped this px py) - circleCenterY this)
      * (XY.y (clipped this px py) - circleCenterY this)
    > bgRadius this * bgRadius this.
Proof.
  destruct (Rgt_dec ((px - circleCenterX this) * (px - circleCenterX this)
                     + (py - circleCenterY this) * (py - circleCenterY this))
                    (bgRadius this * bgRadius this)) as [Hout | Hin].
  - rewrite clipped_outside_distquad by exact Hout. lra.
  - now rewrite clipped_inside by exact Hin.
Qed.

(** [generateNewPoint] leaves a widget that a further [scaleNode] does not
    change. *)
Lemma scaleNode_generated this x y label colorIndex :
  scaleNode (generated this x y label colorIndex)
  = (Normal tt, generated this x y label colorIndex).
Proof.
  apply (scaleNode_inside _ (length (val this))
           (Point.new (XY.x (clipped this x y)) (XY.y (clipped this x y))
              label colorIndex)).
  - reflexivity.
  - cbn. now apply list_lookup_middle.
  - apply (clipped_within this).
Qed.

(** X18. With the pointer down away from every point of a reachable widget,
    while [newPointsGeneratable] is on, [click] creates one point: it is
    the last point and the active one, it is at the clipped pointer
    position, its label is ["Point "] and the new number of points, and its
    color index is [currentColorIndex]; its marker and its label are the
    last elements of their arrays, at the point and [nodeSize + 20] below
    it; and two [change] events are emitted, the second with the data of
    the widget [click] leaves. *)
Theorem click_creates_point this :
  reachable this ->
  clickable this = true ->
  clicked this = true ->
  newPointsGeneratable this = true ->
  hitTest this (XY.x (mouse this)) (XY.y (mouse this)) = None ->
  let c := clipped this (XY.x (mouse this)) (XY.y (mouse this)) in
  let n := length (val this) in
  exists this' s l first,
    click this = (Normal tt, this')
    /\ val this' =
       val this ++
       [Point.new (XY.x c) (XY.y c) (pointLabel (n + 1)) (currentColorIndex this)]
    /\ activePoint this' = Some n
    /\ sourceElements this' !! n = Some s
    /\ length (sourceElements this') = S n
    /\ Circle.cx s = XY.x c /\ Circle.cy s = XY.y c
    /\ Circle.r s = nodeSize this
    /\ Circle.fill s = customColor this (currentColorIndex this)
    /\ Circle.stroke s = activeBorderColor this
    /\ labelElements this' !! n = Some l
    /\ length (labelElements this') = S n
    /\ Text.textContent l = pointLabel (n + 1)
    /\ Text.x l = XY.x c /\ Text.y l = XY.y c + nodeSize this + 20
    /\ emitted this' = emitted this ++ [first; eventData this'].
Proof.
  intros Hreach Hc Hd Hg Hhit c n.
  pose proof (reachable_invariant this Hreach) as Hinv.
  pose proof (inv_lockstep this Hinv) as Hlock.
  pose proof (lockstep_sources this Hlock) as Hls.
  pose proof (lockstep_labels this Hlock) as Hll.
  assert (0 <= nodeSize this) as Hn by (rewrite (inv_nodeSize this Hinv); lra).
  set (label := pointLabel (n + 1)).
  set (color := currentColorIndex this).
  set (this1 := set_activePoint None this).
  set (this2 := generated this1 (XY.x (mouse this)) (XY.y (mouse this)) label color).
  set (this3 := transmitted this2).
  set (q := Point.new (XY.x c) (XY.y c) label color).
  set (s := Circle.new (nextId this) (XY.x c) (XY.y c) (nodeSize this) "0.5"
              (customColor this color) "none").
  set (l := Text.new (S (nextId this)) (XY.x c) (XY.y c + nodeSize this + 20)
              "black" "middle" label).
  assert (click this = (Normal tt, transmitted (moved this3 n q s l))) as Hrun.
  { unfold click. rewrite bind_get, Hc.
    rewrite (bind_normal (setActivePoint _ _) _ this tt this1)
      by (unfold setActivePoint, modify; now rewrite Hhit).
    rewrite bind_get.
    change (newPointsGeneratable this1) with (newPointsGeneratable this).
    change (activePoint this1) with (@None nat).
    change (mouse this1) with (mouse this).
    change (val this1) with (val this).
    change (currentColorIndex this1) with (currentColorIndex this).
    rewrite Hg. cbv beta iota.
    rewrite (bind_normal _ _ this1 tt this2)
      by (now apply generateNewPoint_run).
    rewrite (bind_normal scaleNode _ this2 tt this2)
      by (apply scaleNode_generated).
    rewrite (bind_normal processToTransmit _ this2 tt this3).
    2:{ apply processToTransmit_run.
        - intros j Hj. cbn in Hj. injection Hj as <-.
          cbn. rewrite list_lookup_middle by reflexivity. eauto.
        - intros _. cbn. eauto. }
    apply (move_active_run this3 n q s l).
    - exact Hc.
    - exact Hd.
    - reflexivity.
    - cbn. now apply list_lookup_middle.
    - cbn. apply list_lookup_middle. now rewrite Hls.
    - cbn. apply list_lookup_middle. now rewrite Hll. }
  assert (clipped this3 (XY.x (mouse this3)) (XY.y (mouse this3)) = c) as Hclip
    by (now apply clipped_ext).
  eexists _, _, _, _. split; [exact Hrun |].
  unfold moved. rewrite Hclip.
  cbn [val transmitted set_emitted set_labelElements set_sourceElements set_val
       activePoint sourceElements labelElements emitted].
  split.
  { change (val this3) with (val this ++ [q]). unfold n.
    rewrite insert_last. reflexivity. }
  split; [reflexivity |].
  assert (length (sourceElements this3) = S n) as Hls3.
  { change (sourceElements this3) with (sourceElements this ++ [s]).
    rewrite length_app, Hls. cbn. unfold n. lia. }
  assert (length (labelElements this3) = S n) as Hll3.
  { change (labelElements this3) with (labelElements this ++ [l]).
    rewrite length_app, Hll. cbn. unfold n. lia. }
  split; [apply list_lookup_insert_eq; rewrite length_imap, Hls3; lia |].
  split; [now rewrite length_insert, length_imap |].
  do 5 (split; [reflexivity |]).
  split; [apply list_lookup_insert_eq; rewrite Hll3; lia |].
  split; [now rewrite length_insert |].
  do 3 (split; [reflexivity |]).
  change (emitted this3) with (emitted this ++ [eventData this2]).
  rewrite <- app_assoc. reflexivity.
Qed.

Lemma click_creates_point_witness :
  let this := set_mouse (XY.new 350 350) true (constructor defaults_size) in
  exists this',
    click this = (Normal tt, this')
    /\ activePoint this' = Some 0%nat
    /\ length (val this') = 1%nat.
Proof.
  intros this.
  destruct (click_creates_point this)
    as (this' & s & l & first & Hrun & Hv & Ha & _).
  - apply reach_mouse, reach_new.
  - reflexivity.
  - reflexivity.
  - reflexivity.
  - reflexivity.
  - exists this'. split; [exact Hrun |]. split; [exact Ha |].
    rewrite Hv. reflexivity.
Defined.

(** ** [removeActivePoint], [moveExistingPoint] and [addNewPoint] in the
    widgets a program can reach *)

(** X19. [removeActivePoint] in a reachable widget with the point at [i]
    active takes the point, its marker and its label out of the three
    arrays and out of [this.element]: the entries before [i] keep their
    index, the ones after [i] move down by one, no point is active
    afterwards and no [change] event is emitted. *)
Theorem removeActivePoint_shifts this i :
  reachable this ->
  activePoint this = Some i ->
  exists this' s l,
    removeActivePoint this = (Normal tt, this')
    /\ sourceElements this !! i = Some s
    /\ labelElements this !! i = Some l
    /\ activePoint this' = None
    /\ S (length (val this')) = length (val this)
    /\ (forall j, (j < i)%nat ->
          val this' !! j = val this !! j
          /\ sourceElements this' !! j = sourceElements this !! j
          /\ labelElements this' !! j = labelElements this !! j)
    /\ (forall j, (i <= j)%nat ->
          val this' !! j = val this !! S j
          /\ sourceElements this' !! j = sourceElements this !! S j
          /\ labelElements this' !! j = labelElements this !! S j)
    /\ (Circle.eid s ∉ element this')
    /\ (Text.eid l ∉ element this')
    /\ emitted this' = emitted this.
Proof.
  intros Hreach Ha.
  pose proof (reachable_invariant this Hreach) as Hinv.
  pose proof (inv_lockstep this Hinv) as Hlock.
  pose proof (inv_active this Hinv i Ha) as Hi.
  destruct (lookup_lt_is_Some_2 (sourceElements this) i) as [s Hs];
    [now rewrite (lockstep_sources this Hlock) |].
  destruct (lookup_lt_is_Some_2 (labelElements this) i) as [l Hl];
    [now rewrite (lockstep_labels this Hlock) |].
  exists (removed this i s l), s, l.
  split; [now apply removeActivePoint_run |].
  do 3 (split; [assumption || reflexivity |]).
  cbn [val sourceElements labelElements element emitted removed set_activePoint
       set_val set_labelElements set_element set_sourceElements].
  split.
  { rewrite length_delete by (now apply lookup_lt_is_Some). lia. }
  split.
  { intros j Hj. now rewrite !list_lookup_delete_lt by exact Hj. }
  split.
  { intros j Hj. now rewrite !list_lookup_delete_ge by exact Hj. }
  split.
  { intros H. apply list_elem_of_filter in H as [_ H].
    apply list_elem_of_filter in H as [H _]. congruence. }
  split; [| reflexivity].
  intros H. apply list_elem_of_filter in H as [H _]. congruence.
Qed.

Lemma removeActivePoint_shifts_witness :
  exists this',
    removeActivePoint boundary_panel = (Normal tt, this')
    /\ activePoint this' = None.
Proof.
  destruct boundary_panel_fields as (Ha & _).
  destruct (removeActivePoint_shifts boundary_panel 0%nat)
    as (this' & s & l & Hrun & _ & _ & Hn & _).
  - exact reachable_boundary_panel.
  - exact Ha.
  - exists this'. auto.
Defined.

Lemma at_Z_in_range {A} (a : list A) (i : Z) :
  (0 <= i < Z.of_nat (length a))%Z -> is_Some (at_Z a i).
Proof.
  intros Hi. unfold at_Z.
  destruct (Z.leb_spec 0 i) as [_ | H]; [| lia].
  apply lookup_lt_is_Some. lia.
Qed.

(** X20. [moveExistingPoint] with an index of [val], in a reachable widget
    whose boundary radius is not negative, puts the marker and the label of
    the point at the panel coordinates of the distance and the angle, and
    the point itself at these coordinates, or at the clipped coordinates
    when the point is the active one; it leaves the other points, the
    active index and the children of [this.element], and emits no [change]
    event. *)
Theorem moveExistingPoint_places this pointIndex distance angle :
  reachable this ->
  0 <= bgRadius this ->
  (0 <= pointIndex < Z.of_nat (length (val this)))%Z ->
  let i := Z.to_nat pointIndex in
  let xy := panelCoordinates this distance angle in
  let c := clipped this (XY.x xy) (XY.y xy) in
  exists this' p s l,
    moveExistingPoint pointIndex distance angle this = (Normal tt, this')
    /\ val this !! i = Some p
    /\ sourceElements this !! i = Some s
    /\ labelElements this !! i = Some l
    /\ val this' =
       <[i := if bool_decide (activePoint this = Some i)
              then Point.new (XY.x c) (XY.y c) (Point.label p) (Point.colorIndex p)
              else Point.new (XY.x xy) (XY.y xy) (Point.label p) (Point.colorIndex p)]>
         (val this)
    /\ sourceElements this' =
       <[i := Circle.set_cy (XY.y xy) (Circle.set_cx (XY.x xy) s)]>
         (sourceElements this)
    /\ labelElements this' =
       <[i := Text.set_y (XY.y xy + nodeSize this + 20) (Text.set_x (XY.x xy) l)]>
         (labelElements this)
    /\ activePoint this' = activePoint this
    /\ element this' = element this
    /\ emitted this' = emitted this.
Proof.
  intros Hreach Hr Hrange i xy c.
  pose proof (reachable_invariant this Hreach) as Hinv.
  pose proof (inv_lockstep this Hinv) as Hlock.
  destruct (at_Z_in_range (val this) pointIndex Hrange) as [p Hp].
  pose proof (at_Z_Some _ _ _ Hp) as Hp'. fold i in Hp'.
  pose proof (lookup_lt_Some _ _ _ Hp') as Hi.
  destruct (lookup_lt_is_Some_2 (sourceElements this) i) as [s Hs];
    [now rewrite (lockstep_sources this Hlock) |].
  destruct (lookup_lt_is_Some_2 (labelElements this) i) as [l Hl];
    [now rewrite (lockstep_labels this Hlock) |].
  pose proof (moveExistingPoint_run this pointIndex distance angle p s l Hp Hs Hl)
    as Hrun.
  fold i in Hrun. fold xy in Hrun.
  set (this1 := movedTo this i p s l distance angle) in Hrun.
  set (p1 := Point.new (XY.x xy) (XY.y xy) (Point.label p) (Point.colorIndex p)).
  assert (val this1 = <[i := p1]> (val this)) as Hv1 by reflexivity.
  destruct (activePoint this) as [a |] eqn:Ha.
  - destruct (decide (a = i)) as [-> | Hne].
    + rewrite bool_decide_eq_true_2 by reflexivity.
      rewrite (scaleNode_run this1 i p1) in Hrun;
        [| exact Ha | rewrite Hv1; now apply list_lookup_insert_eq].
      eexists _, p, s, l. split; [exact Hrun |].
      do 3 (split; [assumption |]).
      split.
      { cbn [val set_val]. rewrite Hv1, list_insert_insert_eq.
        rewrite (clipped_ext this this1) by reflexivity. reflexivity. }
      repeat split; assumption || reflexivity.
    + rewrite bool_decide_eq_false_2 by congruence.
      destruct (lookup_lt_is_Some_2 (val this) a) as [q Hq];
        [now apply (inv_active this Hinv) |].
      rewrite (scaleNode_inside this1 a q) in Hrun.
      * eexists _, p, s, l. split; [exact Hrun |].
        repeat split; assumption || reflexivity.
      * exact Ha.
      * rewrite Hv1, list_lookup_insert_ne by congruence. exact Hq.
      * change (~ (Point.x q - circleCenterX this) * (Point.x q - circleCenterX this)
                  + (Point.y q - circleCenterY this) * (Point.y q - circleCenterY this)
                  > bgRadius this * bgRadius this).
        apply centerDistance_le; [exact Hr |].
        now apply (reachable_clamped this Hreach a q).
  - rewrite bool_decide_eq_false_2 by congruence.
    rewrite (scaleNode_none this1 Ha) in Hrun.
    eexists _, p, s, l. split; [exact Hrun |].
    repeat split; assumption || reflexivity.
Qed.

Lemma moveExistingPoint_places_witness :
  exists this',
    moveExistingPoint 0 1 90 boundary_panel = (Normal tt, this')
    /\ activePoint this' = activePoint boundary_panel.
Proof.
  destruct boundary_panel_fields as (_ & _ & _ & _ & _ & Hr & _).
  destruct (moveExistingPoint_places boundary_panel 0 1 90)
    as (this' & p & s & l & Hrun & _ & _ & _ & _ & _ & _ & Ha & _).
  - exact reachable_boundary_panel.
  - rewrite Hr. lra.
  - rewrite val_boundary_panel. simpl. lia.
  - exists this'. auto.
Defined.

(** The distance [calculateDistance] reports from a listener at the panel
    center is the distance in pixels from the center, in meters. *)
Lemma calculateDistance_center this p :
  Point.x (listenerPoint this) = circleCenterX this ->
  Point.y (listenerPoint this) = circleCenterY this ->
  calculateDistance this (listenerPoint this) p
  = centerDistance this (Point.x p) (Point.y p) / meterScale this.
Proof.
  intros Hx Hy. unfold calculateDistance, convertToMeters, centerDistance.
  now rewrite Hx, Hy.
Qed.

(** The panel coordinates of a distance that is not negative are at that
    distance, in pixels, from the center. *)
Lemma centerDistance_panelCoordinates this distance angle :
  0 <= distance * meterScale this ->
  centerDistance this (XY.x (panelCoordinates this distance angle))
    (XY.y (panelCoordinates this distance angle))
  = distance * meterScale this.
Proof.
  intros Hd. rewrite panelCoordinates_any. unfold centerDistance. cbn [XY.x XY.y].
  set (t := (angle - 90) / 180 * PI).
  rewrite <- (panel_vector_norm (distance * meterScale this) t Hd).
  f_equal. ring.
Qed.

(** X21. [addNewPoint] in a reachable widget with a positive boundary
    radius, for a positive distance and an angle of [0, 360) that is not
    relative to the head: the new point is the last and the active one, and
    it reads back at the given angle and at the given distance, or at the
    distance of the boundary when that is smaller. *)
Theorem addNewPoint_reads_back this distance angle label colorIndex :
  reachable this ->
  angleRelativeToHead this = false ->
  0 < bgRadius this ->
  0 < distance ->
  0 <= angle < 360 ->
  exists this' p,
    addNewPoint distance angle label colorIndex this = (Normal tt, this')
    /\ val this' = val this ++ [p]
    /\ activePoint this' = Some (length (val this))
    /\ Point.label p = label
    /\ Point.colorIndex p = colorIndex
    /\ calculateAngle this' p = angle
    /\ calculateDistance this' (listenerPoint this') p
       = Rmin distance (bgRadius this / meterScale this).
Proof.
  intros Hreach Hrel Hr Hd Hangle.
  pose proof (reachable_invariant this Hreach) as Hinv.
  pose proof (inv_lockstep this Hinv) as Hlock.
  pose proof (inv_meterScale this Hinv) as Hm.
  destruct (inv_listener this Hinv) as [Hlx Hly].
  set (xy := panelCoordinates this distance angle).
  set (c := clipped this (XY.x xy) (XY.y xy)).
  exists (added this distance angle label colorIndex),
         (Point.new (XY.x c) (XY.y c) label colorIndex).
  split.
  { apply addNewPoint_added; [rewrite (inv_nodeSize this Hinv); lra |].
    apply (lockstep_sources this Hlock). }
  do 4 (split; [reflexivity |]).
  change (calculateAngle this (Point.new (XY.x c) (XY.y c) label colorIndex) = angle
          /\ calculateDistance this (listenerPoint this)
               (Point.new (XY.x c) (XY.y c) label colorIndex)
             = Rmin distance (bgRadius this / meterScale this)).
  assert (0 < meterScale this) as Hmpos by (rewrite Hm; lra).
  destruct (round_trip this distance angle label colorIndex Hmpos Hlx Hly Hrel Hd Hangle)
    as [Hdist Hang].
  fold xy in Hdist, Hang.
  split.
  { unfold c. rewrite (clipped_angle this _ _ label colorIndex label colorIndex)
      by exact Hr. exact Hang. }
  rewrite calculateDistance_center by assumption. cbn [Point.x Point.y].
  assert (0 <= distance * meterScale this) as Hdm by nra.
  pose proof (centerDistance_panelCoordinates this distance angle Hdm) as Hcd.
  fold xy in Hcd.
  destruct (Rle_dec (distance * meterScale this) (bgRadius this)) as [Hin | Hout].
  - assert (c = XY.new (XY.x xy) (XY.y xy)) as ->.
    { apply clipped_inside. apply centerDistance_le; [lra |]. now rewrite Hcd. }
    cbn [XY.x XY.y]. rewrite Hcd, Rmin_left.
    + field. lra.
    + apply Rmult_le_reg_r with (meterScale this); [exact Hmpos |].
      unfold Rdiv. rewrite Rmult_assoc, Rinv_l by lra. lra.
  - assert ((XY.x xy - circleCenterX this) * (XY.x xy - circleCenterX this)
            + (XY.y xy - circleCenterY this) * (XY.y xy - circleCenterY this)
            > bgRadius this * bgRadius this) as Hgt.
    { destruct (Rgt_dec ((XY.x xy - circleCenterX this) * (XY.x xy - circleCenterX this)
            + (XY.y xy - circleCenterY this) * (XY.y xy - circleCenterY this))
            (bgRadius this * bgRadius this)) as [H | H]; [exact H |].
      apply centerDistance_le in H; [| lra]. rewrite Hcd in H. lra. }
    unfold centerDistance, c. rewrite clipped_outside_distquad by exact Hgt.
    rewrite sqrt_square by lra. rewrite Rmin_right; [reflexivity |].
    apply Rmult_le_reg_r with (meterScale this); [exact Hmpos |].
    unfold Rdiv. rewrite Rmult_assoc, Rinv_l by lra. lra.
Qed.

Lemma addNewPoint_reads_back_witness :
  exists this' p,
    addNewPoint 2 0 "S1" 0 (constructor defaults_size) = (Normal tt, this')
    /\ val this' = [p]
    /\ calculateAngle this' p = 0.
Proof.
  destruct (addNewPoint_reads_back (constructor defaults_size) 2 0 "S1" 0)
    as (this' & p & Hrun & Hv & _ & _ & _ & Ha & _).
  - apply reach_new.
  - reflexivity.
  - rewrite bgRadius_default. lra.
  - lra.
  - lra.
  - exists this', p. auto.
Defined.

(** ** [addNewPoint] followed by [removeActivePoint] *)

Lemma imap_emphasis_none n (l : list Circle.t) :
  (length l <= n)%nat -> imap (emphasis n) l = Circle.set_stroke "none" <$> l.
Proof.
  intros Hn. apply list_eq. intros j.
  rewrite list_lookup_imap, list_lookup_fmap.
  destruct (l !! j) as [e |] eqn:He; [| reflexivity].
  apply lookup_lt_Some in He. cbn. unfold emphasis.
  rewrite bool_decide_eq_true_2; [reflexivity |].
  intros H. injection H as ->. lia.
Qed.

(** The markers [addNewPoint] leaves: the marker of the new point has the
    border color, the others have no border. *)
Lemma sourceElements_added this distance angle label colorIndex :
  length (sourceElements this) = length (val this) ->
  let xy := panelCoordinates this distance angle in
  let c := clipped this (XY.x xy) (XY.y xy) in
  sourceElements (added this distance angle label colorIndex)
  = (Circle.set_stroke "none" <$> sourceElements this)
    ++ [Circle.new (nextId this) (XY.x c) (XY.y c) (nodeSize this) "0.5"
          (customColor this colorIndex) (activeBorderColor this)].
Proof.
  intros Hlen xy c. unfold added, emphasized, generated.
  cbn [sourceElements set_sourceElements set_labelElements set_element
       set_nextId set_val set_activePoint activeBorderColor].
  rewrite <- Hlen, insert_last, imap_app, imap_emphasis_none by lia.
  cbn [imap]. rewrite Nat.add_0_r, emphasis_self. reflexivity.
Qed.

Lemma delete_last {A} (l : list A) (a : A) : delete (length l) (l ++ [a]) = l.
Proof. now rewrite delete_middle, app_nil_r. Qed.

(** X22. [addNewPoint] followed by [removeActivePoint], in a reachable
    widget: both return, and the points, the labels and the children of
    [this.element] are the ones before the two calls; so are the markers,
    but for their borders, which are all taken off; no point is active and
    no [change] event is emitted. *)
Theorem addNewPoint_removeActivePoint this distance angle label colorIndex :
  reachable this ->
  exists this1 this2,
    addNewPoint distance angle label colorIndex this = (Normal tt, this1)
    /\ removeActivePoint this1 = (Normal tt, this2)
    /\ val this2 = val this
    /\ labelElements this2 = labelElements this
    /\ sourceElements this2 = (Circle.set_stroke "none" <$> sourceElements this)
    /\ element this2 = element this
    /\ activePoint this2 = None
    /\ emitted this2 = emitted this.
Proof.
  intros Hreach.
  pose proof (reachable_invariant this Hreach) as Hinv.
  pose proof (inv_lockstep this Hinv) as Hlock.
  pose proof (lockstep_sources this Hlock) as Hls.
  pose proof (lockstep_labels this Hlock) as Hll.
  destruct (reachable_attached this Hreach) as [_ Hch Hcr].
  set (this1 := added this distance angle label colorIndex).
  set (xy := panelCoordinates this distance angle).
  set (c := clipped this (XY.x xy) (XY.y xy)).
  set (s := Circle.new (nextId this) (XY.x c) (XY.y c) (nodeSize this) "0.5"
              (customColor this colorIndex) (activeBorderColor this)).
  set (l := Text.new (S (nextId this)) (XY.x c) (XY.y c + nodeSize this + 20)
              "black" "middle" label).
  set (n := length (val this)).
  assert (sourceElements this1 = (Circle.set_stroke "none" <$> sourceElements this) ++ [s])
    as Hs1 by (now apply sourceElements_added).
  assert (labelElements this1 = labelElements this ++ [l]) as Hl1 by reflexivity.
  assert (val this1
          = val this ++ [Point.new (XY.x c) (XY.y c) label colorIndex]) as Hv1
    by reflexivity.
  assert (element this1 = element this ++ [nextId this; S (nextId this)]) as He1
    by reflexivity.
  exists this1, (removed this1 n s l).
  split.
  { apply addNewPoint_added; [rewrite (inv_nodeSize this Hinv); lra | exact Hls]. }
  split.
  { apply removeActivePoint_run; [reflexivity | |].
    - rewrite Hs1. apply list_lookup_middle. now rewrite length_fmap.
    - rewrite Hl1. apply list_lookup_middle. now rewrite Hll. }
  cbn [val sourceElements labelElements element emitted activePoint removed
       set_activePoint set_val set_labelElements set_element set_sourceElements].
  rewrite Hv1, Hl1, Hs1, He1. unfold n.
  split; [apply delete_last |].
  split; [rewrite <- Hll; apply delete_last |].
  split.
  { rewrite <- Hls, <- (length_fmap (Circle.set_stroke "none")). apply delete_last. }
  split; [| split; reflexivity].
  assert (Forall (fun e => (e < nextId this)%nat) (element this)) as Hlt
    by (now rewrite Hch).
  cbn [Circle.eid Text.eid s l].
  rewrite !filter_app.
  rewrite (filter_all (fun e => e <> nextId this) (element this))
    by (apply (Forall_impl _ _ _ Hlt); intros e He; lia).
  rewrite (filter_all (fun e => e <> S (nextId this)) (element this))
    by (apply (Forall_impl _ _ _ Hlt); intros e He; lia).
  rewrite filter_cons_False by tauto.
  rewrite filter_cons_True by lia.
  rewrite filter_nil, filter_cons_False by tauto.
  rewrite filter_nil. apply app_nil_r.
Qed.

Lemma addNewPoint_removeActivePoint_witness :
  exists this1 this2,
    addNewPoint 2 0 "S1" 0 (constructor defaults_size) = (Normal tt, this1)
    /\ removeActivePoint this1 = (Normal tt, this2)
    /\ val this2 = val (constructor defaults_size).
Proof.
  destruct (addNewPoint_removeActivePoint (constructor defaults_size) 2 0 "S1" 0)
    as (this1 & this2 & Hrun1 & Hrun2 & Hv & _).
  - apply reach_new.
  - exists this1, this2. auto.
Defined.

(** ** The calls in the widgets a program can reach *)

(** X23. In a reachable widget every call returns, a [moveExistingPoint]
    provided its index is an index of [val]. *)
Theorem calls_return c this :
  reachable this ->
  (forall pointIndex distance angle,
      c = MoveExistingPoint pointIndex distance angle ->
      (0 <= pointIndex < Z.of_nat (length (val this)))%Z) ->
  fst (run c this) = Normal tt.
Proof.
  intros Hreach Hrange.
  destruct (run_invariant c this (reachable_invariant this Hreach))
    as [_ [Hret | (pointIndex & distance & angle & Hc & Hnone & _)]];
    [exact Hret |].
  apply at_Z_None in Hnone. specialize (Hrange _ _ _ Hc). lia.
Qed.

Lemma calls_return_witness :
  fst (run Click (constructor defaults_size)) = Normal tt.
Proof.
  apply (calls_return Click (constructor defaults_size)).
  - apply reach_new.
  - intros pointIndex distance angle H. discriminate H.
Defined.

Lemma settings_geometry this this' :
  settings this' = settings this ->
  width this' = width this /\ height this' = height this
  /\ circleCenterX this' = circleCenterX this
  /\ circleCenterY this' = circleCenterY this
  /\ bgRadius this' = bgRadius this
  /\ nodeSize this' = nodeSize this
  /\ nodeSizeMain this' = nodeSizeMain this
  /\ meterScale this' = meterScale this
  /\ listenerPoint this' = listenerPoint this.
Proof.
  unfold settings. intros H. injection H. intros. repeat split; assumption.
Qed.

(** The geometry the constructor computes from the size of the panel. *)
Lemma reachable_constructed this :
  reachable this ->
  circleCenterX this = width this / 2
  /\ circleCenterY this = height this / 2
  /\ bgRadius this = Rmin (width this / 2) (height this / 2) - 50
  /\ nodeSize this = 30
  /\ nodeSizeMain this = 45
  /\ meterScale this = 100
  /\ listenerPoint this
     = Point.new (width this / 2) (height this / 2) "Listener" 0%Z.
Proof.
  induction 1 as [size | m down this _ IH | orientation relative this _ IH
                  | mode this _ IH | editable generatable color this _ IH
                  | c this _ IH]; try exact IH.
  - cbn. repeat split; try reflexivity. lra.
  - destruct (settings_geometry _ _ (run_settings c this))
      as (-> & -> & -> & -> & -> & -> & -> & -> & ->).
    exact IH.
Qed.

(** X24. The geometry of every reachable widget is the one the constructor
    computed from the size of the panel: the center is the middle of the
    panel, with the listener on it, the boundary radius is 50 pixels less
    than half the smaller side, [nodeSize] is 30 and [meterScale] 100.  So
    the boundary radius is not negative exactly when the panel is at least
    100 pixels wide and high. *)
Theorem reachable_geometry this :
  reachable this ->
  circleCenterX this = width this / 2
  /\ circleCenterY this = height this / 2
  /\ bgRadius this = Rmin (width this / 2) (height this / 2) - 50
  /\ nodeSize this = 30
  /\ meterScale this = 100
  /\ listenerPoint this
     = Point.new (circleCenterX this) (circleCenterY this) "Listener" 0%Z
  /\ (0 <= bgRadius this <-> 100 <= width this /\ 100 <= height this).
Proof.
  intros Hreach.
  destruct (reachable_constructed this Hreach)
    as (Hx & Hy & Hr & Hn & _ & Hm & Hl).
  rewrite Hx, Hy, Hr.
  do 6 (split; [assumption || reflexivity |]).
  unfold Rmin. destruct (Rle_dec (width this / 2) (height this / 2)); lra.
Qed.

Lemma reachable_geometry_witness :
  bgRadius boundary_panel
  = Rmin (width boundary_panel / 2) (height boundary_panel / 2) - 50.
Proof.
  apply (reachable_geometry boundary_panel). exact reachable_boundary_panel.
Defined.

(** ** The point [click] selects *)

Lemma click_tail_stable a this0 :
  returns (stable a this0) (scaleNode ;; processToTransmit ;; move)
    (fun _ => stable a this0).
Proof. do 2 returns_step. apply move_stable. Qed.

(** X25. [click] in a reachable widget returns, and selects the point the
    pointer is on; on no point it creates one and selects it when
    [newPointsGeneratable] is on, and selects none otherwise.  It creates
    no point in the other cases, and never removes one. *)
Theorem click_selects this :
  reachable this ->
  clickable this = true ->
  let hit := hitTest this (XY.x (mouse this)) (XY.y (mouse this)) in
  exists this',
    click this = (Normal tt, this')
    /\ activePoint this' =
       match hit with
       | Some i => Some i
       | None =>
           if newPointsGeneratable this then Some (length (val this)) else None
       end
    /\ length (val this') =
       match hit with
       | Some _ => length (val this)
       | None =>
           if newPointsGeneratable this then S (length (val this))
           else length (val this)
       end.
Proof.
  intros Hreach Hc hit.
  pose proof (reachable_invariant this Hreach) as Hinv.
  set (this1 := set_activePoint hit this).
  assert (invariant this1) as Hinv1.
  { destruct (setActivePoint_invariant (XY.x (mouse this)) (XY.y (mouse this))
                this Hinv) as (u & this' & Hrun & H).
    unfold setActivePoint, modify in Hrun.
    assert (this' = this1) as -> by (unfold this1, hit; congruence). exact H. }
  assert (forall thisM,
             invariant thisM ->
             exists this',
               (scaleNode ;; processToTransmit ;; move) thisM = (Normal tt, this')
               /\ activePoint this' = activePoint thisM
               /\ length (val this') = length (val thisM)) as Htail.
  { intros thisM HinvM.
    destruct (click_tail_stable _ thisM thisM (invariant_stable thisM HinvM))
      as ([] & this' & Hrun & Hst).
    exists this'. split; [exact Hrun |].
    split; [apply Hst | apply (stable_length _ _ _ Hst)]. }
  unfold click. rewrite bind_get, Hc.
  rewrite (bind_normal (setActivePoint _ _) _ this tt this1) by reflexivity.
  rewrite bind_get.
  change (newPointsGeneratable this1) with (newPointsGeneratable this).
  change (activePoint this1) with hit.
  change (mouse this1) with (mouse this).
  change (val this1) with (val this).
  change (currentColorIndex this1) with (currentColorIndex this).
  destruct hit as [i |] eqn:Hhit.
  - rewrite (bind_normal _ _ this1 tt this1)
      by (now destruct (newPointsGeneratable this)).
    apply (Htail this1 Hinv1).
  - destruct (newPointsGeneratable this).
    + erewrite bind_normal.
      2:{ apply generateNewPoint_run.
          change (nodeSize this1) with (nodeSize this).
          rewrite (inv_nodeSize this Hinv). lra. }
      match goal with
      | |- context [generated this1 ?x ?y ?l ?c] =>
          destruct (Htail (generated this1 x y l c)
                      (generated_invariant this1 x y l c Hinv1))
            as (this' & Hrun & Ha & Hlen)
      end.
      exists this'. split; [exact Hrun |].
      split; [exact Ha |].
      rewrite Hlen. cbn. rewrite length_app. cbn. lia.
    + rewrite (bind_normal (ret tt) _ this1 tt this1) by reflexivity.
      apply (Htail this1 Hinv1).
Qed.

Lemma click_selects_witness :
  exists this',
    click boundary_panel = (Normal tt, this')
    /\ activePoint this' = Some 0%nat.
Proof.
  destruct boundary_panel_fields as (_ & Hc & _).
  destruct (click_selects boundary_panel reachable_boundary_panel Hc)
    as (this' & Hrun & Ha & _).
  exists this'. split; [exact Hrun |].
  rewrite Ha. change (XY.x (mouse boundary_panel)) with 670.
  change (XY.y (mouse boundary_panel)) with 350.
  now rewrite hitTest_boundary_panel.
Defined.

(** X26. The hit test at the coordinates of a point of a reachable widget
    finds a point: that one, or one after it whose square covers these
    coordinates. *)
Theorem hitTest_at_point this i p :
  reachable this ->
  val this !! i = Some p ->
  exists j,
    hitTest this (Point.x p) (Point.y p) = Some j /\ (i <= j)%nat.
Proof.
  intros Hreach Hp.
  pose proof (reachable_invariant this Hreach) as Hinv.
  assert (inBox this (Point.x p) (Point.y p) p = true) as Hself
    by (apply inBox_self; rewrite (inv_nodeSize this Hinv); lra).
  destruct (hitTest_cases this (Point.x p) (Point.y p))
    as [[_ Hnone] | (n & q & Hhit & _ & _ & Hlast)].
  - rewrite (Hnone i p Hp) in Hself. discriminate.
  - exists n. split; [exact Hhit |].
    destruct (le_lt_dec i n) as [Hle | Hlt]; [exact Hle |].
    rewrite (Hlast i p Hlt Hp) in Hself. discriminate.
Qed.

Lemma hitTest_at_point_witness :
  exists j, hitTest boundary_panel 650 350 = Some j /\ (0 <= j)%nat.
Proof.
  apply (hitTest_at_point boundary_panel 0%nat (Point.new 650 350 "S1" 0%Z)).
  - exact reachable_boundary_panel.
  - now rewrite val_boundary_panel.
Defined.

(** ** The elements [addNewPoint] and [removeAllPoints] leave *)

(** X27. [addNewPoint] in a reachable widget appends one marker and one
    label, created at the clipped panel coordinates and attached as the
    last children of [this.element]; the new marker has the border color
    and the given color, and the border of every other marker is taken
    off. *)
Theorem addNewPoint_elements this distance angle label colorIndex :
  reachable this ->
  let xy := panelCoordinates this distance angle in
  let c := clipped this (XY.x xy) (XY.y xy) in
  exists this',
    addNewPoint distance angle label colorIndex this = (Normal tt, this')
    /\ sourceElements this' =
       (Circle.set_stroke "none" <$> sourceElements this)
       ++ [Circle.new (nextId this) (XY.x c) (XY.y c) (nodeSize this) "0.5"
             (customColor this colorIndex) (activeBorderColor this)]
    /\ labelElements this' =
       labelElements this
       ++ [Text.new (S (nextId this)) (XY.x c) (XY.y c + nodeSize this + 20)
             "black" "middle" label]
    /\ element this' = element this ++ [nextId this; S (nextId this)]
    /\ emitted this' = emitted this.
Proof.
  intros Hreach xy c.
  pose proof (reachable_invariant this Hreach) as Hinv.
  pose proof (lockstep_sources this (inv_lockstep this Hinv)) as Hls.
  exists (added this distance angle label colorIndex).
  split.
  { apply addNewPoint_added; [rewrite (inv_nodeSize this Hinv); lra | exact Hls]. }
  split; [now apply sourceElements_added |].
  repeat split.
Qed.

Lemma addNewPoint_elements_witness :
  exists this',
    addNewPoint 2 0 "S1" 0 (constructor defaults_size) = (Normal tt, this')
    /\ element this' = [0; 1; 2; 3]%nat.
Proof.
  destruct (addNewPoint_elements (constructor defaults_size) 2 0 "S1" 0)
    as (this' & Hrun & _ & _ & He & _).
  - apply reach_new.
  - exists this'. split; [exact Hrun |]. rewrite He. reflexivity.
Defined.

Lemma removeAllPoints_silent : keeps emitted removeAllPoints.
Proof.
  pose proof removeAllPoints_loop_silent as Hloop.
  keeps_unfold. repeat keeps_step.
Qed.

(** X28. [removeAllPoints] in a reachable widget returns and leaves no
    point, no marker, no label and no active index; the children of
    [this.element] are then the two fixed circles, each one once; no
    [change] event is emitted. *)
Theorem removeAllPoints_leaves_fixed_circles this :
  reachable this ->
  exists this',
    removeAllPoints this = (Normal tt, this')
    /\ val this' = []
    /\ sourceElements this' = []
    /\ labelElements this' = []
    /\ activePoint this' = None
    /\ element this' ≡ₚ [backgroundCircle this; listener this]
    /\ emitted this' = emitted this.
Proof.
  intros Hreach.
  pose proof (reachable_invariant this Hreach) as Hinv.
  destruct (lockstep_operations this (inv_lockstep this Hinv)) as (_ & _ & Hall).
  { rewrite (inv_nodeSize this Hinv). lra. }
  destruct Hall as (this' & Hrun & _ & Hv & Ha & Hs & Hl & _).
  exists this'. split; [exact Hrun |].
  do 4 (split; [assumption |]).
  pose proof (run_attached RemoveAllPoints this Hinv (reachable_attached this Hreach))
    as [_ Hch _].
  pose proof (run_settings RemoveAllPoints this) as Hset.
  pose proof (removeAllPoints_silent this) as Hem.
  cbn [run] in Hch, Hset. rewrite Hrun in Hch, Hset, Hem. cbn [snd] in Hch, Hset, Hem.
  split.
  - rewrite Hch. unfold nodes. rewrite Hs, Hl. cbn.
    assert (backgroundCircle this' = backgroundCircle this
            /\ listener this' = listener this) as [-> ->]
      by (unfold settings in Hset; injection Hset; intros; split; assumption).
    reflexivity.
  - exact Hem.
Qed.

Lemma removeAllPoints_leaves_fixed_circles_witness :
  exists this',
    removeAllPoints boundary_panel = (Normal tt, this') /\ val this' = [].
Proof.
  destruct (removeAllPoints_leaves_fixed_circles boundary_panel)
    as (this' & Hrun & Hv & _).
  - exact reachable_boundary_panel.
  - exists this'. auto.
Defined.
